(** * Object replication core of the storage provider

    A shallow embedding of two Go packages of the repository:

    - [gfsptqueue] (the bounded, keyed, limit-aware task queue
      [GfSpTQueueWithLimit]), in [Module TaskQueue];
    - [tasknode] (the stream reader group, the per-shard replicator and the
      replicate-object task), in [Module TaskNode].

    Slices are lists, Go maps are [gmap]s, [int] counters that are lengths or
    loop indices are [nat], sizes that come from conversions are [Z], and
    [float64] is IEEE binary64 as given by [SpecFloat].  External
    collaborators (piece store, gateway, signer, chain, resource manager,
    database) are fields of an environment record, and the functions return
    the trace of the calls they make.  The goroutines of a round of the
    replication loop are run one after the other, in an order the
    environment chooses; what their running at the same time adds (a write
    on a pipe that waits for its reader, a call that waits for a pipe that
    is never closed, two writes to one map at once) is decided by the
    environment as well and ends the run as blocked or dead. *)

From Stdlib Require Import ZArith QArith Strings.Byte.
From Stdlib Require Import Floats.SpecFloat.
From stdpp Require Import gmap strings list fin_maps sorting.

Local Open Scope Z_scope.

(* ===================================================================== *)
(** ** The task queue (package gfsptqueue)                                *)
(* ===================================================================== *)

Module TaskQueue.

(** Errors returned by [Push]: [errors.New("repeated task")] and
    [errors.New("queue exceed")]. *)
Inductive PushError := RepeatedTask | QueueExceed.

Section Queue.

(** [coretask.Task] and [corercmgr.Limit] are interfaces declared outside
    the queue's package: a task is known through [Key()] and
    [EstimateLimit()], a limit through [NotLess]. *)
Context {Task Limit : Type}.
Variable Key : Task → string.
Variable EstimateLimit : Task → Limit.
Variable NotLess : Limit → Limit → bool.

Record GfSpTQueueWithLimit := mkQueue {
  name : string;
  tasks : list Task;
  indexer : gmap string nat;
  cap : Z;
  gcFunc : option (Task → bool);
  filterFunc : option (Task → bool)
}.

Definition NewGfSpTQueueWithLimit (name : string) (cap : Z) : GfSpTQueueWithLimit :=
  mkQueue name [] ∅ cap None None.

Definition Len (t : GfSpTQueueWithLimit) : nat := length (tasks t).

Definition Cap (t : GfSpTQueueWithLimit) : Z := cap t.

Definition Has (t : GfSpTQueueWithLimit) (key : string) : bool :=
  bool_decide (is_Some (indexer t !! key)).

Definition set_tasks (t : GfSpTQueueWithLimit) (l : list Task) (ix : gmap string nat)
  : GfSpTQueueWithLimit :=
  mkQueue (name t) l ix (cap t) (gcFunc t) (filterFunc t).

Definition SetFilterTaskStrategy (t : GfSpTQueueWithLimit) (filter : Task → bool)
  : GfSpTQueueWithLimit :=
  mkQueue (name t) (tasks t) (indexer t) (cap t) (gcFunc t) (Some filter).

Definition SetRetireTaskStrategy (t : GfSpTQueueWithLimit) (retire : Task → bool)
  : GfSpTQueueWithLimit :=
  mkQueue (name t) (tasks t) (indexer t) (cap t) (Some retire) (filterFunc t).

Definition exceed (t : GfSpTQueueWithLimit) : bool :=
  bool_decide (cap t ≤ Z.of_nat (length (tasks t))).

(** [t.tasks = append(t.tasks, task); t.indexer[task.Key()] = len(t.tasks) - 1] *)
Definition add (t : GfSpTQueueWithLimit) (task : Task) : GfSpTQueueWithLimit :=
  set_tasks t (tasks t ++ [task])
            (<[Key task := (length (tasks t ++ [task]) - 1)%nat]> (indexer t)).

(** [delete]: look the key up, give up when it is absent or when the stored
    index is out of bounds (the "[BUG] index out of bounds" branch), else
    splice the slice at the stored index and drop the key.  No other key
    of the indexer is touched. *)
Definition delete (t : GfSpTQueueWithLimit) (task : Task) : GfSpTQueueWithLimit :=
  match indexer t !! Key task with
  | None => t
  | Some idx =>
      if bool_decide (length (tasks t) ≤ idx)%nat then t
      else set_tasks t (take idx (tasks t) ++ drop (S idx) (tasks t))
                     (base.delete (Key task) (indexer t))
  end.

(** The test of the scan loops: [limit.NotLess(task.EstimateLimit())] and
    then the filter, when one is installed. *)
Definition eligible (t : GfSpTQueueWithLimit) (limit : Limit) (task : Task) : bool :=
  NotLess limit (EstimateLimit task) &&
  match filterFunc t with
  | None => true
  | Some f => f task
  end.

(** [for i := len(t.tasks) - 1; i >= 0; i--] of [TopByLimit]: [topScan t
    limit n] runs the iterations [i = n-1, ..., 0]. *)
Fixpoint topScan (t : GfSpTQueueWithLimit) (limit : Limit) (n : nat) : option Task :=
  match n with
  | O => None
  | S i =>
      match tasks t !! i with
      | None => None
      | Some task => if eligible t limit task then Some task else topScan t limit i
      end
  end.

Definition TopByLimit (t : GfSpTQueueWithLimit) (limit : Limit) : option Task :=
  if bool_decide (length (tasks t) = 0%nat) then None
  else topScan t limit (length (tasks t)).

(** The loop of [PopByLimit] assigns every scanned element to the local
    variable [task], which the deferred function reads afterwards.  The
    result is the returned value paired with the final content of that
    variable. *)
Fixpoint popScan (t : GfSpTQueueWithLimit) (limit : Limit) (n : nat) (task : option Task)
  : option Task * option Task :=
  match n with
  | O => (None, task)
  | S i =>
      match tasks t !! i with
      | None => (None, task)
      | Some tk =>
          if eligible t limit tk then (Some tk, Some tk)
          else popScan t limit i (Some tk)
      end
  end.

(** [PopByLimit]: the scan, then the deferred [if task != nil { t.delete(task) }]. *)
Definition PopByLimit (t : GfSpTQueueWithLimit) (limit : Limit)
  : GfSpTQueueWithLimit * option Task :=
  let '(ret, task) :=
    if bool_decide (length (tasks t) = 0%nat) then (None, None)
    else popScan t limit (length (tasks t)) None in
  (match task with
   | Some tk => delete t tk
   | None => t
   end, ret).

Definition PopByKey (t : GfSpTQueueWithLimit) (key : string)
  : GfSpTQueueWithLimit * option Task :=
  match indexer t !! key with
  | None => (t, None)
  | Some idx =>
      match tasks t !! idx with
      | None => (t, None)
      | Some task => (delete t task, Some task)
      end
  end.

(** The retire loop of [Push], [for _, backup := range t.tasks].  The range
    expression is evaluated once: the loop reads positions [0 .. n-1] of
    the backing array of the slice it started with, while [delete] splices
    [t.tasks] inside that same array.  [arr] is the backing array as the
    loop sees it, [i] the next position, [rem] the iterations left.  After
    a call of [delete] the array holds the new [t.tasks] followed by the
    cells the splice did not overwrite. *)
Fixpoint retireLoop (gc : Task → bool) (task : Task) (rem i : nat) (arr : list Task)
         (t : GfSpTQueueWithLimit) (clear : bool) : GfSpTQueueWithLimit * bool :=
  match rem with
  | O => (t, clear)
  | S rem' =>
      match arr !! i with
      | None => (t, clear)
      | Some backup =>
          if gc backup then
            let t' := delete t task in
            retireLoop gc task rem' (S i)
                       (tasks t' ++ drop (length (tasks t')) arr) t' true
          else retireLoop gc task rem' (S i) arr t clear
      end
  end.

Definition Push (t : GfSpTQueueWithLimit) (task : Task)
  : GfSpTQueueWithLimit * option PushError :=
  if bool_decide (is_Some (indexer t !! Key task)) then (t, Some RepeatedTask)
  else if exceed t then
    let '(t', clear) :=
      match gcFunc t with
      | Some gc => retireLoop gc task (length (tasks t)) 0 (tasks t) t false
      | None => (t, false)
      end in
    if clear then (add t' task, None) else (t', Some QueueExceed)
  else (add t task, None).

(** [ScanTask] calls [scan] on every task in slice order; the calls it
    makes are the list of tasks itself. *)
Definition ScanTask (t : GfSpTQueueWithLimit) : list Task := tasks t.

(** Operations of the queue, to talk about sequences of them. *)
Inductive Op :=
| OpPush (task : Task)
| OpPopByKey (key : string)
| OpPopByLimit (limit : Limit).

Definition step (t : GfSpTQueueWithLimit) (op : Op) : GfSpTQueueWithLimit :=
  match op with
  | OpPush task => fst (Push t task)
  | OpPopByKey key => fst (PopByKey t key)
  | OpPopByLimit limit => fst (PopByLimit t limit)
  end.

Definition run (ops : list Op) (t : GfSpTQueueWithLimit) : GfSpTQueueWithLimit :=
  foldl step t ops.

(** Invariant I3, both halves. *)
Definition lengths_agree (t : GfSpTQueueWithLimit) : Prop :=
  length (tasks t) = size (indexer t).

Definition index_sound (t : GfSpTQueueWithLimit) : Prop :=
  ∀ k i, indexer t !! k = Some i → ∃ task, tasks t !! i = Some task ∧ Key task = k.

Definition I3 (t : GfSpTQueueWithLimit) : Prop := lengths_agree t ∧ index_sound t.

(** The queues a client can build: a new queue, then any sequence of
    pushes, pops and strategy changes. *)
Inductive reachable : GfSpTQueueWithLimit → Prop :=
| reach_new (name : string) (cap : Z) : reachable (NewGfSpTQueueWithLimit name cap)
| reach_Push (t : GfSpTQueueWithLimit) (task : Task) :
    reachable t → reachable (Push t task).1
| reach_PopByKey (t : GfSpTQueueWithLimit) (key : string) :
    reachable t → reachable (PopByKey t key).1
| reach_PopByLimit (t : GfSpTQueueWithLimit) (limit : Limit) :
    reachable t → reachable (PopByLimit t limit).1
| reach_SetFilter (t : GfSpTQueueWithLimit) (filter : Task → bool) :
    reachable t → reachable (SetFilterTaskStrategy t filter)
| reach_SetRetire (t : GfSpTQueueWithLimit) (retire : Task → bool) :
    reachable t → reachable (SetRetireTaskStrategy t retire).

(** The slice and the indexer describe each other: I3, and every task of the
    slice is indexed at the position it stands at. *)
Definition exactIndex (t : GfSpTQueueWithLimit) : Prop :=
  I3 t ∧ ∀ i task, tasks t !! i = Some task → indexer t !! Key task = Some i.

End Queue.

Arguments GfSpTQueueWithLimit : clear implicits.
Arguments Op : clear implicits.

(** A concrete task type for the scenarios: a key and an integer cost, with
    [NotLess limit cost] read as [cost <= limit]. *)
Record SimpleTask := mkTask { tkey : string; tcost : Z }.

Definition simpleNotLess (limit cost : Z) : bool := bool_decide (cost ≤ limit).

Definition taskA : SimpleTask := mkTask "A" 1.
Definition taskB : SimpleTask := mkTask "B" 1.
Definition taskC : SimpleTask := mkTask "C" 1.

Definition retireA (task : SimpleTask) : bool := bool_decide (tkey task = "A").

Definition emptyQ (c : Z) : GfSpTQueueWithLimit SimpleTask := NewGfSpTQueueWithLimit "q" c.

(** The queues of the scenarios: A and B pushed into a queue of capacity 2
    whose retire strategy retires A; A and B pushed and A popped by key; A
    alone. *)
Definition fullAB : GfSpTQueueWithLimit SimpleTask :=
  run tkey tcost simpleNotLess [OpPush taskA; OpPush taskB]
      (SetRetireTaskStrategy (emptyQ 2) retireA).

Definition afterPopA : GfSpTQueueWithLimit SimpleTask :=
  run tkey tcost simpleNotLess [OpPush taskA; OpPush taskB; OpPopByKey "A"] (emptyQ 2).

Definition onlyA : GfSpTQueueWithLimit SimpleTask :=
  run tkey tcost simpleNotLess [OpPush taskA] (emptyQ 2).

End TaskQueue.

(* ===================================================================== *)
(** ** The replicate-object task (package tasknode)                       *)
(* ===================================================================== *)

Module TaskNode.

Definition bytes := list Byte.byte.

#[global] Instance byte_eq_decision : EqDecision Byte.byte := Byte.byte_eq_dec.

(** [bytes.Equal]. *)
Definition bytesEqual (a b : bytes) : bool := bool_decide (a = b).

(** Go errors: the three sentinels of [merrors] the package returns itself,
    and whatever a collaborator hands back. *)
Inductive Error :=
| ErrInvalidParams
| ErrMismatchIntegrityHash
| ErrExhaustedSP
| ErrExternal (msg : string).

Definition ReplicateFactor : nat := 1.
Definition GetApprovalTimeout : Z := 10.

Definition wrap32 (z : Z) : Z := z mod 2 ^ 32.

(** *** float64 and the conversions around it *)

Definition float64 (z : Z) : spec_float := binary_normalize 53 1024 z 0 false.
Definition f64mul : spec_float → spec_float → spec_float := SFmul 53 1024.
Definition f64div : spec_float → spec_float → spec_float := SFdiv 53 1024.
Definition f64add : spec_float → spec_float → spec_float := SFadd 53 1024.

(** The integer a finite float truncates to (toward zero). *)
Definition f64trunc (f : spec_float) : option Z :=
  match f with
  | S754_zero _ => Some 0
  | S754_finite s m e =>
      let a := match e with
               | Z.neg p => Z.pos m / 2 ^ Z.pos p
               | _ => Z.pos m * 2 ^ e
               end in
      Some (if s then - a else a)
  | _ => None
  end.

(** [int(f)] for a 64-bit [int].  Go leaves the result of an out-of-range
    conversion to the implementation: [outOfRange] is that result. *)
Definition f64toInt (outOfRange : spec_float → Z) (f : spec_float) : Z :=
  match f64trunc f with
  | Some z => if bool_decide (- 2 ^ 63 ≤ z < 2 ^ 63) then z else outOfRange f
  | None => outOfRange f
  end.

(** *** Data model *)

Inductive RedundancyType := REDUNDANCY_EC_TYPE | REDUNDANCY_REPLICA_TYPE.

Inductive JobState :=
| JOB_STATE_REPLICATE_OBJECT_DOING
| JOB_STATE_REPLICATE_OBJECT_ERROR
| JOB_STATE_SIGN_OBJECT_DOING
| JOB_STATE_SIGN_OBJECT_ERROR
| JOB_STATE_SEAL_OBJECT_DOING
| JOB_STATE_SEAL_OBJECT_ERROR
| JOB_STATE_SEAL_OBJECT_DONE.

Record ObjectInfo := mkObjectInfo {
  Id : Z;
  BucketName : string;
  ObjectName : string;
  PayloadSize : Z;
  ObjRedundancyType : RedundancyType;
  Checksums : list bytes;
  SecondarySpAddresses : list string
}.

(** [storagetypes.Params]: [MaxSegmentSize] is a uint64, the two chunk
    numbers are uint32. *)
Record Params := mkParams {
  MaxSegmentSize : Z;
  RedundantDataChunkNum : Z;
  RedundantParityChunkNum : Z
}.

(** The generated getters accept a nil receiver and answer zero. *)
Definition GetMaxSegmentSize (p : option Params) : Z :=
  from_option MaxSegmentSize 0 p.
Definition GetRedundantDataChunkNum (p : option Params) : Z :=
  from_option RedundantDataChunkNum 0 p.
Definition GetRedundantParityChunkNum (p : option Params) : Z :=
  from_option RedundantParityChunkNum 0 p.

Record StorageProvider := mkSP {
  Endpoint : string;
  Operator : bytes;
  ApprovalAddress : string
}.

Definition GetEndpoint (sp : option StorageProvider) : string :=
  from_option Endpoint EmptyString sp.
Definition GetOperator (sp : option StorageProvider) : bytes :=
  from_option Operator [] sp.
Definition GetApprovalAddress (sp : option StorageProvider) : string :=
  from_option ApprovalAddress EmptyString sp.

(** [p2ptypes.GetApprovalResponse], opaque to this package. *)
Definition GetApprovalResponse := string.

Record MsgSealObject := mkSeal {
  SealOperator : string;
  SealBucketName : string;
  SealObjectName : string;
  SealSecondarySpAddresses : list string;
  SealSecondarySpSignatures : list bytes
}.

Record PieceInfo := mkPieceInfo {
  PieceSignature : bytes;
  PieceIntegrityHash : bytes
}.

(** Events of the producer goroutine of a stream reader group.  [PBlocked
    idx] is a [Write] on the pipe of shard [idx] that never returns, and
    [PPanic idx] the evaluation of [ecPieceData[idx]] out of range. *)
Inductive ProducerEvent :=
| PGetPiece (segmentPieceIdx : nat)
| PPublishPieceSize (size : nat)
| PWrite (idx : nat) (data : bytes)
| PCloseWithError (idx : nat) (err : Error)
| PClose (idx : nat)
| PCloseChannel
| PBlocked (idx : nat)
| PPanic (idx : nat).

(** Calls made to the collaborators of the task. *)
Inductive Event :=
| EvGetStorageParams
| EvGetApproval (expect ask : nat) (timeout : Z)
| EvReserveMemory (size : Z) (granted : bool)
| EvReleaseMemory (size : Z)
| EvUpdateJobState (id : Z) (state : JobState)
| EvProduce (trace : list ProducerEvent)
| EvNewGatewayClient (endpoint : string)
| EvReplicateObjectPieceStream (endpoint : string) (pieceSize redundancyIndex : Z)
| EvSetObjectInfo (id : Z) (secondary : list string)
| EvCacheAdd (id : Z) (progress : list (option PieceInfo))
| EvSealObjectOnChain (msg : MsgSealObject)
| EvListenObjectSeal (bucket object : string) (blocks : Z).

(** The collaborators, as the answers they give.  [GetPiece] is asked again
    in every round of the retry loop, so it also takes the round number;
    [choice] is the order in which the replicator goroutines of a round get
    hold of the task's mutex.  [piecesRead round idx] is the number of
    pieces [ReplicateObjectPieceStream] takes from the pipe of shard [idx]
    before it stops reading, [None] when it reads until the pipe is closed.
    [mapWriteRace round idx] tells whether the runtime finds the write
    [succeedIndexMap[idx] = true] of the round under way together with the
    write of another goroutine. *)
Record Env := mkEnv {
  SpOperatorAddress : string;
  GetStorageParams : option Params * option Error;
  getApproval : ObjectInfo → nat → nat → Z →
                gmap string StorageProvider * gmap string GetApprovalResponse * option Error;
  ReserveMemory : Z → option Error;
  intOutOfRange : spec_float → Z;
  GetPiece : nat → Z → nat → bytes + Error;
  EncodeRawSegment : bytes → Z → Z → list bytes + Error;
  NewGatewayClient : string → option Error;
  ReplicateObjectPieceStream :
    string → Z → Z → Z → option GetApprovalResponse → (bytes * bytes) + Error;
  SecondarySpSignBytes : bytes → Z → bytes → bytes;
  AccAddressFromHexUnsafe : string → bytes + Error;
  Keccak256 : bytes → bytes;
  VerifySignature : bytes → bytes → bytes → option Error;
  AccAddressString : bytes → string;
  SealObjectOnChain : MsgSealObject → option Error;
  ListenObjectSeal : string → string → Z → option Error;
  choice : nat → nat → nat;
  piecesRead : nat → nat → option nat;
  mapWriteRace : nat → nat → bool
}.

Record replicateObjectTask := mkReplicateTask {
  objectInfo : ObjectInfo;
  approximateMemSize : Z;
  storageParams : option Params;
  segmentPieceNumber : nat;
  redundancyNumber : nat;
  spMap : gmap string StorageProvider;
  approvalResponseMap : gmap string GetApprovalResponse;
  sortedSpEndpoints : list string
}.

Definition newReplicateObjectTask (object : ObjectInfo) : replicateObjectTask :=
  mkReplicateTask object 0 None 0 0 ∅ ∅ [].

(** *** The stream reader group *)

(** A [streamReader] is a pipe pair; [pipe] numbers the [io.Pipe()] call
    that made it. *)
Record streamReader := mkStreamReader { pipe : nat }.

Record streamReaderGroup := mkGroup {
  pieceSize : Z;
  streamReaderMap : gmap nat streamReader
}.

(** State of the two nested loops of [newStreamReaderGroup]: the map, the
    flag [atLeastHasOne] and the number of pipes made so far. *)
Definition groupAcc : Type := gmap nat streamReader * bool * nat.

Definition groupInner (excludeIndexMap : gmap nat bool) (acc : groupAcc) (idx : nat)
  : groupAcc :=
  let '(m, atLeastHasOne, made) := acc in
  if default false (excludeIndexMap !! idx) then acc
  else (<[idx := mkStreamReader made]> m, true, S made).

Definition groupOuter (t : replicateObjectTask) (excludeIndexMap : gmap nat bool)
           (acc : groupAcc) (segmentPieceIdx : nat) : groupAcc :=
  foldl (groupInner excludeIndexMap) acc (seq 0 (redundancyNumber t)).

Definition newStreamReaderGroup (t : replicateObjectTask) (excludeIndexMap : gmap nat bool)
  : streamReaderGroup + Error :=
  let '(m, atLeastHasOne, _) :=
    foldl (groupOuter t excludeIndexMap) (∅, false, O) (seq 0 (segmentPieceNumber t)) in
  if atLeastHasOne then inl (mkGroup 0 m) else inr ErrInvalidParams.

(** The indices of a group's map, in the order a [range] over it happens to
    take (Go fixes none; the order of [map_to_list] stands for it). *)
Definition groupIndices (sg : streamReaderGroup) : list nat :=
  (map_to_list (streamReaderMap sg)).*1.

(** *** The replicator *)

Record streamPieceDataReplicator := mkReplicator {
  rPieceSize : Z;
  redundancyIndex : Z;
  expectedIntegrityHash : bytes;
  rStreamReader : option streamReader;
  rSp : option StorageProvider;
  rApproval : option GetApprovalResponse
}.

Definition replicate (e : Env) (t : replicateObjectTask) (r : streamPieceDataReplicator)
  : ((bytes * bytes) + Error) * list Event :=
  let endpoint := GetEndpoint (rSp r) in
  match NewGatewayClient e endpoint with
  | Some err => (inr err, [EvNewGatewayClient endpoint])
  | None =>
      let evs := [EvNewGatewayClient endpoint;
                  EvReplicateObjectPieceStream endpoint (rPieceSize r) (redundancyIndex r)] in
      match ReplicateObjectPieceStream e endpoint (Id (objectInfo t)) (rPieceSize r)
              (redundancyIndex r) (rApproval r) with
      | inr err => (inr err, evs)
      | inl (integrityHash, signature) =>
          if negb (bytesEqual (expectedIntegrityHash r) integrityHash)
          then (inr ErrMismatchIntegrityHash, evs)
          else
            let originMsgHash :=
              SecondarySpSignBytes e (GetOperator (rSp r)) (Id (objectInfo t)) integrityHash in
            match AccAddressFromHexUnsafe e (GetApprovalAddress (rSp r)) with
            | inr err => (inr err, evs)
            | inl approvalAddr =>
                match VerifySignature e approvalAddr (Keccak256 e originMsgHash) signature with
                | Some err => (inr err, evs)
                | None => (inl (integrityHash, signature), evs)
                end
            end
      end
  end.

(** *** The task: init *)

(** Modelled from the spec: [piecestore.ComputeSegmentCount], not among the
    sources; "segment_piece_number = ceil(payload_size / max_segment_size)". *)
Definition ComputeSegmentCount (size splitSize : Z) : Z :=
  (size + splitSize - 1) / splitSize.

Definition stringLe (a b : string) : Prop := String.leb a b = true.

#[global] Instance stringLe_dec a b : Decision (stringLe a b).
Proof. unfold stringLe. apply _. Defined.

(** Modelled from the spec: [maps.SortKeys], not among the sources; "an
    ordered endpoint list sorted by a deterministic key (the map-key sort)". *)
Definition SortKeys {V : Type} (m : gmap string V) : list string :=
  merge_sort stringLe (map_to_list m).*1.

(** [int(float64(base) * (float64(redundancyNumber)/float64(K) + 1))] *)
Definition memSize (e : Env) (base : Z) (redundancyNumber : nat) (dataChunkNum : Z) : Z :=
  f64toInt (intOutOfRange e)
    (f64mul (float64 base)
       (f64add (f64div (float64 (Z.of_nat redundancyNumber)) (float64 dataChunkNum))
               (float64 1))).

(** [int(K + M)], the sum taken in uint32. *)
Definition paramsRedundancyNumber (p : option Params) : nat :=
  Z.to_nat (wrap32 (GetRedundantDataChunkNum p + GetRedundantParityChunkNum p)).

(** The size the spec gives for the reservation, over the rationals:
    [min(payload_size, max_segment_size) * ((K+M)/K + 1)]. *)
Definition specMemSize (payloadSize maxSegmentSize k m : Z) : Q :=
  (inject_Z (Z.min payloadSize maxSegmentSize) *
   (Qmake (k + m) 1 / Qmake k 1 + Qmake 1 1))%Q.

Definition set_params (t : replicateObjectTask) (p : option Params) : replicateObjectTask :=
  mkReplicateTask (objectInfo t) (approximateMemSize t) p (segmentPieceNumber t)
    (redundancyNumber t) (spMap t) (approvalResponseMap t) (sortedSpEndpoints t).

Definition set_counts (t : replicateObjectTask) (segs red : nat) : replicateObjectTask :=
  mkReplicateTask (objectInfo t) (approximateMemSize t) (storageParams t) segs red
    (spMap t) (approvalResponseMap t) (sortedSpEndpoints t).

Definition set_pool (t : replicateObjectTask) (sps : gmap string StorageProvider)
           (aps : gmap string GetApprovalResponse) (eps : list string) : replicateObjectTask :=
  mkReplicateTask (objectInfo t) (approximateMemSize t) (storageParams t)
    (segmentPieceNumber t) (redundancyNumber t) sps aps eps.

Definition set_mem (t : replicateObjectTask) (n : Z) : replicateObjectTask :=
  mkReplicateTask (objectInfo t) n (storageParams t) (segmentPieceNumber t)
    (redundancyNumber t) (spMap t) (approvalResponseMap t) (sortedSpEndpoints t).

Definition set_object (t : replicateObjectTask) (o : ObjectInfo) : replicateObjectTask :=
  mkReplicateTask o (approximateMemSize t) (storageParams t) (segmentPieceNumber t)
    (redundancyNumber t) (spMap t) (approvalResponseMap t) (sortedSpEndpoints t).

Definition init (e : Env) (t : replicateObjectTask)
  : option Error * replicateObjectTask * list Event :=
  let '(params, err) := GetStorageParams e in
  let t := set_params t params in
  match err with
  | Some err => (Some err, t, [EvGetStorageParams])
  | None =>
      let t := set_counts t
                 (Z.to_nat (ComputeSegmentCount (PayloadSize (objectInfo t))
                                                (GetMaxSegmentSize (storageParams t))))
                 (paramsRedundancyNumber (storageParams t)) in
      if bool_decide ((redundancyNumber t + 1)%nat ≠ length (Checksums (objectInfo t)))
      then (Some ErrInvalidParams, t, [EvGetStorageParams])
      else
        let ask := (redundancyNumber t * ReplicateFactor)%nat in
        let '(sps, aps, err) :=
          getApproval e (objectInfo t) (redundancyNumber t) ask GetApprovalTimeout in
        let evs := [EvGetStorageParams;
                    EvGetApproval (redundancyNumber t) ask GetApprovalTimeout] in
        let t := set_pool t sps aps (sortedSpEndpoints t) in
        match err with
        | Some err => (Some err, t, evs)
        | None =>
            let t := set_pool t (spMap t) (approvalResponseMap t)
                              (SortKeys (approvalResponseMap t)) in
            let k := GetRedundantDataChunkNum (storageParams t) in
            let t := set_mem t (memSize e (GetMaxSegmentSize (storageParams t))
                                        (redundancyNumber t) k) in
            let t :=
              if bool_decide (PayloadSize (objectInfo t) < GetMaxSegmentSize (storageParams t))
              then set_mem t (memSize e (PayloadSize (objectInfo t)) (redundancyNumber t) k)
              else t in
            match ReserveMemory e (approximateMemSize t) with
            | Some err =>
                (Some err, t, evs ++ [EvReserveMemory (approximateMemSize t) false])
            | None => (None, t, evs ++ [EvReserveMemory (approximateMemSize t) true])
            end
        end
  end.

(** *** The task: execute *)

Record loopState := mkLoop {
  lTask : replicateObjectTask;
  succeedIndexMap : gmap nat bool;
  sealMsg : MsgSealObject;
  progressInfo : list (option PieceInfo)
}.

Definition isAllSucceed (t : replicateObjectTask) (inputIndexMap : gmap nat bool) : bool :=
  forallb (λ i, default false (inputIndexMap !! i)) (seq 0 (redundancyNumber t)).

(** [pickSp] either hands out the head of the endpoint list, or reports the
    pool exhausted, or indexes an empty slice. *)
Inductive picked :=
| PickOk (sp : option StorageProvider) (approval : option GetApprovalResponse)
         (t : replicateObjectTask)
| PickExhausted
| PickPanic.

Definition pickSp (t : replicateObjectTask) : picked :=
  if bool_decide (size (approvalResponseMap t) = O) then PickExhausted
  else match sortedSpEndpoints t with
       | [] => PickPanic
       | endpoint :: rest =>
           PickOk (spMap t !! endpoint) (approvalResponseMap t !! endpoint)
                  (set_pool t (base.delete endpoint (spMap t))
                            (base.delete endpoint (approvalResponseMap t)) rest)
       end.

Definition set_secondary (o : ObjectInfo) (l : list string) : ObjectInfo :=
  mkObjectInfo (Id o) (BucketName o) (ObjectName o) (PayloadSize o)
    (ObjRedundancyType o) (Checksums o) l.

(** The replicator a goroutine builds for shard [rIdx]; nothing is built
    when [GetChecksums()[rIdx+1]] is out of range (the goroutine panics). *)
Definition newReplicator (t : replicateObjectTask) (sg : streamReaderGroup) (rIdx : nat)
           (sp : option StorageProvider) (approval : option GetApprovalResponse)
  : option streamPieceDataReplicator :=
  match Checksums (objectInfo t) !! (rIdx + 1)%nat with
  | None => None
  | Some expected =>
      Some (mkReplicator (wrap32 (pieceSize sg)) (wrap32 (Z.of_nat rIdx)) expected
                         (streamReaderMap sg !! rIdx) sp approval)
  end.

(** The order in which [n] goroutines started on the indices [l] take the
    mutex: the scheduler's [k]-th decision picks among those still waiting. *)
Fixpoint pickOrder (choice : nat → nat) (k : nat) (l : list nat) (n : nat) : list nat :=
  match n with
  | O => []
  | S n' =>
      let j := (choice k mod length l)%nat in
      match l !! j with
      | Some x => x :: pickOrder choice (S k) (take j l ++ drop (S j) l) n'
      | None => []
      end
  end.

(** *** The producer goroutine *)

(** The provider [pickSp] hands to the goroutine of shard [idx] when the
    goroutines of a round take the mutex in the order [order]; [None] when
    that goroutine gets no provider. *)
Fixpoint handedTo (t : replicateObjectTask) (order : list nat) (idx : nat)
  : option (option StorageProvider) :=
  match order with
  | [] => None
  | rIdx :: rest =>
      match pickSp t with
      | PickOk sp _ t' =>
          if bool_decide (rIdx = idx) then Some sp else handedTo t' rest idx
      | _ => None
      end
  end.

(** The number of pieces taken out of the pipe of shard [idx] in a round,
    [None] for a reader that goes on until the pipe is closed.  The read end
    of the pipe is only ever given to [ReplicateObjectPieceStream]: a
    goroutine that gets no provider, that panics on
    [GetChecksums()[idx+1]], or whose [NewGatewayClient] fails, returns or
    dies without a single read. *)
Definition piecesTaken (e : Env) (round : nat) (t : replicateObjectTask)
           (sg : streamReaderGroup) (idx : nat) : option nat :=
  let order := pickOrder (choice e round) 0 (groupIndices sg) (length (groupIndices sg)) in
  match handedTo t order idx with
  | None => Some O
  | Some sp =>
      match Checksums (objectInfo t) !! (idx + 1)%nat with
      | None => Some O
      | Some _ =>
          match NewGatewayClient e (GetEndpoint sp) with
          | Some _ => Some O
          | None => piecesRead e round idx
          end
      end
  end.

(** A [Write] on an [io.Pipe] returns once its data has been read: the write
    of the piece of segment [segmentPieceIdx] into the pipe of shard [idx]
    returns when the reader takes more than [segmentPieceIdx] pieces.  (No
    read end is ever closed, so no write returns with an error.) *)
Definition writeReturns (e : Env) (round : nat) (t : replicateObjectTask)
           (sg : streamReaderGroup) (segmentPieceIdx idx : nat) : bool :=
  match piecesTaken e round t sg idx with
  | None => true
  | Some n => bool_decide (segmentPieceIdx < n)%nat
  end.

(** [for idx := range sg.streamReaderMap { pWrite.Write(shard[idx]) }] for
    one segment, and then [rest].  A shard that is missing makes the
    goroutine panic, and the deferred [close(pieceSizeCh)] runs; a write
    that does not return leaves the goroutine where it is. *)
Fixpoint writePieces (returns : nat → bool) (shard : nat → option bytes)
         (idxs : list nat) (rest : list ProducerEvent) : list ProducerEvent :=
  match idxs with
  | [] => rest
  | idx :: idxs' =>
      match shard idx with
      | None => [PPanic idx; PCloseChannel]
      | Some data =>
          if returns idx then PWrite idx data :: writePieces returns shard idxs' rest
          else [PBlocked idx]
      end
  end.

(** The goroutine of [produceStreamPieceData] for the segments [segs], from
    the declaration of [gotPieceSize] on; the deferred [close(pieceSizeCh)]
    is the [PCloseChannel] at every place where the goroutine ends. *)
Fixpoint produceLoop (e : Env) (round : nat) (t : replicateObjectTask)
         (sg : streamReaderGroup) (segs : list nat) (gotPieceSize : bool)
  : list ProducerEvent :=
  match segs with
  | [] => map PClose (groupIndices sg) ++ [PCloseChannel]
  | segmentPieceIdx :: segs' =>
      PGetPiece segmentPieceIdx ::
      match GetPiece e round (Id (objectInfo t)) segmentPieceIdx with
      | inr err =>
          map (λ idx, PCloseWithError idx err) (groupIndices sg) ++ [PCloseChannel]
      | inl segmentPieceData =>
          match ObjRedundancyType (objectInfo t) with
          | REDUNDANCY_EC_TYPE =>
              match EncodeRawSegment e segmentPieceData
                      (GetRedundantDataChunkNum (storageParams t))
                      (GetRedundantParityChunkNum (storageParams t)) with
              | inr err =>
                  map (λ idx, PCloseWithError idx err) (groupIndices sg) ++ [PCloseChannel]
              | inl ecPieceData =>
                  let writes :=
                    writePieces (writeReturns e round t sg segmentPieceIdx)
                                (λ idx, ecPieceData !! idx) (groupIndices sg)
                                (produceLoop e round t sg segs' true) in
                  if gotPieceSize then writes
                  else match ecPieceData !! O with
                       | None => [PPanic O; PCloseChannel]
                       | Some shard => PPublishPieceSize (length shard) :: writes
                       end
              end
          | REDUNDANCY_REPLICA_TYPE =>
              (if gotPieceSize then []
               else [PPublishPieceSize (length segmentPieceData)]) ++
              writePieces (writeReturns e round t sg segmentPieceIdx)
                          (λ _, Some segmentPieceData) (groupIndices sg)
                          (produceLoop e round t sg segs' true)
          end
      end
  end.

Definition producerTrace (e : Env) (round : nat) (t : replicateObjectTask)
           (sg : streamReaderGroup) : list ProducerEvent :=
  produceLoop e round t sg (seq 0 (segmentPieceNumber t)) false.

(** What [<-ch] yields against a producer trace: the first value sent, or
    the zero value once the channel is closed. *)
Fixpoint receive (trace : list ProducerEvent) : Z :=
  match trace with
  | [] => 0
  | PPublishPieceSize n :: _ => Z.of_nat n
  | PCloseChannel :: _ => 0
  | _ :: trace' => receive trace'
  end.

Definition published (trace : list ProducerEvent) : list nat :=
  omap (λ ev, match ev with PPublishPieceSize n => Some n | _ => None end) trace.

(** The shard size of the first segment, when the first segment gets as far
    as the publish statement: fetched, and encoded into at least one shard
    if the object is erasure-coded. *)
Definition firstPieceSize (e : Env) (round : nat) (t : replicateObjectTask) : option nat :=
  match segmentPieceNumber t with
  | O => None
  | S _ =>
      match GetPiece e round (Id (objectInfo t)) O with
      | inr _ => None
      | inl segmentPieceData =>
          match ObjRedundancyType (objectInfo t) with
          | REDUNDANCY_EC_TYPE =>
              match EncodeRawSegment e segmentPieceData
                      (GetRedundantDataChunkNum (storageParams t))
                      (GetRedundantParityChunkNum (storageParams t)) with
              | inr _ => None
              | inl ecPieceData => length <$> ecPieceData !! O
              end
          | REDUNDANCY_REPLICA_TYPE => Some (length segmentPieceData)
          end
      end
  end.

(** [produceStreamPieceData]: start the goroutine, [sg.pieceSize = <-ch]. *)
Definition produceStreamPieceData (e : Env) (round : nat) (t : replicateObjectTask)
           (sg : streamReaderGroup) : streamReaderGroup * list ProducerEvent :=
  let trace := producerTrace e round t sg in
  (mkGroup (receive trace) (streamReaderMap sg), trace).

(** *** Reading a producer trace *)

(** The pipes a trace closes, in order, with or without an error, and those
    it closes without one. *)
Definition closedPipes (trace : list ProducerEvent) : list nat :=
  omap (λ ev, match ev with
              | PClose idx | PCloseWithError idx _ => Some idx
              | _ => None
              end) trace.

Definition cleanlyClosedPipes (trace : list ProducerEvent) : list nat :=
  omap (λ ev, match ev with PClose idx => Some idx | _ => None end) trace.

(** What a trace writes into the pipe of shard [idx]. *)
Definition writesTo (idx : nat) (trace : list ProducerEvent) : list bytes :=
  omap (λ ev, match ev with
              | PWrite i data => if bool_decide (i = idx) then Some data else None
              | _ => None
              end) trace.

Definition channelCloses (trace : list ProducerEvent) : nat :=
  length (omap (λ ev, match ev with PCloseChannel => Some tt | _ => None end) trace).

(** How the goroutine of a trace ends: it returns, it stays in a [Write]
    nobody reads, or it panics on a missing shard. *)
Inductive producerEnd :=
| ProducerReturned
| ProducerBlocked (idx : nat)
| ProducerPanicked (idx : nat).

Fixpoint producerEnds (trace : list ProducerEvent) : producerEnd :=
  match trace with
  | [] => ProducerReturned
  | PBlocked idx :: _ => ProducerBlocked idx
  | PPanic idx :: _ => ProducerPanicked idx
  | _ :: trace' => producerEnds trace'
  end.

(** *** The replicator goroutines *)

(** Whether a reader of the pipe of shard [idx] waits for ever: it wants
    more pieces than the producer writes and the producer never closes the
    pipe. *)
Definition readerStarves (e : Env) (round : nat) (ptrace : list ProducerEvent) (idx : nat)
  : bool :=
  bool_decide (idx ∉ closedPipes ptrace) &&
  match piecesRead e round idx with
  | None => true
  | Some n => bool_decide (length (writesTo idx ptrace) < n)%nat
  end.

(** Whether [r.replicate()] for shard [rIdx] and the provider [sp] never
    returns: the gateway client exists and [ReplicateObjectPieceStream]
    waits on the pipe. *)
Definition streamBlocks (e : Env) (round : nat) (ptrace : list ProducerEvent) (rIdx : nat)
           (sp : option StorageProvider) : bool :=
  match NewGatewayClient e (GetEndpoint sp) with
  | Some _ => false
  | None => readerStarves e round ptrace rIdx
  end.

(** How a replicator goroutine ends: it returns without a success, it
    returns after recording its success, it never returns, or it brings the
    process down (a panic, or the runtime's fatal error on concurrent map
    writes). *)
Inductive goroutineEnd := GoReturned | GoSucceeded | GoBlocked | GoDied.

(** The body of one replicator goroutine of round [round], run while it
    holds its turn.  [ptrace] is what the producer of the round does and
    [wrote] tells whether another goroutine of the round has written
    [succeedIndexMap] already: the map is written without a lock
    ([succeedIndexMap[rIdx] = true]), and the runtime ends the process when
    it finds two writes under way at once. *)
Definition replicator (e : Env) (round : nat) (ptrace : list ProducerEvent)
           (sg : streamReaderGroup) (st : loopState) (rIdx : nat) (wrote : bool)
  : loopState * list Event * goroutineEnd :=
  match pickSp (lTask st) with
  | PickExhausted => (st, [], GoReturned)
  | PickPanic => (st, [], GoDied)
  | PickOk sp approval t =>
      let st := mkLoop t (succeedIndexMap st) (sealMsg st) (progressInfo st) in
      match newReplicator t sg rIdx sp approval with
      | None => (st, [], GoDied)
      | Some r =>
          if streamBlocks e round ptrace rIdx sp then (st, (replicate e t r).2, GoBlocked)
          else
            match replicate e t r with
            | (inr _, evs) => (st, evs, GoReturned)
            | (inl (integrityHash, signature), evs) =>
                if wrote && mapWriteRace e round rIdx then (st, evs, GoDied)
                else
                  let operator := AccAddressString e (GetOperator sp) in
                  let msg := sealMsg st in
                  let msg := mkSeal (SealOperator msg) (SealBucketName msg)
                               (SealObjectName msg)
                               (<[rIdx := operator]> (SealSecondarySpAddresses msg))
                               (<[rIdx := signature]> (SealSecondarySpSignatures msg)) in
                  let progress :=
                    <[rIdx := Some (mkPieceInfo signature integrityHash)]>
                      (progressInfo st) in
                  let o := set_secondary (objectInfo t)
                             (<[rIdx := operator]> (SecondarySpAddresses (objectInfo t))) in
                  (mkLoop (set_object t o) (<[rIdx := true]> (succeedIndexMap st)) msg
                          progress,
                   evs ++ [EvSetObjectInfo (Id o) (SecondarySpAddresses o);
                           EvCacheAdd (Id o) progress],
                   GoSucceeded)
            end
      end
  end.

(** How the goroutines of a round end together: all have returned
    ([wg.Wait()] returns), one at least never returns ([wg.Wait()] waits for
    ever), or one has brought the process down. *)
Inductive roundEnd := RoundDone | RoundBlocked | RoundDied.

(** The goroutines of a round, in the order they take the mutex.  A
    goroutine that never returns does not keep the others from running. *)
Fixpoint fanOut (e : Env) (round : nat) (ptrace : list ProducerEvent)
         (sg : streamReaderGroup) (order : list nat) (st : loopState) (wrote : bool)
  : loopState * list Event * roundEnd :=
  match order with
  | [] => (st, [], RoundDone)
  | rIdx :: rest =>
      let '(st1, evs1, g) := replicator e round ptrace sg st rIdx wrote in
      match g with
      | GoDied => (st1, evs1, RoundDied)
      | _ =>
          let wrote := match g with GoSucceeded => true | _ => wrote end in
          let '(st2, evs2, r) := fanOut e round ptrace sg rest st1 wrote in
          (st2, evs1 ++ evs2,
           match g, r with
           | GoBlocked, RoundDone => RoundBlocked
           | _, _ => r
           end)
      end
  end.

(** One round of the loop of [execute] from [sg.produceStreamPieceData()] to
    [wg.Wait()]: the producer is started, then one goroutine per pipe.  A
    panic of the producer goroutine ends the process like one of a
    replicator. *)
Definition replicateRound (e : Env) (round : nat) (st : loopState) (sg : streamReaderGroup)
  : loopState * list Event * roundEnd :=
  let '(sg, ptrace) := produceStreamPieceData e round (lTask st) sg in
  match producerEnds ptrace with
  | ProducerPanicked _ => (st, [EvProduce ptrace], RoundDied)
  | _ =>
      let order := pickOrder (choice e round) 0 (groupIndices sg)
                             (length (groupIndices sg)) in
      let '(st1, evs1, r) := fanOut e round ptrace sg order st false in
      (st1, EvProduce ptrace :: evs1, r)
  end.

Inductive loopExit := LoopBreak | LoopReturn | LoopPanic | LoopHang | LoopOutOfFuel.

(** The [for { ... }] of [execute]; [round] counts its iterations. *)
Fixpoint replicateLoop (e : Env) (fuel round : nat) (st : loopState)
  : loopState * list Event * loopExit :=
  match fuel with
  | O => (st, [], LoopOutOfFuel)
  | S fuel' =>
      if isAllSucceed (lTask st) (succeedIndexMap st) then (st, [], LoopBreak)
      else
        match newStreamReaderGroup (lTask st) (succeedIndexMap st) with
        | inr _ => (st, [], LoopReturn)
        | inl sg =>
            if bool_decide (length (sortedSpEndpoints (lTask st)) < size (streamReaderMap sg))%nat
            then (st, [], LoopReturn)
            else
              let '(st1, evs1, r) := replicateRound e round st sg in
              match r with
              | RoundDied => (st1, evs1, LoopPanic)
              | RoundBlocked => (st1, evs1, LoopHang)
              | RoundDone =>
                  let '(st2, evs2, ex) := replicateLoop e fuel' (S round) st1 in
                  (st2, evs1 ++ evs2, ex)
              end
        end
  end.

(** How [execute] ends: it returns; the process dies under it; it waits for
    ever in [wg.Wait()]; or the model ran out of fuel. *)
Inductive Exit := Returned | Panicked | Hung | OutOfFuel.

(** The statements after the loop ("seal info"). *)
Definition sealInfo (e : Env) (st : loopState) : list Event :=
  let t := lTask st in
  let id := Id (objectInfo t) in
  if isAllSucceed t (succeedIndexMap st) then
    EvUpdateJobState id JOB_STATE_SIGN_OBJECT_DOING ::
    EvSealObjectOnChain (sealMsg st) ::
    match SealObjectOnChain e (sealMsg st) with
    | Some _ => [EvUpdateJobState id JOB_STATE_SIGN_OBJECT_ERROR]
    | None =>
        EvUpdateJobState id JOB_STATE_SEAL_OBJECT_DOING ::
        EvListenObjectSeal (BucketName (objectInfo t)) (ObjectName (objectInfo t)) 10 ::
        match ListenObjectSeal e (BucketName (objectInfo t)) (ObjectName (objectInfo t)) 10 with
        | Some _ => [EvUpdateJobState id JOB_STATE_SEAL_OBJECT_ERROR]
        | None => [EvUpdateJobState id JOB_STATE_SEAL_OBJECT_DONE]
        end
    end
  else [EvUpdateJobState id JOB_STATE_REPLICATE_OBJECT_ERROR].

(** [execute].  The deferred [ReleaseMemory(t.approximateMemSize)] runs when
    the function returns.  It does not run when a goroutine brings the
    process down, nor while [wg.Wait()] waits.  The loop gets one unit of
    fuel per candidate endpoint and one more. *)
Definition execute (e : Env) (t : replicateObjectTask)
  : replicateObjectTask * list Event * Exit :=
  let id := Id (objectInfo t) in
  let n := redundancyNumber t in
  let msg := mkSeal (SpOperatorAddress e) (BucketName (objectInfo t))
                    (ObjectName (objectInfo t)) (repeat EmptyString n) (repeat [] n) in
  let t := set_object t (set_secondary (objectInfo t) (repeat EmptyString n)) in
  let st := mkLoop t ∅ msg (repeat None n) in
  let '(st, evs, ex) := replicateLoop e (S (length (sortedSpEndpoints t))) 0 st in
  let evs := EvUpdateJobState id JOB_STATE_REPLICATE_OBJECT_DOING :: evs in
  let release := [EvReleaseMemory (approximateMemSize (lTask st))] in
  match ex with
  | LoopBreak => (lTask st, evs ++ sealInfo e st ++ release, Returned)
  | LoopReturn => (lTask st, evs ++ release, Returned)
  | LoopPanic => (lTask st, evs, Panicked)
  | LoopHang => (lTask st, evs, Hung)
  | LoopOutOfFuel => (lTask st, evs, OutOfFuel)
  end.

(** *** Reading a trace *)

Definition reservedBytes (evs : list Event) : list Z :=
  omap (λ ev, match ev with EvReserveMemory n true => Some n | _ => None end) evs.

Definition releasedBytes (evs : list Event) : list Z :=
  omap (λ ev, match ev with EvReleaseMemory n => Some n | _ => None end) evs.

Definition jobStates (evs : list Event) : list JobState :=
  omap (λ ev, match ev with EvUpdateJobState _ s => Some s | _ => None end) evs.

Definition isApprovalRequest (ev : Event) : bool :=
  match ev with EvGetApproval _ _ _ => true | _ => false end.

Definition isReserveCall (ev : Event) : bool :=
  match ev with EvReserveMemory _ _ => true | _ => false end.

Definition isSealAttempt (ev : Event) : bool :=
  match ev with EvSealObjectOnChain _ | EvListenObjectSeal _ _ _ => true | _ => false end.

Definition isReplicateCall (ev : Event) : bool :=
  match ev with
  | EvNewGatewayClient _ | EvReplicateObjectPieceStream _ _ _ => true
  | _ => false
  end.

(** The calls made from inside a round of the fan-out: the producer and the
    replicators with their progress writes. *)
Definition isFanOutEvent (ev : Event) : bool :=
  match ev with
  | EvProduce _ | EvNewGatewayClient _ | EvReplicateObjectPieceStream _ _ _
  | EvSetObjectInfo _ _ | EvCacheAdd _ _ => true
  | _ => false
  end.

Definition gatewayClients (evs : list Event) : list string :=
  omap (λ ev, match ev with EvNewGatewayClient endpoint => Some endpoint | _ => None end) evs.

(** The four courses the persisted job state can take in one [execute]. *)
Definition jobStateCourses : list (list JobState) :=
  [ [JOB_STATE_REPLICATE_OBJECT_DOING];
    [JOB_STATE_REPLICATE_OBJECT_DOING; JOB_STATE_SIGN_OBJECT_DOING;
     JOB_STATE_SIGN_OBJECT_ERROR];
    [JOB_STATE_REPLICATE_OBJECT_DOING; JOB_STATE_SIGN_OBJECT_DOING;
     JOB_STATE_SEAL_OBJECT_DOING; JOB_STATE_SEAL_OBJECT_ERROR];
    [JOB_STATE_REPLICATE_OBJECT_DOING; JOB_STATE_SIGN_OBJECT_DOING;
     JOB_STATE_SEAL_OBJECT_DOING; JOB_STATE_SEAL_OBJECT_DONE] ].

(** *** Predicates of the proofs *)

(** An event that is no send on the piece-size channel. *)
Definition noSend (ev : ProducerEvent) : Prop :=
  match ev with
  | PPublishPieceSize _ => False
  | _ => True
  end.

(** An event after which the producer goroutine goes on and that closes
    nothing. *)
Definition goesOn (ev : ProducerEvent) : Prop :=
  match ev with
  | PGetPiece _ | PPublishPieceSize _ | PWrite _ _ => True
  | _ => False
  end.

(** The two loops of [newStreamReaderGroup] only ever add indices below the
    redundancy number. *)
Definition groupAccOk (n : nat) (acc : groupAcc) : Prop :=
  (∀ i, is_Some (acc.1.1 !! i) → (i < n)%nat) ∧
  (acc.1.2 = true → acc.1.1 ≠ ∅).

(** The fields of the task no round writes. *)
Definition sameFrame (t t' : replicateObjectTask) : Prop :=
  approximateMemSize t' = approximateMemSize t ∧
  redundancyNumber t' = redundancyNumber t ∧
  segmentPieceNumber t' = segmentPieceNumber t ∧
  Checksums (objectInfo t') = Checksums (objectInfo t) ∧
  Id (objectInfo t') = Id (objectInfo t) ∧
  storageParams t' = storageParams t.

(** The candidate pool as [init] leaves it and as [pickSp] keeps it: the
    endpoint list has no repetition and every endpoint in it still has its
    approval. *)
Definition poolOk (t : replicateObjectTask) : Prop :=
  NoDup (sortedSpEndpoints t) ∧
  ∀ x, x ∈ sortedSpEndpoints t → is_Some (approvalResponseMap t !! x).

(** Invariant I1, which [init] checks. *)
Definition checksumsOk (t : replicateObjectTask) : Prop :=
  (redundancyNumber t + 1)%nat = length (Checksums (objectInfo t)).

(** An environment in which the goroutines of a round leave each other
    alone: the runtime finds no two map writes under way at once, every
    gateway client is made and every reader takes its pipe to the end, and
    the encoder, when it accepts a segment, delivers a shard for every
    index below the redundancy number of the task. *)
Definition undisturbed (e : Env) (t : replicateObjectTask) : Prop :=
  (∀ round idx, mapWriteRace e round idx = false) ∧
  (∀ round idx, piecesRead e round idx = None) ∧
  (∀ endpoint, NewGatewayClient e endpoint = None) ∧
  (∀ data ecPieceData,
     EncodeRawSegment e data (GetRedundantDataChunkNum (storageParams t))
                      (GetRedundantParityChunkNum (storageParams t)) = inl ecPieceData →
     (redundancyNumber t ≤ length ecPieceData)%nat).

(** Shard [i] is not excluded by the map (a missing key reads as false). *)
Definition included (ex : gmap nat bool) (i : nat) : Prop :=
  default false (ex !! i) = false.

(** Whether the producer gets segment [seg] as far as the writes: the piece
    store delivers it and, for an erasure-coded object, the encoder accepts
    it. *)
Definition segmentProduced (e : Env) (round : nat) (t : replicateObjectTask) (seg : nat)
  : bool :=
  match GetPiece e round (Id (objectInfo t)) seg with
  | inr _ => false
  | inl segmentPieceData =>
      match ObjRedundancyType (objectInfo t) with
      | REDUNDANCY_EC_TYPE =>
          match EncodeRawSegment e segmentPieceData
                  (GetRedundantDataChunkNum (storageParams t))
                  (GetRedundantParityChunkNum (storageParams t)) with
          | inr _ => false
          | inl _ => true
          end
      | REDUNDANCY_REPLICA_TYPE => true
      end
  end.

(** The number of segments at the head of [segs] that are produced. *)
Fixpoint leadingProduced (e : Env) (round : nat) (t : replicateObjectTask)
         (segs : list nat) : nat :=
  match segs with
  | [] => O
  | seg :: segs' =>
      if segmentProduced e round t seg then S (leadingProduced e round t segs') else O
  end.

(** The candidate pool of [t'] is what is left of the pool of [t]: the
    endpoint list is a suffix and the two maps have lost entries only. *)
Definition poolShrinks (t t' : replicateObjectTask) : Prop :=
  sortedSpEndpoints t' `suffix_of` sortedSpEndpoints t ∧
  approvalResponseMap t' ⊆ approvalResponseMap t ∧
  spMap t' ⊆ spMap t.

(** [sp] is what [pickSp] can hand out of the pool of [t]: the provider the
    pool holds for one of the endpoints of its list, or nil for an endpoint
    of the list that has no provider. *)
Definition candidate (t : replicateObjectTask) (sp : option StorageProvider) : Prop :=
  ∃ endpoint, endpoint ∈ sortedSpEndpoints t ∧ (sp = None ∨ sp = spMap t !! endpoint).

(** Slot [i] of a seal message was filled for the provider [sp]: the address
    slot holds the operator address of [sp], and the signature slot holds a
    signature that [VerifySignature] accepts, for the address parsed from
    the approval address of [sp], over the digest of the sign document made
    of the operator of [sp], the object id and the expected checksum of
    shard [i]. *)
Definition verifiedSlot (e : Env) (t : replicateObjectTask) (msg : MsgSealObject) (i : nat)
           (sp : option StorageProvider) : Prop :=
  SealSecondarySpAddresses msg !! i = Some (AccAddressString e (GetOperator sp)) ∧
  ∃ expected approvalAddr signature,
    Checksums (objectInfo t) !! (i + 1)%nat = Some expected ∧
    AccAddressFromHexUnsafe e (GetApprovalAddress sp) = inl approvalAddr ∧
    SealSecondarySpSignatures msg !! i = Some signature ∧
    VerifySignature e approvalAddr
      (Keccak256 e (SecondarySpSignBytes e (GetOperator sp) (Id (objectInfo t)) expected))
      signature = None.

(** What the loop keeps true of the seal message it fills in: its header is
    the one [execute] gave it, both lists have one slot per shard, and the
    slots of every shard marked as succeeded were filled for a provider of
    the pool. *)
Definition sealMsgOk (e : Env) (t : replicateObjectTask) (st : loopState) : Prop :=
  length (SealSecondarySpAddresses (sealMsg st)) = redundancyNumber t ∧
  length (SealSecondarySpSignatures (sealMsg st)) = redundancyNumber t ∧
  SealOperator (sealMsg st) = SpOperatorAddress e ∧
  SealBucketName (sealMsg st) = BucketName (objectInfo t) ∧
  SealObjectName (sealMsg st) = ObjectName (objectInfo t) ∧
  ∀ i, succeedIndexMap st !! i = Some true →
       ∃ sp, candidate t sp ∧ verifiedSlot e t (sealMsg st) i sp.

End TaskNode.

(* ===================================================================== *)
(** ** Concrete scenarios                                                 *)
(* ===================================================================== *)

Module Scenarios.
Import TaskNode.

Definition hashOf (i : nat) : bytes :=
  [default Byte.x00 (Byte.of_nat i)].

Definition endpointOf (i : nat) : string :=
  String (Ascii.ascii_of_nat (97 + i)) EmptyString.

Definition spOf (i : nat) : StorageProvider :=
  mkSP (endpointOf i) (hashOf (100 + i)) (endpointOf i).

(** A candidate pool of [n] storage providers, keyed by endpoint. *)
Definition spPool (n : nat) : gmap string StorageProvider :=
  list_to_map (map (λ i, (endpointOf i, spOf i)) (seq 0 n)).

Definition approvalPool (n : nat) : gmap string GetApprovalResponse :=
  list_to_map (map (λ i, (endpointOf i, endpointOf i)) (seq 0 n)).

(** An erasure-coded object of [size] bytes with [checksums] checksums. *)
Definition object (size : Z) (checksums : nat) : ObjectInfo :=
  mkObjectInfo 7 "bucket" "object" size REDUNDANCY_EC_TYPE
               (map hashOf (seq 0 checksums)) [].

(** A toy encoder: every shard is the first [len/K] bytes of the segment. *)
Definition toyEncode (data : bytes) (k m : Z) : list bytes + Error :=
  inl (repeat (take (length data / Z.to_nat k) data) (Z.to_nat (k + m))).

(** The environment of the end-to-end scenarios: EC 4+2, 1 MiB segments, a
    pool of [pool] providers, secondaries that answer the expected hash
    except the endpoint and shard named by [badShard], a piece store that
    fails when [storeFails]; no gateway client for the endpoint
    [unreachable]; a signer and a chain that fail when told to; map writes
    the runtime finds racing when [racing]. *)
Definition faultyEnv (pool : nat) (badShard : option (string * nat)) (storeFails : bool)
           (unreachable : option string) (signerFails chainFails racing : bool) : Env :=
  {| SpOperatorAddress := "primary";
     GetStorageParams := (Some (mkParams 1048576 4 2), None);
     getApproval := λ _ _ _ _, (spPool pool, approvalPool pool, None);
     ReserveMemory := λ _, None;
     intOutOfRange := λ _, - 2 ^ 63;
     GetPiece := λ _ _ _,
       if storeFails then inr (ErrExternal "piece store") else inl (repeat Byte.x00 256);
     EncodeRawSegment := toyEncode;
     NewGatewayClient := λ endpoint,
       if bool_decide (unreachable = Some endpoint) then Some (ErrExternal "gateway")
       else None;
     ReplicateObjectPieceStream := λ endpoint _ _ idx _,
       if bool_decide (badShard = Some (endpoint, Z.to_nat idx))
       then inl ([], [Byte.x01])
       else inl (hashOf (Z.to_nat idx + 1), [Byte.x01]);
     SecondarySpSignBytes := λ operator _ hash, operator ++ hash;
     AccAddressFromHexUnsafe := λ _, inl [];
     Keccak256 := λ b, b;
     VerifySignature := λ _ _ _, None;
     AccAddressString := λ _, "sp";
     SealObjectOnChain := λ _, if signerFails then Some (ErrExternal "signer") else None;
     ListenObjectSeal := λ _ _ _, if chainFails then Some (ErrExternal "chain") else None;
     choice := λ _ _, O;
     piecesRead := λ _ _, None;
     mapWriteRace := λ _ _, racing |}.

(** The environment without the faults of the last four arguments: every
    gateway client is made, every reader reads its pipe to the end, signer
    and chain answer, and no two map writes meet. *)
Definition env (pool : nat) (badShard : option (string * nat)) (storeFails : bool) : Env :=
  faultyEnv pool badShard storeFails None false false false.

Definition task (size : Z) (checksums : nat) : replicateObjectTask :=
  newReplicateObjectTask (object size checksums).

(** The task of scenario 1 after its [init], its first stream reader group
    and the state the retry loop starts from when shard 0 is already done. *)
Definition readyTask : replicateObjectTask :=
  (init (env 6 None false) (task 256 7)).1.2.

Definition readyGroup : streamReaderGroup :=
  match newStreamReaderGroup readyTask ∅ with
  | inl sg => sg
  | inr _ => mkGroup 0 ∅
  end.

Definition resumedLoop : loopState :=
  mkLoop readyTask {[ O := true ]}
         (mkSeal "primary" "bucket" "object" (repeat EmptyString 6) (repeat [] 6))
         (repeat None 6).

Definition sealedMsg : MsgSealObject :=
  mkSeal "primary" "bucket" "object" (repeat "sp" 6) (repeat [Byte.x01] 6).

End Scenarios.

(* ===================================================================== *)
(** ** Facts about the task queue                                         *)
(* ===================================================================== *)

Module TaskQueueFacts.
Import TaskQueue.

Section Facts.

Context {Task Limit : Type}.
Variable Key : Task → string.
Variable EstimateLimit : Task → Limit.
Variable NotLess : Limit → Limit → bool.

Implicit Types (t : GfSpTQueueWithLimit Task) (task : Task).

(** [delete] of a task whose key the indexer does not hold changes nothing. *)
Lemma delete_absent t task :
  indexer t !! Key task = None → delete Key t task = t.
Proof. intros H. unfold delete. by rewrite H. Qed.

(** With the incoming key absent, the retire loop never touches the queue;
    it only reports whether the predicate held for one of the cells it
    read. *)
Lemma retireLoop_absent gc task t :
  indexer t !! Key task = None →
  ∀ rem i arr clear,
    take (length (tasks t)) arr = tasks t →
    retireLoop Key gc task rem i arr t clear =
    (t, clear || existsb gc (take rem (drop i arr))).
Proof.
  intros Habs. induction rem as [|rem IH]; intros i arr clear Harr; simpl.
  - by rewrite orb_false_r.
  - destruct (arr !! i) as [backup|] eqn:Hi.
    + rewrite (drop_S _ _ _ Hi). simpl.
      destruct (gc backup); simpl.
      * rewrite (delete_absent _ _ Habs).
        rewrite <- Harr at 1. rewrite take_drop.
        rewrite IH by done. by rewrite !orb_true_r.
      * by apply IH.
    + rewrite drop_ge; [|by apply lookup_ge_None]. by rewrite orb_false_r.
Qed.

(** What [Push] does on a full queue with a retire strategy and a fresh
    key: it removes nothing.  When the predicate holds for some present
    task the new task is appended to all the old ones; otherwise the push
    is refused. *)
Lemma Push_full_retire t task gc :
  indexer t !! Key task = None →
  exceed t = true →
  gcFunc t = Some gc →
  Push Key t task =
  if existsb gc (tasks t) then (add Key t task, None) else (t, Some QueueExceed).
Proof.
  intros Habs Hfull Hgc. unfold Push.
  rewrite bool_decide_eq_false_2; [|rewrite Habs; by intros [? ?]].
  rewrite Hfull, Hgc, (retireLoop_absent _ _ _ Habs) by apply firstn_all. simpl.
  by rewrite drop_0, firstn_all.
Qed.

(** The value [PopByLimit] returns is the one [TopByLimit] returns. *)
Lemma popScan_topScan t limit n (var : option Task) :
  (popScan EstimateLimit NotLess t limit n var).1 = topScan EstimateLimit NotLess t limit n.
Proof.
  revert var. induction n as [|n IH]; intros var; simpl; [done|].
  destruct (tasks t !! n); [|done].
  destruct (eligible _ _ _ _ _); [done|]. apply IH.
Qed.

Lemma PopByLimit_selection t limit :
  (PopByLimit Key EstimateLimit NotLess t limit).2 = TopByLimit EstimateLimit NotLess t limit.
Proof.
  unfold PopByLimit, TopByLimit. case_bool_decide; [done|].
  rewrite <- (popScan_topScan t limit (length (tasks t)) None).
  by destruct (popScan _ _ _ _ _ _).
Qed.

(** When the scan finds nothing, the local variable [task] is left at the
    last element scanned, the head of the slice. *)
Lemma popScan_none t limit n (var : option Task) :
  (n ≤ length (tasks t))%nat →
  topScan EstimateLimit NotLess t limit n = None →
  (popScan EstimateLimit NotLess t limit n var).2 =
  match n with O => var | S _ => tasks t !! O end.
Proof.
  revert var. induction n as [|n IH]; intros var Hn Hnone; simpl in *; [done|].
  destruct (tasks t !! n) as [tk|] eqn:Hl.
  - destruct (eligible _ _ _ _ _); [done|].
    rewrite IH; [|lia|done]. destruct n; [done|reflexivity].
  - apply lookup_ge_None in Hl. lia.
Qed.

(** So a [PopByLimit] that returns nil on a non-empty queue still calls
    [delete] on the oldest task. *)
Lemma PopByLimit_none_deletes_head t limit a l :
  tasks t = a :: l →
  TopByLimit EstimateLimit NotLess t limit = None →
  PopByLimit Key EstimateLimit NotLess t limit = (delete Key t a, None).
Proof.
  intros Ht Hnone. unfold TopByLimit in Hnone. unfold PopByLimit.
  rewrite Ht in *. simpl length in *.
  rewrite bool_decide_eq_false_2 in *; try done.
  pose proof (popScan_topScan t limit (S (length l)) None) as Hsel.
  pose proof (popScan_none t limit (S (length l)) None) as Hvar.
  rewrite Ht in Hvar. specialize (Hvar ltac:(simpl; lia) Hnone).
  destruct (popScan _ _ _ _ _ _) as [ret var]. simpl in *.
  subst. by rewrite Hnone.
Qed.

(** *** The half of I3 that every run keeps: the lengths agree *)

Lemma add_lengths_agree t task :
  indexer t !! Key task = None → lengths_agree t → lengths_agree (add Key t task).
Proof.
  unfold lengths_agree, add. simpl. intros Habs Hlen.
  rewrite length_app, map_size_insert_None by done. simpl. lia.
Qed.

Lemma delete_lengths_agree t task :
  lengths_agree t → lengths_agree (delete Key t task).
Proof.
  unfold lengths_agree, delete. intros Hlen.
  destruct (indexer t !! Key task) as [idx|] eqn:Hk; [|done].
  case_bool_decide; [done|]. simpl.
  rewrite length_app, length_take, length_drop.
  rewrite map_size_delete_Some by eauto. lia.
Qed.

Lemma Push_lengths_agree t task :
  lengths_agree t → lengths_agree (Push Key t task).1.
Proof.
  intros Hlen. unfold Push. case_bool_decide as Hk; [done|].
  assert (indexer t !! Key task = None) as Habs.
  { destruct (indexer t !! Key task) eqn:E; [|done]. exfalso. apply Hk. eauto. }
  destruct (exceed t); [|by apply add_lengths_agree].
  destruct (gcFunc t) as [gc|]; [|done].
  rewrite (retireLoop_absent _ _ _ Habs) by apply firstn_all. simpl.
  destruct (existsb _ _); [by apply add_lengths_agree|done].
Qed.

Lemma PopByKey_lengths_agree t key :
  lengths_agree t → lengths_agree (PopByKey Key t key).1.
Proof.
  intros Hlen. unfold PopByKey.
  destruct (indexer t !! key); [|done].
  destruct (tasks t !! n); [|done]. by apply delete_lengths_agree.
Qed.

Lemma PopByLimit_lengths_agree t limit :
  lengths_agree t → lengths_agree (PopByLimit Key EstimateLimit NotLess t limit).1.
Proof.
  intros Hlen. unfold PopByLimit.
  destruct (if bool_decide _ then _ else _) as [ret [tk|]]; [|done].
  by apply delete_lengths_agree.
Qed.

Lemma run_lengths_agree ops t :
  lengths_agree t → lengths_agree (run Key EstimateLimit NotLess ops t).
Proof.
  revert t. induction ops as [|op ops IH]; intros t Hlen; [done|].
  simpl. apply IH. destruct op; simpl.
  - by apply Push_lengths_agree.
  - by apply PopByKey_lengths_agree.
  - by apply PopByLimit_lengths_agree.
Qed.

End Facts.

(** *** The scenarios, evaluated *)

(** C1.  Scenario 5 as the code runs it: capacity 2, the queue holds A and B,
    the retire predicate is true for A alone and C is pushed.  The push
    succeeds, yet A is not removed: the loop calls [delete] on the incoming
    task C, whose key is not indexed, and the queue ends with the three
    tasks A, B, C, one more than its capacity. *)
Theorem Push_overflow_retire_removes_nothing :
  tasks fullAB = [taskA; taskB] ∧
  exceed fullAB = true ∧
  Has fullAB "C" = false ∧
  map retireA (tasks fullAB) = [true; false] ∧
  (Push tkey fullAB taskC).2 = None ∧
  tasks (Push tkey fullAB taskC).1 = [taskA; taskB; taskC] ∧
  (Cap fullAB < Z.of_nat (Len (Push tkey fullAB taskC).1))%Z.
Proof. vm_compute. repeat split; congruence. Qed.

(** C2.  Push A, push B, pop A by key, from the empty queue: the slice is
    [B] while the indexer still maps "B" to 1, so I3 is broken (the lengths
    agree, the index does not point at the task), and a following
    [PopByKey "B"] takes the out-of-bounds branch and returns nil. *)
Theorem I3_broken_after_PopByKey :
  tasks afterPopA = [taskB] ∧
  indexer afterPopA !! "B" = Some 1%nat ∧
  lengths_agree afterPopA ∧
  ¬ I3 tkey afterPopA ∧
  PopByKey tkey afterPopA "B" = (afterPopA, None).
Proof.
  assert (indexer afterPopA !! "B" = Some 1%nat) as HB by (vm_compute; reflexivity).
  split_and!; try (vm_compute; reflexivity); try done.
  intros [_ Hsound]. destruct (Hsound "B" 1%nat HB) as (task & Hl & _).
  vm_compute in Hl. discriminate.
Qed.

(** C3.  A queue holding the single task A of cost 1, asked for a task
    within limit 0: [TopByLimit] and [PopByLimit] both answer nil, but
    [PopByLimit] removes A all the same, because its deferred function tests
    the loop variable and not the returned value. *)
Theorem PopByLimit_none_still_removes :
  tasks onlyA = [taskA] ∧
  I3 tkey onlyA ∧
  TopByLimit tcost simpleNotLess onlyA 0 = None ∧
  (PopByLimit tkey tcost simpleNotLess onlyA 0).2 = None ∧
  tasks (PopByLimit tkey tcost simpleNotLess onlyA 0).1 = [] ∧
  Has (PopByLimit tkey tcost simpleNotLess onlyA 0).1 "A" = false.
Proof.
  split_and!; try (vm_compute; reflexivity).
  split; [vm_compute; reflexivity|].
  intros k i Hk.
  destruct (decide (k = "A")) as [->|Hne].
  - vm_compute in Hk. injection Hk as <-. exists taskA. by vm_compute.
  - exfalso.
    assert (indexer onlyA = <["A" := 0%nat]> ∅) as Hix by (vm_compute; reflexivity).
    rewrite Hix, lookup_insert_ne, lookup_empty in Hk by done. discriminate.
Qed.

(** Scenario 6: A and B queued, both within the limit, a filter that passes
    only the older task A.  [PopByLimit] scans B first, returns A, and the
    queue is one task shorter. *)
Example PopByLimit_filter_scenario :
  let q := SetFilterTaskStrategy
             (run tkey tcost simpleNotLess [OpPush taskA; OpPush taskB] (emptyQ 2)) retireA in
  (PopByLimit tkey tcost simpleNotLess q 1).2 = Some taskA ∧
  tasks (PopByLimit tkey tcost simpleNotLess q 1).1 = [taskB] ∧
  Len (PopByLimit tkey tcost simpleNotLess q 1).1 = (Len q - 1)%nat.
Proof. vm_compute. by repeat split. Qed.

End TaskQueueFacts.

(* ===================================================================== *)
(** ** Facts about the replicate-object task                              *)
(* ===================================================================== *)

Module TaskNodeFacts.
Import TaskNode.

(** *** init *)

(** C5.  When the storage parameters are read and the checksum list is not
    one longer than the redundancy number, [init] fails with
    [ErrInvalidParams] having made a single call, the read of the storage
    parameters: no approval was requested and no memory reservation asked
    for. *)
Theorem init_checksum_mismatch (e : Env) (t : replicateObjectTask) (p : option Params) :
  GetStorageParams e = (p, None) →
  (paramsRedundancyNumber p + 1)%nat ≠ length (Checksums (objectInfo t)) →
  ∃ t' evs,
    init e t = (Some ErrInvalidParams, t', evs) ∧
    evs = [EvGetStorageParams] ∧
    Forall (λ ev, isApprovalRequest ev = false ∧ isReserveCall ev = false) evs ∧
    reservedBytes evs = [].
Proof.
  intros Hp Hne. unfold init. rewrite Hp. simpl.
  rewrite bool_decide_eq_true_2 by done.
  eexists _, _. split_and!; [reflexivity|reflexivity| |reflexivity].
  repeat constructor.
Qed.

Lemma init_checksum_mismatch_witness :
  GetStorageParams (Scenarios.env 6 None false) = (Some (mkParams 1048576 4 2), None) ∧
  (paramsRedundancyNumber (Some (mkParams 1048576 4 2)) + 1)%nat ≠
    length (Checksums (objectInfo (Scenarios.task 256 6))) ∧
  ∃ t' evs,
    init (Scenarios.env 6 None false) (Scenarios.task 256 6) =
      (Some ErrInvalidParams, t', evs) ∧
    evs = [EvGetStorageParams] ∧
    Forall (λ ev, isApprovalRequest ev = false ∧ isReserveCall ev = false) evs ∧
    reservedBytes evs = [].
Proof.
  split; [reflexivity|]. split; [vm_compute; lia|].
  apply (init_checksum_mismatch (Scenarios.env 6 None false) (Scenarios.task 256 6)
           (Some (mkParams 1048576 4 2))); [reflexivity|vm_compute; lia].
Defined.

(** The shape of a successful [init]. *)
Lemma init_success (e : Env) (t t' : replicateObjectTask) (evs : list Event) :
  init e t = (None, t', evs) →
  ∃ p sps aps,
    GetStorageParams e = (p, None) ∧
    (paramsRedundancyNumber p + 1)%nat = length (Checksums (objectInfo t)) ∧
    getApproval e (objectInfo t) (paramsRedundancyNumber p)
                (paramsRedundancyNumber p * ReplicateFactor) GetApprovalTimeout
      = (sps, aps, None) ∧
    t' = mkReplicateTask (objectInfo t)
           (memSize e (Z.min (PayloadSize (objectInfo t)) (GetMaxSegmentSize p))
                    (paramsRedundancyNumber p) (GetRedundantDataChunkNum p))
           p
           (Z.to_nat (ComputeSegmentCount (PayloadSize (objectInfo t)) (GetMaxSegmentSize p)))
           (paramsRedundancyNumber p) sps aps (SortKeys aps) ∧
    ReserveMemory e (approximateMemSize t') = None ∧
    evs = [EvGetStorageParams;
           EvGetApproval (paramsRedundancyNumber p)
                         (paramsRedundancyNumber p * ReplicateFactor) GetApprovalTimeout;
           EvReserveMemory (approximateMemSize t') true].
Proof.
  unfold init. destruct (GetStorageParams e) as [p [err|]] eqn:Hp; [done|]. simpl.
  case_bool_decide as Hlen; [done|].
  destruct (getApproval _ _ _ _ _) as [[sps aps] [err|]] eqn:Hap; [done|]. simpl.
  intros Hinit. exists p, sps, aps.
  assert ((paramsRedundancyNumber p + 1)%nat = length (Checksums (objectInfo t))) as Hlen'.
  { destruct (decide ((paramsRedundancyNumber p + 1)%nat = length (Checksums (objectInfo t))));
      [done|contradiction]. }
  case_bool_decide as Hsmall; simpl in Hinit.
  - destruct (ReserveMemory e _) eqn:Hres; [done|].
    injection Hinit as <- <-. simpl. rewrite Z.min_l by lia.
    split_and!; try done.
  - destruct (ReserveMemory e _) eqn:Hres; [done|].
    injection Hinit as <- <-. simpl. rewrite Z.min_r by lia.
    split_and!; try done.
Qed.

(** C6, as the code has it.  A successful [init] makes one reservation, of
    [approximateMemSize] bytes, and that size is the float64 product
    [float64(min(payload, maxSegment)) * (float64(K+M)/float64(K) + 1)]
    truncated to an [int]: payload size decides it whenever the payload is
    smaller than a segment, and for a 256-byte payload, 1 MiB segments and
    4+2 chunks it is 640. *)
Theorem init_reserves_truncated_product
        (e : Env) (t t' : replicateObjectTask) (evs : list Event) :
  init e t = (None, t', evs) →
  let p := storageParams t' in
  let payload := PayloadSize (objectInfo t) in
  reservedBytes evs = [approximateMemSize t'] ∧
  approximateMemSize t' =
    memSize e (Z.min payload (GetMaxSegmentSize p))
            (paramsRedundancyNumber p) (GetRedundantDataChunkNum p) ∧
  (payload < GetMaxSegmentSize p →
   approximateMemSize t' =
     memSize e payload (paramsRedundancyNumber p) (GetRedundantDataChunkNum p)) ∧
  (payload = 256 → GetMaxSegmentSize p = 1048576 →
   GetRedundantDataChunkNum p = 4 → GetRedundantParityChunkNum p = 2 →
   approximateMemSize t' = 640).
Proof.
  intros Hinit. apply init_success in Hinit as (p & sps & aps & _ & _ & _ & -> & _ & ->).
  simpl. split_and!; [done|done| |].
  - intros Hlt. by rewrite Z.min_l by lia.
  - intros -> Hseg Hk Hm. unfold paramsRedundancyNumber.
    rewrite Hseg, Hk, Hm. vm_compute. reflexivity.
Qed.

Lemma init_reserves_truncated_product_witness :
  let e := Scenarios.env 6 None false in
  let t := Scenarios.task 256 7 in
  let t' := (init e t).1.2 in
  let evs := (init e t).2 in
  init e t = (None, t', evs) ∧
  reservedBytes evs = [approximateMemSize t'] ∧
  approximateMemSize t' =
    memSize e (Z.min (PayloadSize (objectInfo t)) (GetMaxSegmentSize (storageParams t')))
            (paramsRedundancyNumber (storageParams t'))
            (GetRedundantDataChunkNum (storageParams t')) ∧
  (PayloadSize (objectInfo t) < GetMaxSegmentSize (storageParams t') →
   approximateMemSize t' =
     memSize e (PayloadSize (objectInfo t)) (paramsRedundancyNumber (storageParams t'))
             (GetRedundantDataChunkNum (storageParams t'))) ∧
  (PayloadSize (objectInfo t) = 256 → GetMaxSegmentSize (storageParams t') = 1048576 →
   GetRedundantDataChunkNum (storageParams t') = 4 →
   GetRedundantParityChunkNum (storageParams t') = 2 →
   approximateMemSize t' = 640).
Proof.
  intros e t t' evs. split; [vm_compute; reflexivity|].
  apply (init_reserves_truncated_product e t t' evs). vm_compute; reflexivity.
Defined.

(** C6, as the spec words it, fails: a 1-byte payload with 4+2 chunks
    reserves 2 bytes, while [1 * (6/4 + 1)] is 5/2. *)
Lemma reservation_is_not_the_exact_rational :
  ∃ t' evs,
    init (Scenarios.env 6 None false) (Scenarios.task 1 7) = (None, t', evs) ∧
    reservedBytes evs = [2] ∧
    ¬ (inject_Z 2 == specMemSize 1 1048576 4 2)%Q.
Proof.
  eexists _, _. split; [vm_compute; reflexivity|]. split; [reflexivity|].
  vm_compute. discriminate.
Qed.

(** *** The replicator *)

(** C8.  For the replicator built for shard [rIdx], once the gateway client
    exists and the secondary has answered [(integrityHash, signature)]: the
    replicator succeeds exactly when the hash is the checksum at index
    [rIdx + 1] and [VerifySignature] accepts the signature, for the address
    parsed from the provider's approval address, over the Keccak-256 digest
    of the sign bytes of the document (operator, object id, hash); a
    different hash gives [ErrMismatchIntegrityHash]; success returns the pair
    the secondary sent. *)
Theorem replicate_accepts_iff_hash_and_signature
        (e : Env) (t : replicateObjectTask) (sg : streamReaderGroup) (rIdx : nat)
        (sp : option StorageProvider) (approval : option GetApprovalResponse)
        (r : streamPieceDataReplicator) (integrityHash signature : bytes) :
  newReplicator t sg rIdx sp approval = Some r →
  NewGatewayClient e (GetEndpoint sp) = None →
  ReplicateObjectPieceStream e (GetEndpoint sp) (Id (objectInfo t)) (rPieceSize r)
                             (redundancyIndex r) approval = inl (integrityHash, signature) →
  let digest :=
    Keccak256 e (SecondarySpSignBytes e (GetOperator sp) (Id (objectInfo t)) integrityHash) in
  let accepted :=
    Checksums (objectInfo t) !! (rIdx + 1)%nat = Some integrityHash ∧
    ∃ approvalAddr,
      AccAddressFromHexUnsafe e (GetApprovalAddress sp) = inl approvalAddr ∧
      VerifySignature e approvalAddr digest signature = None in
  ((∃ res, (replicate e t r).1 = inl res) ↔ accepted) ∧
  (accepted → (replicate e t r).1 = inl (integrityHash, signature)) ∧
  (Checksums (objectInfo t) !! (rIdx + 1)%nat ≠ Some integrityHash →
   (replicate e t r).1 = inr ErrMismatchIntegrityHash).
Proof.
  intros Hnew Hgw Hstream digest accepted. subst digest accepted.
  unfold newReplicator in Hnew.
  destruct (Checksums (objectInfo t) !! (rIdx + 1)%nat) as [expected|] eqn:Hsum; [|done].
  injection Hnew as <-. simpl in Hstream.
  unfold replicate. simpl. rewrite Hgw, Hstream. unfold bytesEqual.
  case_bool_decide as Heq; simpl.
  - subst expected.
    destruct (AccAddressFromHexUnsafe e (GetApprovalAddress sp)) as [addr|err] eqn:Haddr.
    + destruct (VerifySignature e addr _ signature) as [err|] eqn:Hsig; simpl.
      * split_and!.
        -- split; [intros [res Hres]; done|].
           intros (_ & addr' & Ha & Hv). injection Ha as <-. congruence.
        -- intros (_ & addr' & Ha & Hv). injection Ha as <-. congruence.
        -- intros Hne. done.
      * split_and!; [split; eauto| done | done].
    + simpl. split_and!.
      * split; [intros [res Hres]; done|]. intros (_ & addr' & Ha & _). done.
      * intros (_ & addr' & Ha & _). done.
      * done.
  - split_and!.
    + split; [intros [res Hres]; done|]. intros (Hx & _). congruence.
    + intros (Hx & _). congruence.
    + done.
Qed.

Lemma replicate_accepts_iff_hash_and_signature_witness :
  let e := Scenarios.env 6 None false in
  let t := (init e (Scenarios.task 256 7)).1.2 in
  let sg := mkGroup 64 ∅ in
  let sp := Some (Scenarios.spOf 0) in
  let approval := Some (Scenarios.endpointOf 0) in
  let r := mkReplicator 64 0 (Scenarios.hashOf 1) None sp approval in
  let integrityHash := Scenarios.hashOf 1 in
  let signature := [Byte.x01] in
  newReplicator t sg 0 sp approval = Some r ∧
  NewGatewayClient e (GetEndpoint sp) = None ∧
  ReplicateObjectPieceStream e (GetEndpoint sp) (Id (objectInfo t)) (rPieceSize r)
                             (redundancyIndex r) approval = inl (integrityHash, signature) ∧
  ((∃ res, (replicate e t r).1 = inl res) ↔
   (Checksums (objectInfo t) !! (0 + 1)%nat = Some integrityHash ∧
    ∃ approvalAddr,
      AccAddressFromHexUnsafe e (GetApprovalAddress sp) = inl approvalAddr ∧
      VerifySignature e approvalAddr
        (Keccak256 e (SecondarySpSignBytes e (GetOperator sp) (Id (objectInfo t))
                                           integrityHash))
        signature = None)) ∧
  ((Checksums (objectInfo t) !! (0 + 1)%nat = Some integrityHash ∧
    ∃ approvalAddr,
      AccAddressFromHexUnsafe e (GetApprovalAddress sp) = inl approvalAddr ∧
      VerifySignature e approvalAddr
        (Keccak256 e (SecondarySpSignBytes e (GetOperator sp) (Id (objectInfo t))
                                           integrityHash))
        signature = None) →
   (replicate e t r).1 = inl (integrityHash, signature)) ∧
  (Checksums (objectInfo t) !! (0 + 1)%nat ≠ Some integrityHash →
   (replicate e t r).1 = inr ErrMismatchIntegrityHash).
Proof.
  intros e t sg sp approval r integrityHash signature.
  split; [vm_compute; reflexivity|].
  split; [vm_compute; reflexivity|].
  split; [vm_compute; reflexivity|].
  apply (replicate_accepts_iff_hash_and_signature e t sg 0 sp approval r
           integrityHash signature); vm_compute; reflexivity.
Defined.

(** *** The stream reader group *)

Lemma published_app (l1 l2 : list ProducerEvent) :
  published (l1 ++ l2) = published l1 ++ published l2.
Proof. apply omap_app. Qed.

(** Without a send the channel yields its zero value. *)
Lemma noSend_silent (l : list ProducerEvent) :
  Forall noSend l → published l = [] ∧ receive l = 0.
Proof.
  induction 1 as [|ev l Hev _ [IH1 IH2]]; [done|].
  unfold published in *. destruct ev; simpl in *; done.
Qed.

Lemma noSend_closes (sg : streamReaderGroup) :
  Forall noSend (map PClose (groupIndices sg) ++ [PCloseChannel]).
Proof.
  apply Forall_app. split; [|by repeat constructor].
  apply Forall_forall. intros ev (i & -> & _)%list_elem_of_fmap. done.
Qed.

Lemma noSend_closes_with_error (sg : streamReaderGroup) (err : Error) :
  Forall noSend (map (λ idx, PCloseWithError idx err) (groupIndices sg) ++ [PCloseChannel]).
Proof.
  apply Forall_app. split; [|by repeat constructor].
  apply Forall_forall. intros ev (i & -> & _)%list_elem_of_fmap. done.
Qed.

Lemma noSend_writePieces (returns : nat → bool) (shard : nat → option bytes)
      (idxs : list nat) (rest : list ProducerEvent) :
  Forall noSend rest → Forall noSend (writePieces returns shard idxs rest).
Proof.
  intros Hrest. induction idxs as [|idx idxs IH]; simpl; [done|].
  destruct (shard idx); [|by repeat constructor].
  destruct (returns idx); by repeat constructor.
Qed.

(** Once [gotPieceSize] is set the producer sends nothing more. *)
Lemma produceLoop_after_publish (e : Env) (round : nat) (t : replicateObjectTask)
      (sg : streamReaderGroup) (segs : list nat) :
  Forall noSend (produceLoop e round t sg segs true).
Proof.
  induction segs as [|seg segs IH]; simpl.
  - apply noSend_closes.
  - constructor; [done|].
    destruct (GetPiece e round _ seg) as [data|err];
      [|apply noSend_closes_with_error].
    destruct (ObjRedundancyType (objectInfo t)).
    + destruct (EncodeRawSegment e data _ _) as [ec|err];
        [|apply noSend_closes_with_error].
      by apply noSend_writePieces.
    + simpl. by apply noSend_writePieces.
Qed.

(** C9, as the code has it.  Over the lifetime of a group the producer sends
    on the piece-size channel at most once: exactly the shard size of the
    first segment when that segment is fetched (and encoded, for an
    erasure-coded object), and nothing when the first segment fails or there
    is no segment, the channel being closed without a value.  The consumer's
    single receive stores the value sent, or 0 from the closed channel, in
    [pieceSize]. *)
Theorem producer_publishes_first_piece_size
        (e : Env) (round : nat) (t : replicateObjectTask) (sg : streamReaderGroup) :
  published (producerTrace e round t sg) = option_list (firstPieceSize e round t) ∧
  (length (published (producerTrace e round t sg)) ≤ 1)%nat ∧
  pieceSize (produceStreamPieceData e round t sg).1 =
    from_option Z.of_nat 0 (firstPieceSize e round t) ∧
  streamReaderMap (produceStreamPieceData e round t sg).1 = streamReaderMap sg.
Proof.
  assert (published (producerTrace e round t sg) = option_list (firstPieceSize e round t) ∧
          receive (producerTrace e round t sg) =
            from_option Z.of_nat 0 (firstPieceSize e round t)) as [Hpub Hrecv].
  { unfold producerTrace, firstPieceSize.
    destruct (segmentPieceNumber t) as [|n]; simpl.
    { apply noSend_silent, noSend_closes. }
    pose proof (produceLoop_after_publish e round t sg (seq 1 n)) as Hrest.
    assert (∀ returns shard,
              published (writePieces returns shard (groupIndices sg)
                                     (produceLoop e round t sg (seq 1 n) true)) = [])
      as Hwrites.
    { intros returns shard. by apply noSend_silent, noSend_writePieces. }
    destruct (GetPiece e round _ O) as [data|err].
    2:{ apply (noSend_silent (PGetPiece O :: _)). constructor; [done|].
        apply noSend_closes_with_error. }
    destruct (ObjRedundancyType (objectInfo t)).
    - destruct (EncodeRawSegment e data _ _) as [ec|err].
      2:{ apply (noSend_silent (PGetPiece O :: _)). constructor; [done|].
          apply noSend_closes_with_error. }
      destruct (ec !! O) as [shard|]; simpl; [|done].
      split; [|done]. unfold published in *. cbn. by rewrite Hwrites.
    - simpl. split; [|done]. unfold published in *. cbn. by rewrite Hwrites. }
  split_and!; [done| |done|done].
  rewrite Hpub. destruct (firstPieceSize e round t); simpl; lia.
Qed.

(** C9, as the spec words it, fails when the piece store cannot deliver the
    first segment: the producer closes the pipes with the error and sends
    nothing, and the consumer reads 0 from the closed channel. *)
Lemma producer_publishes_nothing_on_failure :
  ∃ t evs sg,
    init (Scenarios.env 6 None true) (Scenarios.task 256 7) = (None, t, evs) ∧
    newStreamReaderGroup t ∅ = inl sg ∧
    published (producerTrace (Scenarios.env 6 None true) 0 t sg) = [] ∧
    length (published (producerTrace (Scenarios.env 6 None true) 0 t sg)) ≠ 1%nat ∧
    pieceSize (produceStreamPieceData (Scenarios.env 6 None true) 0 t sg).1 = 0.
Proof.
  eexists _, _, _. split; [vm_compute; reflexivity|].
  split; [vm_compute; reflexivity|].
  split_and!; [vm_compute; reflexivity|vm_compute; lia|vm_compute; reflexivity].
Qed.

(** *** What the producer has done when it ends *)

Lemma closedPipes_app (l1 l2 : list ProducerEvent) :
  closedPipes (l1 ++ l2) = closedPipes l1 ++ closedPipes l2.
Proof. apply omap_app. Qed.

Lemma cleanlyClosedPipes_app (l1 l2 : list ProducerEvent) :
  cleanlyClosedPipes (l1 ++ l2) = cleanlyClosedPipes l1 ++ cleanlyClosedPipes l2.
Proof. apply omap_app. Qed.

Lemma writesTo_app (idx : nat) (l1 l2 : list ProducerEvent) :
  writesTo idx (l1 ++ l2) = writesTo idx l1 ++ writesTo idx l2.
Proof. apply omap_app. Qed.

Lemma closes_read (l : list nat) :
  let trace := map PClose l ++ [PCloseChannel] in
  closedPipes trace = l ∧ cleanlyClosedPipes trace = l ∧
  channelCloses trace = 1%nat ∧ last trace = Some PCloseChannel ∧
  producerEnds trace = ProducerReturned ∧
  ∀ idx, writesTo idx trace = [].
Proof.
  cbv zeta. rewrite last_snoc.
  induction l as [|i l (IH1 & IH2 & IH3 & _ & IH5 & IH6)]; [done|].
  split_and!; [cbn; f_equal; exact IH1|cbn; f_equal; exact IH2|exact IH3|done|exact IH5|
               intros idx; apply IH6].
Qed.

Lemma error_closes_read (err : Error) (l : list nat) :
  let trace := map (λ idx, PCloseWithError idx err) l ++ [PCloseChannel] in
  closedPipes trace = l ∧ cleanlyClosedPipes trace = [] ∧
  channelCloses trace = 1%nat ∧ last trace = Some PCloseChannel ∧
  producerEnds trace = ProducerReturned ∧
  ∀ idx, writesTo idx trace = [].
Proof.
  cbv zeta. rewrite last_snoc.
  induction l as [|i l (IH1 & IH2 & IH3 & _ & IH5 & IH6)]; [done|].
  split_and!; [cbn; f_equal; exact IH1|exact IH2|exact IH3|done|exact IH5|
               intros idx; apply IH6].
Qed.

(** The events after which the goroutine goes on take no part in how it
    ends nor in what it closes. *)
Lemma goesOn_prefix (l1 l2 : list ProducerEvent) :
  Forall goesOn l1 →
  producerEnds (l1 ++ l2) = producerEnds l2 ∧
  closedPipes (l1 ++ l2) = closedPipes l2 ∧
  cleanlyClosedPipes (l1 ++ l2) = cleanlyClosedPipes l2 ∧
  channelCloses (l1 ++ l2) = channelCloses l2 ∧
  (l2 ≠ [] → last (l1 ++ l2) = last l2).
Proof.
  induction 1 as [|ev l1 Hev _ (IH1 & IH2 & IH3 & IH4 & IH5)]; [done|].
  split_and!; [by destruct ev|by destruct ev|by destruct ev|by destruct ev|].
  intros Hne. specialize (IH5 Hne). simpl.
  destruct (l1 ++ l2) eqn:Happ; [|done].
  apply app_eq_nil in Happ as [_ ?]. done.
Qed.

Lemma goesOn_writes (f : nat → bytes) (l : list nat) :
  Forall goesOn (map (λ idx, PWrite idx (f idx)) l).
Proof. apply Forall_forall. intros ev (i & -> & _)%list_elem_of_fmap. done. Qed.

(** One write per pipe in a pass over pipes without repetition. *)
Lemma writes_read (f : nat → bytes) (l : list nat) (idx : nat) :
  NoDup l →
  length (writesTo idx (map (λ i, PWrite i (f i)) l)) = (if bool_decide (idx ∈ l) then 1 else 0)%nat.
Proof.
  induction 1 as [|i l Hnotin Hnd IH].
  { by rewrite bool_decide_eq_false_2 by apply not_elem_of_nil. }
  assert (writesTo idx (map (λ i0, PWrite i0 (f i0)) (i :: l)) =
          (if bool_decide (i = idx) then [f i] else []) ++
          writesTo idx (map (λ i0, PWrite i0 (f i0)) l)) as ->.
  { cbn. by destruct (bool_decide (i = idx)). }
  rewrite length_app, IH.
  destruct (decide (i = idx)) as [->|Hne].
  - rewrite (bool_decide_eq_true_2 (idx = idx)) by done.
    rewrite (bool_decide_eq_false_2 (idx ∈ l)) by done.
    rewrite bool_decide_eq_true_2 by (by left). done.
  - rewrite (bool_decide_eq_false_2 (i = idx)) by done. simpl.
    destruct (decide (idx ∈ l)) as [Hin|Hnin].
    + rewrite !bool_decide_eq_true_2; [done|by right|done].
    + rewrite !bool_decide_eq_false_2; [done| |done].
      intros [->|?]%elem_of_cons; done.
Qed.

(** A pass of writes over the pipes either gets through, or stops at a
    write that does not return, or at a shard that is missing. *)
Lemma writePieces_cases (returns : nat → bool) (shard : nat → option bytes)
      (f : nat → bytes) (idxs : list nat) (rest : list ProducerEvent) :
  (∀ idx data, shard idx = Some data → f idx = data) →
  writePieces returns shard idxs rest = map (λ idx, PWrite idx (f idx)) idxs ++ rest ∨
  ∃ before idx after,
    idxs = before ++ idx :: after ∧
    ((returns idx = false ∧
      writePieces returns shard idxs rest =
        map (λ idx, PWrite idx (f idx)) before ++ [PBlocked idx]) ∨
     (shard idx = None ∧
      writePieces returns shard idxs rest =
        map (λ idx, PWrite idx (f idx)) before ++ [PPanic idx; PCloseChannel])).
Proof.
  intros Hf. induction idxs as [|idx idxs IH]; simpl; [by left|].
  destruct (shard idx) as [data|] eqn:Hshard.
  2:{ right. exists [], idx, idxs. split; [done|]. right. done. }
  destruct (returns idx) eqn:Hret.
  2:{ right. exists [], idx, idxs. split; [done|]. left. done. }
  rewrite <- (Hf idx data Hshard).
  destruct IH as [->|(before & j & after & -> & Hcase)].
  - left. done.
  - right. exists (idx :: before), j, after. split; [done|].
    destruct Hcase as [[Hj ->]|[Hj ->]]; [left|right]; by split.
Qed.

Lemma omap_map_none {A B C : Type} (g : B → option C) (h : A → B) (l : list A) :
  (∀ x, g (h x) = None) → omap g (map h l) = [].
Proof.
  intros Hnone. induction l as [|x l IH]; [done|].
  cbn. by rewrite Hnone.
Qed.

Lemma groupIndices_NoDup (sg : streamReaderGroup) : NoDup (groupIndices sg).
Proof. apply NoDup_fst_map_to_list. Qed.

(** What the producer has done when its goroutine ends, for each of the
    three ways it can end. *)
Lemma produceLoop_read (e : Env) (round : nat) (t : replicateObjectTask)
      (sg : streamReaderGroup) (segs : list nat) (gotPieceSize : bool) :
  let trace := produceLoop e round t sg segs gotPieceSize in
  let k := leadingProduced e round t segs in
  (k ≤ length segs)%nat ∧
  (∀ idx, idx ∈ groupIndices sg → (length (writesTo idx trace) ≤ k)%nat) ∧
  match producerEnds trace with
  | ProducerReturned =>
      closedPipes trace = groupIndices sg ∧
      cleanlyClosedPipes trace =
        (if bool_decide (k = length segs) then groupIndices sg else []) ∧
      channelCloses trace = 1%nat ∧ last trace = Some PCloseChannel ∧
      ∀ idx, idx ∈ groupIndices sg → length (writesTo idx trace) = k
  | ProducerBlocked idx =>
      idx ∈ groupIndices sg ∧
      (∃ seg, seg ∈ segs ∧ writeReturns e round t sg seg idx = false) ∧
      closedPipes trace = [] ∧ channelCloses trace = O ∧
      last trace = Some (PBlocked idx)
  | ProducerPanicked idx =>
      closedPipes trace = [] ∧ channelCloses trace = 1%nat ∧
      last trace = Some PCloseChannel
  end.
Proof.
  cbv zeta. revert gotPieceSize.
  induction segs as [|seg segs IH]; intros got; cbn [produceLoop leadingProduced length].
  { destruct (closes_read (groupIndices sg)) as (H1 & H2 & H3 & H4 & H5 & H6).
    rewrite H5, bool_decide_eq_true_2 by done.
    split_and!; try done; intros idx _; by rewrite H6. }
  unfold segmentProduced.
  pose proof (groupIndices_NoDup sg) as Hnd.
  assert (bool_decide (O = S (length segs)) = false) as Hzero
      by (by apply bool_decide_eq_false_2).
  (* the segment is not produced: every pipe is closed with the error *)
  assert (∀ err,
    let trace := PGetPiece seg ::
                 map (λ idx, PCloseWithError idx err) (groupIndices sg) ++ [PCloseChannel] in
    (O ≤ S (length segs))%nat ∧
    (∀ idx, idx ∈ groupIndices sg → (length (writesTo idx trace) ≤ O)%nat) ∧
    match producerEnds trace with
    | ProducerReturned =>
        closedPipes trace = groupIndices sg ∧
        cleanlyClosedPipes trace =
          (if bool_decide (O = S (length segs)) then groupIndices sg else []) ∧
        channelCloses trace = 1%nat ∧ last trace = Some PCloseChannel ∧
        ∀ idx, idx ∈ groupIndices sg → length (writesTo idx trace) = O
    | ProducerBlocked idx =>
        idx ∈ groupIndices sg ∧
        (∃ seg0, seg0 ∈ seg :: segs ∧ writeReturns e round t sg seg0 idx = false) ∧
        closedPipes trace = [] ∧ channelCloses trace = O ∧
        last trace = Some (PBlocked idx)
    | ProducerPanicked idx =>
        closedPipes trace = [] ∧ channelCloses trace = 1%nat ∧
        last trace = Some PCloseChannel
    end) as Hfail.
  { intros err trace. subst trace.
    destruct (error_closes_read err (groupIndices sg)) as (H1 & H2 & H3 & H4 & H5 & H6).
    destruct (goesOn_prefix [PGetPiece seg]
                (map (λ idx, PCloseWithError idx err) (groupIndices sg) ++ [PCloseChannel]))
      as (G1 & G2 & G3 & G4 & G5); [by repeat constructor|].
    simpl app in *. rewrite G1, H5, G2, G3, G4, G5, H1, H2, H3, H4, Hzero
      by (by destruct (groupIndices sg)).
    split_and!; try done; try lia.
    - intros idx _. change (writesTo idx (PGetPiece seg :: ?l)) with (writesTo idx l).
      by rewrite H6.
    - intros idx _. change (writesTo idx (PGetPiece seg :: ?l)) with (writesTo idx l).
      by rewrite H6. }
  (* the segment is produced: a pass of writes, after the send if it is due *)
  assert (∀ (shard : nat → option bytes) (pub : list ProducerEvent),
    Forall (λ ev, match ev with PPublishPieceSize _ => True | _ => False end) pub →
    let trace := PGetPiece seg :: pub ++
                   writePieces (writeReturns e round t sg seg) shard (groupIndices sg)
                               (produceLoop e round t sg segs true) in
    let k := S (leadingProduced e round t segs) in
    (k ≤ S (length segs))%nat ∧
    (∀ idx, idx ∈ groupIndices sg → (length (writesTo idx trace) ≤ k)%nat) ∧
    match producerEnds trace with
    | ProducerReturned =>
        closedPipes trace = groupIndices sg ∧
        cleanlyClosedPipes trace =
          (if bool_decide (k = S (length segs)) then groupIndices sg else []) ∧
        channelCloses trace = 1%nat ∧ last trace = Some PCloseChannel ∧
        ∀ idx, idx ∈ groupIndices sg → length (writesTo idx trace) = k
    | ProducerBlocked idx =>
        idx ∈ groupIndices sg ∧
        (∃ seg0, seg0 ∈ seg :: segs ∧ writeReturns e round t sg seg0 idx = false) ∧
        closedPipes trace = [] ∧ channelCloses trace = O ∧
        last trace = Some (PBlocked idx)
    | ProducerPanicked idx =>
        closedPipes trace = [] ∧ channelCloses trace = 1%nat ∧
        last trace = Some PCloseChannel
    end) as Hok.
  { intros shard pub Hpub trace k. subst trace k.
    destruct (IH true) as (I1 & I2 & I3).
    pose (f := λ idx, default [] (shard idx)).
    assert (∀ idx data, shard idx = Some data → f idx = data) as Hf.
    { intros idx data Hs. unfold f. by rewrite Hs. }
    clearbody f.
    assert (Forall goesOn (PGetPiece seg :: pub) ∧ ∀ idx, writesTo idx pub = [])
      as [Hgo Hpubw].
    { clear -Hpub. split.
      - constructor; [done|]. eapply Forall_impl; [exact Hpub|]. by intros [].
      - intros idx. induction Hpub as [|ev pub Hev _ IHp]; [done|]. by destruct ev. }
    assert (∀ l, Forall goesOn ((PGetPiece seg :: pub) ++ map (λ idx, PWrite idx (f idx)) l))
      as Hgo'.
    { intros l. apply Forall_app. split; [done|apply goesOn_writes]. }
    assert (∀ idx l tail,
              writesTo idx (PGetPiece seg :: pub ++ map (λ i, PWrite i (f i)) l ++ tail) =
              writesTo idx (map (λ i, PWrite i (f i)) l) ++ writesTo idx tail) as Hw.
    { intros idx l tail.
      change (writesTo idx (PGetPiece seg :: ?l0)) with (writesTo idx l0).
      by rewrite !writesTo_app, Hpubw. }
    destruct (writePieces_cases (writeReturns e round t sg seg) shard f (groupIndices sg)
                (produceLoop e round t sg segs true) Hf)
      as [->|(before & j & after & Hsplit & Hcase)].
    - (* every write returns *)
      set (rest := produceLoop e round t sg segs true) in *.
      assert (rest ≠ []) as Hrest.
      { subst rest. destruct segs; simpl; [|done].
        intros Hnil%app_eq_nil. by destruct Hnil. }
      destruct (goesOn_prefix _ rest (Hgo' (groupIndices sg)))
        as (G1 & G2 & G3 & G4 & G5).
      rewrite <- !app_assoc in G1, G2, G3, G4, G5. simpl app in *.
      rewrite G1, G2, G3, G4, (G5 Hrest).
      split_and!; [lia| |].
      + intros idx Hin. rewrite Hw, length_app, (writes_read f _ idx Hnd).
        rewrite bool_decide_eq_true_2 by done. specialize (I2 idx Hin). lia.
      + destruct (producerEnds rest).
        * destruct I3 as (C1 & C2 & C3 & C4 & C5). split_and!; try done.
          -- rewrite C2. repeat case_bool_decide; try done; lia.
          -- intros idx Hin. rewrite Hw, length_app, (writes_read f _ idx Hnd).
             rewrite bool_decide_eq_true_2 by done. by rewrite (C5 idx Hin).
        * destruct I3 as (C1 & (seg0 & Hseg0 & Hret) & C3 & C4 & C5).
          split_and!; try done. exists seg0. split; [by right|done].
        * done.
    - (* the pass stops on the way *)
      assert (NoDup before) as Hndb.
      { rewrite Hsplit in Hnd. by apply NoDup_app in Hnd as (? & _ & _). }
      assert (j ∈ groupIndices sg) as Hj.
      { rewrite Hsplit. apply elem_of_app. right. by left. }
      assert (∀ idx tail, (∀ idx, writesTo idx tail = []) →
                (length (writesTo idx (PGetPiece seg :: pub ++
                           map (λ i, PWrite i (f i)) before ++ tail)) ≤
                 S (leadingProduced e round t segs))%nat) as Hfew.
      { intros idx tail Htail. rewrite Hw, length_app, Htail, (writes_read f _ idx Hndb).
        simpl. destruct (bool_decide (idx ∈ before)); lia. }
      destruct Hcase as [[Hret ->]|[Hnone ->]].
      + destruct (goesOn_prefix _ [PBlocked j] (Hgo' before)) as (G1 & G2 & G3 & G4 & G5).
        rewrite <- !app_assoc in G1, G2, G3, G4, G5. simpl app in *.
        rewrite G1, G2, G4, G5 by done.
        split_and!; [lia|intros idx _; by apply Hfew|]. simpl.
        split_and!; try done. exists seg. split; [by left|done].
      + destruct (goesOn_prefix _ [PPanic j; PCloseChannel] (Hgo' before))
          as (G1 & G2 & G3 & G4 & G5).
        rewrite <- !app_assoc in G1, G2, G3, G4, G5. simpl app in *.
        rewrite G1, G2, G4, G5 by done.
        split_and!; [lia|intros idx _; by apply Hfew|]. simpl. done. }
  destruct (GetPiece e round (Id (objectInfo t)) seg) as [data|err]; [|by apply Hfail].
  destruct (ObjRedundancyType (objectInfo t)).
  - destruct (EncodeRawSegment e data _ _) as [ec|err]; [|by apply Hfail].
    destruct got.
    + apply (Hok (λ idx, ec !! idx) []). constructor.
    + destruct (ec !! O) as [shard0|].
      * apply (Hok (λ idx, ec !! idx) [PPublishPieceSize (length shard0)]).
        by repeat constructor.
      * destruct (IH true) as (I1 & _). simpl.
        split_and!; [lia|intros idx _; simpl; lia|done..].
  - apply (Hok (λ _, Some data)). destruct got; by repeat constructor.
Qed.

Lemma groupInner_ok (n : nat) (ex : gmap nat bool) (l : list nat) (acc : groupAcc) :
  Forall (λ i, (i < n)%nat) l → groupAccOk n acc →
  groupAccOk n (foldl (groupInner ex) acc l).
Proof.
  intros Hl. revert acc. induction Hl as [|idx l Hidx _ IH]; intros acc Hacc; [done|].
  simpl. apply IH. destruct acc as [[m b] made]. unfold groupInner.
  destruct (default false (ex !! idx)); [done|].
  destruct Hacc as [Hdom Hne]. split; simpl in *.
  - intros i. destruct (decide (idx = i)) as [->|Hneq]; [done|].
    rewrite lookup_insert_ne by done. apply Hdom.
  - intros _. apply insert_non_empty.
Qed.

Lemma groupOuter_ok (t : replicateObjectTask) (ex : gmap nat bool) (segs : list nat)
      (acc : groupAcc) :
  groupAccOk (redundancyNumber t) acc →
  groupAccOk (redundancyNumber t) (foldl (groupOuter t ex) acc segs).
Proof.
  revert acc. induction segs as [|seg segs IH]; intros acc Hacc; [done|].
  simpl. apply IH. unfold groupOuter. apply groupInner_ok; [|done].
  apply Forall_forall. intros i Hi%elem_of_seq. lia.
Qed.

Lemma newStreamReaderGroup_ok (t : replicateObjectTask) (ex : gmap nat bool)
      (sg : streamReaderGroup) :
  newStreamReaderGroup t ex = inl sg →
  Forall (λ i, (i < redundancyNumber t)%nat) (groupIndices sg) ∧
  (0 < size (streamReaderMap sg))%nat ∧
  length (groupIndices sg) = size (streamReaderMap sg).
Proof.
  unfold newStreamReaderGroup.
  pose proof (groupOuter_ok t ex (seq 0 (segmentPieceNumber t)) (∅, false, O)) as Hok.
  destruct (foldl _ _ _) as [[m b] made]. destruct b; [|done].
  intros [= <-]. destruct Hok as [Hdom Hne].
  { split; simpl; [|done]. intros i [x Hx]. by rewrite lookup_empty in Hx. }
  simpl in *. split_and!.
  - apply Forall_forall. intros i Hi. apply Hdom.
    unfold groupIndices in Hi. simpl in Hi.
    apply list_elem_of_fmap in Hi as ([k v] & -> & Hkv).
    apply elem_of_map_to_list in Hkv. eauto.
  - specialize (Hne eq_refl). apply map_size_non_empty_iff in Hne. lia.
  - unfold groupIndices. simpl. rewrite length_fmap. by rewrite length_map_to_list.
Qed.

(** *** The retry loop: what it leaves alone *)

Lemma sameFrame_refl (t : replicateObjectTask) : sameFrame t t.
Proof. by repeat split. Qed.

Lemma sameFrame_trans (t1 t2 t3 : replicateObjectTask) :
  sameFrame t1 t2 → sameFrame t2 t3 → sameFrame t1 t3.
Proof.
  intros (?&?&?&?&?&?) (?&?&?&?&?&?). repeat split; congruence.
Qed.

Lemma replicate_events (e : Env) (t : replicateObjectTask) (r : streamPieceDataReplicator) :
  Forall (λ ev, isFanOutEvent ev = true) (replicate e t r).2.
Proof.
  unfold replicate. destruct (NewGatewayClient e _); simpl; [by repeat constructor|].
  destruct (ReplicateObjectPieceStream e _ _ _ _ _) as [[ih sig]|err]; simpl;
    [|by repeat constructor].
  destruct (negb _); simpl; [by repeat constructor|].
  destruct (AccAddressFromHexUnsafe e _); simpl; [|by repeat constructor].
  destruct (VerifySignature e _ _ _); simpl; by repeat constructor.
Qed.

Lemma pickSp_frame (t t' : replicateObjectTask) sp approval :
  pickSp t = PickOk sp approval t' →
  sameFrame t t' ∧
  ∃ endpoint, sortedSpEndpoints t = endpoint :: sortedSpEndpoints t' ∧
              approvalResponseMap t' = base.delete endpoint (approvalResponseMap t).
Proof.
  unfold pickSp. case_bool_decide; [done|].
  destruct (sortedSpEndpoints t) as [|endpoint rest] eqn:Heps; [done|].
  intros [= <- <- <-]. split; [by repeat split|]. by exists endpoint.
Qed.

Lemma replicator_frame (e : Env) (round : nat) (ptrace : list ProducerEvent)
      (sg : streamReaderGroup) (st : loopState) (rIdx : nat) (wrote : bool) :
  sameFrame (lTask st) (lTask (replicator e round ptrace sg st rIdx wrote).1.1) ∧
  Forall (λ ev, isFanOutEvent ev = true) (replicator e round ptrace sg st rIdx wrote).1.2.
Proof.
  unfold replicator.
  destruct (pickSp (lTask st)) as [sp approval t| |] eqn:Hpick; simpl;
    try (split; [apply sameFrame_refl|constructor]).
  apply pickSp_frame in Hpick as [Hframe _].
  destruct (newReplicator t sg rIdx sp approval) as [r|]; simpl; [|by split].
  pose proof (replicate_events e t r) as Hevs.
  destruct (streamBlocks e round ptrace rIdx sp); simpl; [by split|].
  destruct (replicate e t r) as [[[ih sig]|err] evs]; simpl in *; [|by split].
  destruct (wrote && mapWriteRace e round rIdx); simpl; [by split|].
  split.
  - eapply sameFrame_trans; [exact Hframe|]. by repeat split.
  - apply Forall_app. split; [done|]. by repeat constructor.
Qed.

Lemma fanOut_frame (e : Env) (round : nat) (ptrace : list ProducerEvent)
      (sg : streamReaderGroup) (order : list nat) (st : loopState) (wrote : bool) :
  sameFrame (lTask st) (lTask (fanOut e round ptrace sg order st wrote).1.1) ∧
  Forall (λ ev, isFanOutEvent ev = true) (fanOut e round ptrace sg order st wrote).1.2.
Proof.
  revert st wrote. induction order as [|rIdx order IH]; intros st wrote; simpl.
  - split; [apply sameFrame_refl|constructor].
  - pose proof (replicator_frame e round ptrace sg st rIdx wrote) as [Hf1 He1].
    destruct (replicator e round ptrace sg st rIdx wrote) as [[st1 evs1] g]. simpl in *.
    destruct g; try (by split);
      match goal with
      | |- context [fanOut e round ptrace sg order st1 ?w] =>
          specialize (IH st1 w) as [Hf2 He2];
          destruct (fanOut e round ptrace sg order st1 w) as [[st2 evs2] r]
      end; simpl in *;
      (split; [by eapply sameFrame_trans|by apply Forall_app]).
Qed.

Lemma replicateRound_frame (e : Env) (round : nat) (st : loopState)
      (sg : streamReaderGroup) :
  sameFrame (lTask st) (lTask (replicateRound e round st sg).1.1) ∧
  Forall (λ ev, isFanOutEvent ev = true) (replicateRound e round st sg).1.2.
Proof.
  unfold replicateRound, produceStreamPieceData.
  set (ptrace := producerTrace _ _ _ _). set (sg' := mkGroup _ _).
  set (order := pickOrder _ _ _ _).
  pose proof (fanOut_frame e round ptrace sg' order st false) as [Hf1 He1].
  destruct (fanOut e round ptrace sg' order st false) as [[st1 evs1] r]. simpl in *.
  destruct (producerEnds ptrace); simpl;
    (split; [done || apply sameFrame_refl|by repeat constructor]).
Qed.

Lemma replicateLoop_frame (e : Env) (fuel round : nat) (st : loopState) :
  sameFrame (lTask st) (lTask (replicateLoop e fuel round st).1.1) ∧
  Forall (λ ev, isFanOutEvent ev = true) (replicateLoop e fuel round st).1.2 ∧
  ((replicateLoop e fuel round st).2 = LoopBreak →
   isAllSucceed (lTask (replicateLoop e fuel round st).1.1)
                (succeedIndexMap (replicateLoop e fuel round st).1.1) = true).
Proof.
  revert round st. induction fuel as [|fuel IH]; intros round st; cbn [replicateLoop].
  { split_and!; [apply sameFrame_refl|constructor|done]. }
  destruct (isAllSucceed (lTask st) (succeedIndexMap st)) eqn:Hall; simpl.
  { split_and!; [apply sameFrame_refl|constructor|done]. }
  destruct (newStreamReaderGroup (lTask st) (succeedIndexMap st)) as [sg|err]; simpl.
  2:{ split_and!; [apply sameFrame_refl|constructor|done]. }
  case_bool_decide; simpl.
  { split_and!; [apply sameFrame_refl|constructor|done]. }
  pose proof (replicateRound_frame e round st sg) as [Hf1 He1].
  destruct (replicateRound e round st sg) as [[st1 evs1] r]. simpl in *.
  destruct r; simpl; try (by split_and!).
  specialize (IH (S round) st1) as (Hf2 & He2 & Hb2).
  destruct (replicateLoop e fuel (S round) st1) as [[st2 evs2] ex]. simpl in *.
  split_and!; [by eapply sameFrame_trans|by apply Forall_app|done].
Qed.

(** Fan-out events are no reservation, release, state update or seal call. *)
Lemma fanOut_events_quiet (evs : list Event) :
  Forall (λ ev, isFanOutEvent ev = true) evs →
  reservedBytes evs = [] ∧ releasedBytes evs = [] ∧ jobStates evs = [] ∧
  Forall (λ ev, isSealAttempt ev = false) evs.
Proof.
  induction 1 as [|ev evs Hev _ (IH1 & IH2 & IH3 & IH4)].
  - by repeat split.
  - unfold reservedBytes, releasedBytes, jobStates in *.
    destruct ev; simpl in *; try discriminate; rewrite ?IH1, ?IH2, ?IH3;
      split_and!; try done; by constructor.
Qed.

Lemma sealInfo_quiet (e : Env) (st : loopState) :
  reservedBytes (sealInfo e st) = [] ∧ releasedBytes (sealInfo e st) = [] ∧
  Forall (λ ev, isFanOutEvent ev = false) (sealInfo e st).
Proof.
  unfold sealInfo. destruct (isAllSucceed _ _); [|by repeat constructor].
  destruct (SealObjectOnChain e _); [by repeat constructor|].
  destruct (ListenObjectSeal e _ _ _); by repeat constructor.
Qed.

Lemma jobStates_app (l1 l2 : list Event) :
  jobStates (l1 ++ l2) = jobStates l1 ++ jobStates l2.
Proof. apply omap_app. Qed.

Lemma releasedBytes_app (l1 l2 : list Event) :
  releasedBytes (l1 ++ l2) = releasedBytes l1 ++ releasedBytes l2.
Proof. apply omap_app. Qed.

Lemma reservedBytes_app (l1 l2 : list Event) :
  reservedBytes (l1 ++ l2) = reservedBytes l1 ++ reservedBytes l2.
Proof. apply omap_app. Qed.

Lemma sealInfo_states (e : Env) (st : loopState) :
  isAllSucceed (lTask st) (succeedIndexMap st) = true →
  JOB_STATE_REPLICATE_OBJECT_ERROR ∉ jobStates (sealInfo e st).
Proof.
  intros Hall. unfold sealInfo. rewrite Hall.
  destruct (SealObjectOnChain e _); [|destruct (ListenObjectSeal e _ _ _)];
    cbn; intros Hin;
    repeat (apply elem_of_cons in Hin as [?|Hin]; [done|]);
    by apply elem_of_nil in Hin.
Qed.

(** Whatever the collaborators answer, [execute] never writes the state
    [JOB_STATE_REPLICATE_OBJECT_ERROR]: the branch that would is reached only
    after a [break], and the loop breaks only when every shard succeeded. *)
Lemma execute_never_persists_replicate_error (e : Env) (t : replicateObjectTask) :
  JOB_STATE_REPLICATE_OBJECT_ERROR ∉ jobStates (execute e t).1.2.
Proof.
  unfold execute.
  set (st0 := mkLoop _ _ _ _). set (fuel := S _).
  pose proof (replicateLoop_frame e fuel 0 st0) as (_ & Hevs & Hbreak).
  destruct (replicateLoop e fuel 0 st0) as [[st evs] ex]. cbn [fst snd] in *.
  apply fanOut_events_quiet in Hevs as (_ & _ & Hjobs & _).
  assert (∀ id, jobStates (EvUpdateJobState id JOB_STATE_REPLICATE_OBJECT_DOING :: evs)
                = [JOB_STATE_REPLICATE_OBJECT_DOING]) as Hhead.
  { intros id. change (JOB_STATE_REPLICATE_OBJECT_DOING :: jobStates evs = 
                       [JOB_STATE_REPLICATE_OBJECT_DOING]). by rewrite Hjobs. }
  destruct ex; cbn [fst snd]; rewrite ?jobStates_app, Hhead.
  - intros Hin. apply elem_of_app in Hin as [Hin|Hin].
    + apply elem_of_cons in Hin as [?|Hin]; [done|]. by apply elem_of_nil in Hin.
    + apply elem_of_app in Hin as [Hin|Hin].
      * by apply (sealInfo_states e st (Hbreak eq_refl)).
      * cbn in Hin. by apply elem_of_nil in Hin.
  - intros Hin. apply elem_of_app in Hin as [Hin|Hin].
    + apply elem_of_cons in Hin as [?|Hin]; [done|]. by apply elem_of_nil in Hin.
    + cbn in Hin. by apply elem_of_nil in Hin.
  - intros Hin. apply elem_of_cons in Hin as [?|Hin]; [done|].
    by apply elem_of_nil in Hin.
  - intros Hin. apply elem_of_cons in Hin as [?|Hin]; [done|].
    by apply elem_of_nil in Hin.
  - intros Hin. apply elem_of_cons in Hin as [?|Hin]; [done|].
    by apply elem_of_nil in Hin.
Qed.

(** *** The retry loop: it returns *)

Lemma SortKeys_poolOk (t : replicateObjectTask) :
  sortedSpEndpoints t = SortKeys (approvalResponseMap t) → poolOk t.
Proof.
  intros Heq. unfold poolOk. rewrite Heq. unfold SortKeys.
  pose proof (merge_sort_Permutation stringLe (map_to_list (approvalResponseMap t)).*1)
    as Hperm.
  split.
  - rewrite Hperm. apply NoDup_fst_map_to_list.
  - intros x Hx. rewrite Hperm in Hx.
    apply list_elem_of_fmap in Hx as ([k v] & -> & Hkv).
    apply elem_of_map_to_list in Hkv. eauto.
Qed.

Lemma pickSp_ok (t : replicateObjectTask) :
  poolOk t → sortedSpEndpoints t ≠ [] →
  ∃ sp approval t',
    pickSp t = PickOk sp approval t' ∧ poolOk t' ∧
    S (length (sortedSpEndpoints t')) = length (sortedSpEndpoints t).
Proof.
  intros [Hnd Hin] Hne. unfold pickSp.
  destruct (sortedSpEndpoints t) as [|endpoint rest] eqn:Heps; [done|].
  rewrite bool_decide_eq_false_2.
  2:{ intros Hsz. apply map_size_empty_iff in Hsz.
      destruct (Hin endpoint) as [v Hv]; [by left|].
      by rewrite Hsz, lookup_empty in Hv. }
  eexists _, _, _. split; [reflexivity|]. split; [|done].
  apply NoDup_cons in Hnd as [Hnotin Hnd]. split; simpl; [done|].
  intros x Hx. rewrite lookup_delete_ne; [apply Hin; by right|].
  intros ->. done.
Qed.

(** Under the invariants of the pool a goroutine always gets a provider;
    it brings the process down only by a map write that meets another. *)
Lemma replicator_ok (e : Env) (round : nat) (ptrace : list ProducerEvent)
      (sg : streamReaderGroup) (st : loopState) (rIdx : nat) (wrote : bool) :
  poolOk (lTask st) → checksumsOk (lTask st) →
  sortedSpEndpoints (lTask st) ≠ [] → (rIdx < redundancyNumber (lTask st))%nat →
  poolOk (lTask (replicator e round ptrace sg st rIdx wrote).1.1) ∧
  S (length (sortedSpEndpoints (lTask (replicator e round ptrace sg st rIdx wrote).1.1))) =
    length (sortedSpEndpoints (lTask st)) ∧
  ((replicator e round ptrace sg st rIdx wrote).2 = GoDied →
   wrote = true ∧ mapWriteRace e round rIdx = true).
Proof.
  intros Hpool Hsums Hne Hidx.
  destruct (pickSp_ok _ Hpool Hne) as (sp & approval & t' & Hpick & Hpool' & Hlen).
  pose proof (pickSp_frame _ _ _ _ Hpick) as [(_ & Hred & _ & Hcs & _) _].
  unfold replicator. rewrite Hpick. unfold newReplicator.
  destruct (Checksums (objectInfo t') !! (rIdx + 1)%nat) as [expected|] eqn:Hexp.
  2:{ apply lookup_ge_None in Hexp. unfold checksumsOk in Hsums.
      rewrite Hcs, <- Hsums in Hexp. lia. }
  destruct (streamBlocks e round ptrace rIdx sp); simpl; [by split_and!|].
  destruct (replicate e t' _) as [[[ih sig]|err] evs]; simpl; [|by split_and!].
  destruct wrote, (mapWriteRace e round rIdx); simpl; by split_and!.
Qed.

Lemma fanOut_ok (e : Env) (round : nat) (ptrace : list ProducerEvent)
      (sg : streamReaderGroup) (order : list nat) (st : loopState) (wrote : bool) :
  poolOk (lTask st) → checksumsOk (lTask st) →
  Forall (λ i, (i < redundancyNumber (lTask st))%nat) order →
  (length order ≤ length (sortedSpEndpoints (lTask st)))%nat →
  poolOk (lTask (fanOut e round ptrace sg order st wrote).1.1) ∧
  ((fanOut e round ptrace sg order st wrote).2 = RoundDone →
   (length (sortedSpEndpoints (lTask (fanOut e round ptrace sg order st wrote).1.1)) +
    length order)%nat = length (sortedSpEndpoints (lTask st))) ∧
  ((fanOut e round ptrace sg order st wrote).2 = RoundDied →
   ∃ idx, idx ∈ order ∧ mapWriteRace e round idx = true).
Proof.
  revert st wrote.
  induction order as [|rIdx order IH]; intros st wrote Hpool Hsums Hidx Hlen; simpl.
  { split_and!; [done|intros _; lia|done]. }
  apply Forall_cons in Hidx as [Hidx Hrest]. simpl in Hlen.
  assert (sortedSpEndpoints (lTask st) ≠ []) as Hne.
  { destruct (sortedSpEndpoints (lTask st)); [simpl in Hlen; lia|done]. }
  pose proof (replicator_ok e round ptrace sg st rIdx wrote Hpool Hsums Hne Hidx)
    as (Hpool1 & Hlen1 & Hdied1).
  pose proof (replicator_frame e round ptrace sg st rIdx wrote)
    as [(_ & Hred & _ & Hcs & _) _].
  destruct (replicator e round ptrace sg st rIdx wrote) as [[st1 evs1] g]. simpl in *.
  assert (checksumsOk (lTask st1)) as Hsums1.
  { unfold checksumsOk in *. congruence. }
  assert (Forall (λ i, (i < redundancyNumber (lTask st1))%nat) order) as Hrest1
      by (by rewrite Hred).
  assert (length order ≤ length (sortedSpEndpoints (lTask st1)))%nat as Hlen' by lia.
  destruct g;
    try match goal with
    | |- context [fanOut e round ptrace sg order st1 ?w] =>
        pose proof (IH st1 w Hpool1 Hsums1 Hrest1 Hlen') as (Hpool2 & Hlen2 & Hdied2);
        destruct (fanOut e round ptrace sg order st1 w) as [[st2 evs2] r]
    end; simpl in *.
  1-3: split_and!; [done| |].
  - intros ->. specialize (Hlen2 eq_refl). lia.
  - intros ->. destruct (Hdied2 eq_refl) as (idx & Hin & Hrace).
    exists idx. split; [by right|done].
  - intros ->. specialize (Hlen2 eq_refl). lia.
  - intros ->. destruct (Hdied2 eq_refl) as (idx & Hin & Hrace).
    exists idx. split; [by right|done].
  - by destruct r.
  - destruct r; try done. intros _. destruct (Hdied2 eq_refl) as (idx & Hin & Hrace).
    exists idx. split; [by right|done].
  - split_and!; [done|done|].
    intros _. exists rIdx. split; [by left|]. by destruct (Hdied1 eq_refl).
Qed.

Lemma pickOrder_length (c : nat → nat) (n : nat) :
  ∀ k l, length l = n → length (pickOrder c k l n) = n.
Proof.
  induction n as [|n IH]; intros k l Hlen; simpl; [done|].
  assert (c k mod length l < length l)%nat as Hlt by (apply Nat.mod_upper_bound; lia).
  destruct (l !! (c k mod length l)%nat) as [x|] eqn:Hx.
  - simpl. f_equal. apply IH.
    rewrite length_app, length_take, length_drop. lia.
  - apply lookup_ge_None in Hx. lia.
Qed.

Lemma pickOrder_Forall (P : nat → Prop) (c : nat → nat) (n : nat) :
  ∀ k l, Forall P l → Forall P (pickOrder c k l n).
Proof.
  induction n as [|n IH]; intros k l Hl; simpl; [constructor|].
  destruct (l !! (c k mod length l)%nat) as [x|] eqn:Hx; [|constructor].
  constructor.
  - eapply Forall_lookup_1; eauto.
  - apply IH. apply Forall_app. split; [by apply Forall_take|by apply Forall_drop].
Qed.

Lemma replicateRound_ok (e : Env) (round : nat) (st : loopState) (sg : streamReaderGroup) :
  poolOk (lTask st) → checksumsOk (lTask st) →
  Forall (λ i, (i < redundancyNumber (lTask st))%nat) (groupIndices sg) →
  (0 < length (groupIndices sg) ≤ length (sortedSpEndpoints (lTask st)))%nat →
  poolOk (lTask (replicateRound e round st sg).1.1) ∧
  ((replicateRound e round st sg).2 = RoundDone →
   (length (sortedSpEndpoints (lTask (replicateRound e round st sg).1.1)) <
    length (sortedSpEndpoints (lTask st)))%nat).
Proof.
  intros Hpool Hsums Hidx Hlen.
  unfold replicateRound, produceStreamPieceData.
  set (ptrace := producerTrace _ _ _ _). set (sg' := mkGroup _ _).
  assert (groupIndices sg' = groupIndices sg) as Hsame by done.
  rewrite Hsame.
  set (order := pickOrder _ _ _ _).
  assert (length order = length (groupIndices sg)) as Hord
      by (by apply pickOrder_length).
  assert (Forall (λ i, (i < redundancyNumber (lTask st))%nat) order) as Hbound
      by (by apply pickOrder_Forall).
  assert (length order ≤ length (sortedSpEndpoints (lTask st)))%nat as Hfits by lia.
  pose proof (fanOut_ok e round ptrace sg' order st false Hpool Hsums Hbound Hfits)
    as (Hpool1 & Hlen1 & _).
  destruct (fanOut e round ptrace sg' order st false) as [[st1 evs1] r]. simpl in *.
  destruct (producerEnds ptrace); simpl; (split; [done|]); try done;
    intros ->; specialize (Hlen1 eq_refl); lia.
Qed.

(** The fuel [execute] gives the loop is enough: every round that ends takes
    at least one endpoint out of the list. *)
Lemma replicateLoop_ok (e : Env) (fuel : nat) :
  ∀ round st,
    poolOk (lTask st) → checksumsOk (lTask st) →
    (length (sortedSpEndpoints (lTask st)) < fuel)%nat →
    (replicateLoop e fuel round st).2 ≠ LoopOutOfFuel.
Proof.
  induction fuel as [|fuel IH]; intros round st Hpool Hsums Hfuel; [lia|].
  cbn [replicateLoop]. destruct (isAllSucceed _ _); [done|].
  destruct (newStreamReaderGroup (lTask st) (succeedIndexMap st)) as [sg|err] eqn:Hsg;
    [|done].
  apply newStreamReaderGroup_ok in Hsg as (Hidx & Hpos & Hlen).
  case_bool_decide as Hroom; [done|].
  assert (0 < length (groupIndices sg) ≤ length (sortedSpEndpoints (lTask st)))%nat
    as Hfits by lia.
  pose proof (replicateRound_ok e round st sg Hpool Hsums Hidx Hfits) as (Hpool1 & Hlen1).
  pose proof (replicateRound_frame e round st sg) as [(_ & Hred & _ & Hcs & _) _].
  destruct (replicateRound e round st sg) as [[st1 evs1] r]. simpl in *.
  destruct r; try done.
  specialize (Hlen1 eq_refl).
  assert (checksumsOk (lTask st1)) as Hsums1.
  { unfold checksumsOk in *. congruence. }
  assert (length (sortedSpEndpoints (lTask st1)) < fuel)%nat as Hfuel1 by lia.
  pose proof (IH (S round) st1 Hpool1 Hsums1 Hfuel1) as Hex.
  by destruct (replicateLoop e fuel (S round) st1) as [[st2 evs2] ex].
Qed.

(** After a successful [init] the pool and the checksum list are as the loop
    needs them. *)
Lemma init_establishes (e : Env) (t t' : replicateObjectTask) (evs : list Event) :
  init e t = (None, t', evs) →
  poolOk t' ∧ checksumsOk t' ∧
  reservedBytes evs = [approximateMemSize t'] ∧ releasedBytes evs = [].
Proof.
  intros Hinit. apply init_success in Hinit as (p & sps & aps & _ & Hlen & _ & -> & _ & ->).
  split_and!; [by apply SortKeys_poolOk|done|done|done].
Qed.

(** *** The retry loop: when nothing keeps it from returning *)

Lemma pickOrder_Permutation (c : nat → nat) (n : nat) :
  ∀ k l, length l = n → pickOrder c k l n ≡ₚ l.
Proof.
  induction n as [|n IH]; intros k l Hlen; simpl.
  { destruct l; [done|simpl in Hlen; lia]. }
  assert (c k mod length l < length l)%nat as Hlt by (apply Nat.mod_upper_bound; lia).
  destruct (l !! (c k mod length l)%nat) as [x|] eqn:Hx.
  - rewrite IH by (rewrite length_app, length_take, length_drop; lia).
    rewrite <- delete_take_drop. symmetry. by apply delete_Permutation.
  - apply lookup_ge_None in Hx. lia.
Qed.

(** With enough endpoints in the list every goroutine of a round is handed
    a provider. *)
Lemma handedTo_ok (t : replicateObjectTask) (order : list nat) (idx : nat) :
  poolOk t → (length order ≤ length (sortedSpEndpoints t))%nat → idx ∈ order →
  is_Some (handedTo t order idx).
Proof.
  revert t. induction order as [|rIdx order IH]; intros t Hpool Hlen Hin.
  { by apply elem_of_nil in Hin. }
  simpl in *.
  assert (sortedSpEndpoints t ≠ []) as Hne.
  { destruct (sortedSpEndpoints t); [simpl in Hlen; lia|done]. }
  destruct (pickSp_ok _ Hpool Hne) as (sp & approval & t' & Hpick & Hpool' & Hlen').
  rewrite Hpick. case_bool_decide as Heq; [by eexists|].
  apply IH; [done|lia|].
  apply elem_of_cons in Hin as [->|?]; done.
Qed.

(** When every gateway client is made and every reader reads to the end,
    every write of the producer returns. *)
Lemma writeReturns_undisturbed (e : Env) (round : nat) (t : replicateObjectTask)
      (sg : streamReaderGroup) (seg idx : nat) :
  (∀ round idx, piecesRead e round idx = None) →
  (∀ endpoint, NewGatewayClient e endpoint = None) →
  poolOk t → checksumsOk t →
  Forall (λ i, (i < redundancyNumber t)%nat) (groupIndices sg) →
  (length (groupIndices sg) ≤ length (sortedSpEndpoints t))%nat →
  idx ∈ groupIndices sg →
  writeReturns e round t sg seg idx = true.
Proof.
  intros Hreads Hgw Hpool Hsums Hbound Hlen Hin.
  unfold writeReturns, piecesTaken.
  set (order := pickOrder _ _ _ _).
  assert (idx ∈ order) as Hord.
  { subst order. by rewrite pickOrder_Permutation. }
  assert (length order = length (groupIndices sg)) as Hordlen
      by (by apply pickOrder_length).
  destruct (handedTo_ok t order idx Hpool ltac:(lia) Hord) as [sp ->].
  destruct (Checksums (objectInfo t) !! (idx + 1)%nat) as [expected|] eqn:Hexp.
  - by rewrite Hgw, Hreads.
  - apply lookup_ge_None in Hexp. unfold checksumsOk in Hsums.
    eapply Forall_forall in Hbound; [|exact Hin]. simpl in Hbound. lia.
Qed.

Lemma writePieces_through (returns : nat → bool) (shard : nat → option bytes)
      (idxs : list nat) (rest : list ProducerEvent) :
  (∀ idx, idx ∈ idxs → returns idx = true ∧ is_Some (shard idx)) →
  producerEnds (writePieces returns shard idxs rest) = producerEnds rest.
Proof.
  induction idxs as [|idx idxs IH]; intros Hall; simpl; [done|].
  destruct (Hall idx) as [Hret [data Hdata]]; [by left|].
  rewrite Hdata, Hret. simpl. apply IH. intros j Hj. apply Hall. by right.
Qed.

(** A producer whose writes all return and that finds every shard it reads
    returns. *)
Lemma produceLoop_returns (e : Env) (round : nat) (t : replicateObjectTask)
      (sg : streamReaderGroup) (segs : list nat) (gotPieceSize : bool) :
  (∀ seg idx, idx ∈ groupIndices sg → writeReturns e round t sg seg idx = true) →
  (∀ data ecPieceData,
     EncodeRawSegment e data (GetRedundantDataChunkNum (storageParams t))
                      (GetRedundantParityChunkNum (storageParams t)) = inl ecPieceData →
     is_Some (ecPieceData !! O) ∧
     ∀ idx, idx ∈ groupIndices sg → is_Some (ecPieceData !! idx)) →
  producerEnds (produceLoop e round t sg segs gotPieceSize) = ProducerReturned.
Proof.
  intros Hret Hshard. revert gotPieceSize.
  induction segs as [|seg segs IH]; intros got; cbn [produceLoop].
  { by destruct (closes_read (groupIndices sg)) as (_ & _ & _ & _ & H & _). }
  change (producerEnds (PGetPiece seg :: ?l)) with (producerEnds l).
  assert (∀ err, producerEnds (map (λ idx, PCloseWithError idx err) (groupIndices sg) ++
                               [PCloseChannel]) = ProducerReturned) as Hfail.
  { intros err. by destruct (error_closes_read err (groupIndices sg))
      as (_ & _ & _ & _ & H & _). }
  destruct (GetPiece e round (Id (objectInfo t)) seg) as [data|err]; [|apply Hfail].
  destruct (ObjRedundancyType (objectInfo t)).
  - destruct (EncodeRawSegment e data _ _) as [ec|err] eqn:Henc; [|apply Hfail].
    destruct (Hshard _ _ Henc) as [[shard0 H0] Hall].
    assert (producerEnds
              (writePieces (writeReturns e round t sg seg) (λ idx, ec !! idx)
                           (groupIndices sg) (produceLoop e round t sg segs true)) =
            ProducerReturned) as Hwrites.
    { rewrite writePieces_through; [apply IH|].
      intros idx Hin. split; [by apply Hret|by apply Hall]. }
    destruct got; [done|].
    assert (@lookup nat (list Byte.byte) (list bytes) _ O ec = Some shard0) as ->
        by exact H0.
    done.
  - assert (producerEnds
              (writePieces (writeReturns e round t sg seg) (λ _, Some data)
                           (groupIndices sg) (produceLoop e round t sg segs true)) =
            ProducerReturned) as Hwrites.
    { rewrite writePieces_through; [apply IH|].
      intros idx Hin. split; [by apply Hret|by eexists]. }
    by destruct got.
Qed.

(** A goroutine whose pipe the producer closes and whose map write the
    runtime lets pass returns. *)
Lemma replicator_done (e : Env) (round : nat) (ptrace : list ProducerEvent)
      (sg : streamReaderGroup) (st : loopState) (rIdx : nat) (wrote : bool) :
  poolOk (lTask st) → checksumsOk (lTask st) →
  sortedSpEndpoints (lTask st) ≠ [] → (rIdx < redundancyNumber (lTask st))%nat →
  mapWriteRace e round rIdx = false → rIdx ∈ closedPipes ptrace →
  (replicator e round ptrace sg st rIdx wrote).2 = GoReturned ∨
  (replicator e round ptrace sg st rIdx wrote).2 = GoSucceeded.
Proof.
  intros Hpool Hsums Hne Hidx Hrace Hclosed.
  destruct (pickSp_ok _ Hpool Hne) as (sp & approval & t' & Hpick & Hpool' & Hlen).
  pose proof (pickSp_frame _ _ _ _ Hpick) as [(_ & Hred & _ & Hcs & _) _].
  unfold replicator. rewrite Hpick. unfold newReplicator.
  destruct (Checksums (objectInfo t') !! (rIdx + 1)%nat) as [expected|] eqn:Hexp.
  2:{ apply lookup_ge_None in Hexp. unfold checksumsOk in Hsums.
      rewrite Hcs, <- Hsums in Hexp. lia. }
  assert (streamBlocks e round ptrace rIdx sp = false) as ->.
  { unfold streamBlocks, readerStarves. destruct (NewGatewayClient e _); [done|].
    rewrite bool_decide_eq_false_2; [done|]. by intros Hnot. }
  destruct (replicate e t' _) as [[[ih sig]|err] evs]; simpl; [|by left].
  rewrite Hrace, andb_false_r. by right.
Qed.

Lemma fanOut_done (e : Env) (round : nat) (ptrace : list ProducerEvent)
      (sg : streamReaderGroup) (order : list nat) (st : loopState) (wrote : bool) :
  poolOk (lTask st) → checksumsOk (lTask st) →
  Forall (λ i, (i < redundancyNumber (lTask st))%nat) order →
  (length order ≤ length (sortedSpEndpoints (lTask st)))%nat →
  (∀ idx, mapWriteRace e round idx = false) →
  Forall (λ i, i ∈ closedPipes ptrace) order →
  (fanOut e round ptrace sg order st wrote).2 = RoundDone.
Proof.
  revert st wrote.
  induction order as [|rIdx order IH];
    intros st wrote Hpool Hsums Hidx Hlen Hrace Hclosed; simpl; [done|].
  apply Forall_cons in Hidx as [Hidx Hrest]. simpl in Hlen.
  apply Forall_cons in Hclosed as [Hclosed Hclosed'].
  assert (sortedSpEndpoints (lTask st) ≠ []) as Hne.
  { destruct (sortedSpEndpoints (lTask st)); [simpl in Hlen; lia|done]. }
  pose proof (replicator_ok e round ptrace sg st rIdx wrote Hpool Hsums Hne Hidx)
    as (Hpool1 & Hlen1 & _).
  pose proof (replicator_done e round ptrace sg st rIdx wrote Hpool Hsums Hne Hidx
                (Hrace rIdx) Hclosed) as Hdone.
  pose proof (replicator_frame e round ptrace sg st rIdx wrote)
    as [(_ & Hred & _ & Hcs & _) _].
  destruct (replicator e round ptrace sg st rIdx wrote) as [[st1 evs1] g]. simpl in *.
  assert (checksumsOk (lTask st1)) as Hsums1.
  { unfold checksumsOk in *. congruence. }
  assert (Forall (λ i, (i < redundancyNumber (lTask st1))%nat) order) as Hrest1
      by (by rewrite Hred).
  assert (length order ≤ length (sortedSpEndpoints (lTask st1)))%nat as Hlen' by lia.
  destruct Hdone as [-> | ->];
    match goal with
    | |- context [fanOut e round ptrace sg order st1 ?w] =>
        specialize (IH st1 w Hpool1 Hsums1 Hrest1 Hlen' Hrace Hclosed');
        destruct (fanOut e round ptrace sg order st1 w) as [[st2 evs2] r]
    end; simpl in *; by subst r.
Qed.

Lemma replicateRound_done (e : Env) (t0 : replicateObjectTask) (round : nat)
      (st : loopState) (sg : streamReaderGroup) :
  undisturbed e t0 → sameFrame t0 (lTask st) →
  poolOk (lTask st) → checksumsOk (lTask st) →
  Forall (λ i, (i < redundancyNumber (lTask st))%nat) (groupIndices sg) →
  (0 < length (groupIndices sg) ≤ length (sortedSpEndpoints (lTask st)))%nat →
  (replicateRound e round st sg).2 = RoundDone.
Proof.
  intros (Hrace & Hreads & Hgw & Hshards) (_ & Hred & _ & _ & _ & Hparams)
         Hpool Hsums Hidx Hlen.
  unfold replicateRound, produceStreamPieceData.
  set (ptrace := producerTrace _ _ _ _). set (sg' := mkGroup _ _).
  assert (groupIndices sg' = groupIndices sg) as Hsame by done.
  rewrite Hsame.
  set (order := pickOrder _ _ _ _).
  assert (∃ i0, i0 ∈ groupIndices sg) as [i0 Hi0].
  { destruct (groupIndices sg) as [|i0 l]; [simpl in Hlen; lia|]. exists i0. by left. }
  assert (0 < redundancyNumber (lTask st))%nat as Hpos.
  { eapply Forall_forall in Hidx; [|exact Hi0]. simpl in Hidx. lia. }
  assert (producerEnds ptrace = ProducerReturned) as Hends.
  { subst ptrace. unfold producerTrace. apply produceLoop_returns.
    - intros seg idx Hin. apply writeReturns_undisturbed; try done. lia.
    - intros data ec Henc. rewrite Hparams in Henc. apply Hshards in Henc.
      rewrite <- Hred in Henc. split.
      + apply lookup_lt_is_Some. lia.
      + intros idx Hin. eapply Forall_forall in Hidx; [|exact Hin]. simpl in Hidx.
        apply lookup_lt_is_Some. lia. }
  assert (closedPipes ptrace = groupIndices sg) as Hclosed.
  { subst ptrace. unfold producerTrace in *.
    destruct (produceLoop_read e round (lTask st) sg
                (seq 0 (segmentPieceNumber (lTask st))) false) as (_ & _ & Hend).
    rewrite Hends in Hend. by destruct Hend as (? & _). }
  rewrite Hends.
  assert (length order = length (groupIndices sg)) as Hord
      by (by apply pickOrder_length).
  assert ((fanOut e round ptrace sg' order st false).2 = RoundDone) as Hdone.
  { apply fanOut_done; try done.
    - by apply pickOrder_Forall.
    - lia.
    - rewrite Hclosed. apply pickOrder_Forall. by apply Forall_forall. }
  by destruct (fanOut e round ptrace sg' order st false) as [[st1 evs1] r].
Qed.

Lemma replicateLoop_returns (e : Env) (t0 : replicateObjectTask) (fuel : nat) :
  undisturbed e t0 →
  ∀ round st,
    sameFrame t0 (lTask st) → poolOk (lTask st) → checksumsOk (lTask st) →
    (length (sortedSpEndpoints (lTask st)) < fuel)%nat →
    (replicateLoop e fuel round st).2 = LoopBreak ∨
    (replicateLoop e fuel round st).2 = LoopReturn.
Proof.
  intros Hund.
  induction fuel as [|fuel IH]; intros round st Hframe Hpool Hsums Hfuel; [lia|].
  cbn [replicateLoop]. destruct (isAllSucceed _ _); [by left|].
  destruct (newStreamReaderGroup (lTask st) (succeedIndexMap st)) as [sg|err] eqn:Hsg;
    [|by right].
  apply newStreamReaderGroup_ok in Hsg as (Hidx & Hpos & Hlen).
  case_bool_decide as Hroom; [by right|].
  assert (0 < length (groupIndices sg) ≤ length (sortedSpEndpoints (lTask st)))%nat
    as Hfits by lia.
  pose proof (replicateRound_ok e round st sg Hpool Hsums Hidx Hfits) as (Hpool1 & Hlen1).
  pose proof (replicateRound_done e t0 round st sg Hund Hframe Hpool Hsums Hidx Hfits)
    as Hdone.
  pose proof (replicateRound_frame e round st sg) as [Hf1 _].
  destruct (replicateRound e round st sg) as [[st1 evs1] r]. simpl in *. subst r.
  specialize (Hlen1 eq_refl).
  pose proof (sameFrame_trans _ _ _ Hframe Hf1) as Hframe1.
  assert (checksumsOk (lTask st1)) as Hsums1.
  { destruct Hf1 as (_ & Hred & _ & Hcs & _). unfold checksumsOk in *. congruence. }
  assert (length (sortedSpEndpoints (lTask st1)) < fuel)%nat as Hfuel1 by lia.
  pose proof (IH (S round) st1 Hframe1 Hpool1 Hsums1 Hfuel1) as Hex.
  by destruct (replicateLoop e fuel (S round) st1) as [[st2 evs2] ex].
Qed.

(** C7.  A task whose [init] succeeded reserved [approximateMemSize] bytes,
    once, and [execute] reserves nothing more.  On every path on which
    [execute] returns (all shards replicated and sealed, sign or seal
    failure, pool exhaustion, no stream reader group) its trace holds
    exactly one [ReleaseMemory], of that same number of bytes, so that what
    was reserved is what was released.  The loop always comes to an end
    with the fuel given, and [execute] does return whenever the goroutines
    leave each other alone; when it does not return, because a goroutine
    brought the process down or [wg.Wait()] waits for ever, nothing is
    released. *)
Theorem execute_releases_what_init_reserved
        (e : Env) (t0 t : replicateObjectTask) (evs0 : list Event) :
  init e t0 = (None, t, evs0) →
  reservedBytes evs0 = [approximateMemSize t] ∧
  releasedBytes evs0 = [] ∧
  reservedBytes (execute e t).1.2 = [] ∧
  (execute e t).2 ≠ OutOfFuel ∧
  ((execute e t).2 = Returned →
   releasedBytes (execute e t).1.2 = [approximateMemSize t] ∧
   reservedBytes (evs0 ++ (execute e t).1.2) = releasedBytes (evs0 ++ (execute e t).1.2)) ∧
  ((execute e t).2 ≠ Returned → releasedBytes (execute e t).1.2 = []) ∧
  (undisturbed e t → (execute e t).2 = Returned).
Proof.
  intros Hinit. apply init_establishes in Hinit as (Hpool & Hsums & Hres & Hrel).
  rewrite !reservedBytes_app, !releasedBytes_app, Hres, Hrel.
  unfold execute.
  set (t1 := set_object t _). set (st0 := mkLoop t1 _ _ _).
  assert (poolOk (lTask st0) ∧ checksumsOk (lTask st0)) as [Hpool0 Hsums0] by done.
  assert (sameFrame t (lTask st0)) as Hframe0 by (by repeat split).
  pose proof (replicateLoop_ok e (S (length (sortedSpEndpoints t1))) 0 st0 Hpool0 Hsums0)
    as Hex.
  pose proof (λ Hund, replicateLoop_returns e t (S (length (sortedSpEndpoints t1))) Hund
                        0 st0 Hframe0 Hpool0 Hsums0) as Hret.
  pose proof (replicateLoop_frame e (S (length (sortedSpEndpoints t1))) 0 st0)
    as ((Hmem & _) & Hevs & _).
  destruct (replicateLoop e _ 0 st0) as [[st evs] ex]. cbn [fst snd] in *.
  specialize (Hex ltac:(simpl; lia)).
  assert (undisturbed e t → ex = LoopBreak ∨ ex = LoopReturn) as Hret'.
  { intros Hund. apply (Hret Hund). simpl. lia. }
  apply fanOut_events_quiet in Hevs as (Hres1 & Hrel1 & _ & _).
  pose proof (sealInfo_quiet e st) as (Hres2 & Hrel2 & _).
  assert (approximateMemSize (lTask st) = approximateMemSize t) as Hsize by done.
  assert (∀ id, reservedBytes (EvUpdateJobState id JOB_STATE_REPLICATE_OBJECT_DOING :: evs)
                = [] ∧
                releasedBytes (EvUpdateJobState id JOB_STATE_REPLICATE_OBJECT_DOING :: evs)
                = []) as Hhead.
  { intros id. split; [exact Hres1|exact Hrel1]. }
  destruct ex; cbn [fst snd]; try done;
    rewrite ?reservedBytes_app, ?releasedBytes_app, ?(proj1 (Hhead _)), ?(proj2 (Hhead _)),
      ?Hres2, ?Hrel2, ?Hsize;
    split_and!; try done; intros Hund; by destruct (Hret' Hund).
Qed.

Lemma execute_releases_what_init_reserved_witness :
  let e := Scenarios.env 7 (Some ("d", 3%nat)) false in
  let t0 := Scenarios.task 256 7 in
  let t := (init e t0).1.2 in
  let evs0 := (init e t0).2 in
  init e t0 = (None, t, evs0) ∧
  (execute e t).2 = Returned ∧
  reservedBytes evs0 = [approximateMemSize t] ∧
  releasedBytes evs0 = [] ∧
  reservedBytes (execute e t).1.2 = [] ∧
  (execute e t).2 ≠ OutOfFuel ∧
  ((execute e t).2 = Returned →
   releasedBytes (execute e t).1.2 = [approximateMemSize t] ∧
   reservedBytes (evs0 ++ (execute e t).1.2) = releasedBytes (evs0 ++ (execute e t).1.2)) ∧
  ((execute e t).2 ≠ Returned → releasedBytes (execute e t).1.2 = []) ∧
  (undisturbed e t → (execute e t).2 = Returned).
Proof.
  intros e t0 t evs0. split; [vm_compute; reflexivity|].
  split; [vm_compute; reflexivity|].
  apply (execute_releases_what_init_reserved e t0 t evs0). vm_compute; reflexivity.
Defined.

(** C4.  Scenario 3 as the code runs it: redundancy number 6, five candidate
    providers.  [init] succeeds; the first round finds six pipes for five
    endpoints and [execute] returns from inside the loop.  No seal is
    attempted and the 640 reserved bytes are released, but the only state
    ever written is [JOB_STATE_REPLICATE_OBJECT_DOING]: the write of
    [JOB_STATE_REPLICATE_OBJECT_ERROR] sits after the loop, where this
    return never arrives. *)
Theorem pool_exhaustion_leaves_state_doing :
  let e := Scenarios.env 5 None false in
  let t := (init e (Scenarios.task 256 7)).1.2 in
  (init e (Scenarios.task 256 7)).1.1 = None ∧
  redundancyNumber t = 6%nat ∧
  length (sortedSpEndpoints t) = 5%nat ∧
  (execute e t).2 = Returned ∧
  jobStates (execute e t).1.2 = [JOB_STATE_REPLICATE_OBJECT_DOING] ∧
  Forall (λ ev, isSealAttempt ev = false) (execute e t).1.2 ∧
  releasedBytes (execute e t).1.2 = [640].
Proof.
  intros e t.
  assert ((execute e t).1.2 =
          [EvUpdateJobState 7 JOB_STATE_REPLICATE_OBJECT_DOING; EvReleaseMemory 640])
    as Htrace by (vm_compute; reflexivity).
  rewrite Htrace.
  split_and!; try (vm_compute; reflexivity). by repeat constructor.
Qed.

(** C10.  A task without segments gets no stream reader group, whatever the
    exclusion map: the map of the group is filled inside the loop over the
    segment indices, which then has no iteration.  [execute] on such a task
    makes no call from the fan-out: no producer, no replicator, no progress
    write. *)
Theorem no_segment_no_stream_reader_group (e : Env) (t : replicateObjectTask) :
  segmentPieceNumber t = O →
  (∀ excludeIndexMap, newStreamReaderGroup t excludeIndexMap = inr ErrInvalidParams) ∧
  newStreamReaderGroup t ∅ = inr ErrInvalidParams ∧
  Forall (λ ev, isFanOutEvent ev = false) (execute e t).1.2.
Proof.
  intros Hseg.
  assert (∀ t1 ex, segmentPieceNumber t1 = O →
                   newStreamReaderGroup t1 ex = inr ErrInvalidParams) as Hnone.
  { intros t1 ex H1. unfold newStreamReaderGroup. by rewrite H1. }
  split_and!; [intros ex; by apply Hnone|by apply Hnone|].
  unfold execute.
  set (t1 := set_object t _). set (st0 := mkLoop t1 _ _ _).
  assert (segmentPieceNumber (lTask st0) = O) as Hseg0 by done.
  simpl replicateLoop. rewrite (Hnone _ _ Hseg0).
  pose proof (sealInfo_quiet e st0) as (_ & _ & Hseal).
  destruct (isAllSucceed t1 ∅); cbn [fst snd].
  - constructor; [done|]. apply Forall_app. split; [done|]. by repeat constructor.
  - by repeat constructor.
Qed.

Lemma no_segment_no_stream_reader_group_witness :
  let e := Scenarios.env 6 None false in
  let t := (init e (Scenarios.task 0 7)).1.2 in
  segmentPieceNumber t = O ∧
  (∀ excludeIndexMap, newStreamReaderGroup t excludeIndexMap = inr ErrInvalidParams) ∧
  newStreamReaderGroup t ∅ = inr ErrInvalidParams ∧
  Forall (λ ev, isFanOutEvent ev = false) (execute e t).1.2.
Proof.
  intros e t. split; [vm_compute; reflexivity|].
  apply (no_segment_no_stream_reader_group e t). vm_compute; reflexivity.
Defined.

(** A payload of size zero is such a task: [init] computes no segment for
    it. *)
Lemma zero_payload_has_no_segment (e : Env) (t t' : replicateObjectTask) (evs : list Event) :
  init e t = (None, t', evs) →
  PayloadSize (objectInfo t) = 0 → 0 ≤ GetMaxSegmentSize (storageParams t') →
  segmentPieceNumber t' = O.
Proof.
  intros Hinit Hzero Hseg.
  apply init_success in Hinit as (p & sps & aps & _ & _ & _ & -> & _ & _).
  simpl in *. rewrite Hzero. unfold ComputeSegmentCount.
  destruct (decide (GetMaxSegmentSize p = 0)) as [->|Hne]; [done|].
  rewrite Z.div_small by lia. done.
Qed.

(** *** The end-to-end scenarios, evaluated *)

(** Scenario 1: EC 4+2, one segment of 256 bytes, six providers.  One round,
    every shard accepted, the object sealed, 640 bytes reserved and
    released. *)
Example happy_path_scenario :
  let e := Scenarios.env 6 None false in
  let t := (init e (Scenarios.task 256 7)).1.2 in
  reservedBytes (init e (Scenarios.task 256 7)).2 = [640] ∧
  (execute e t).2 = Returned ∧
  jobStates (execute e t).1.2 =
    [JOB_STATE_REPLICATE_OBJECT_DOING; JOB_STATE_SIGN_OBJECT_DOING;
     JOB_STATE_SEAL_OBJECT_DOING; JOB_STATE_SEAL_OBJECT_DONE] ∧
  length (filter (λ ev, isReplicateCall ev = true) (execute e t).1.2) = 12%nat ∧
  releasedBytes (execute e t).1.2 = [640].
Proof. vm_compute. by repeat split. Qed.

(** Scenario 2: seven providers, and the provider given shard 3 in the first
    round answers a wrong hash.  The second round replicates shard 3 alone to
    the seventh provider, and the object is sealed. *)
Example one_bad_secondary_scenario :
  let e := Scenarios.env 7 (Some ("d", 3%nat)) false in
  let t := (init e (Scenarios.task 256 7)).1.2 in
  (execute e t).2 = Returned ∧
  sortedSpEndpoints (execute e t).1.1 = [] ∧
  last (filter (λ ev, isReplicateCall ev = true) (execute e t).1.2) =
    Some (EvReplicateObjectPieceStream "g" 64 3) ∧
  last (jobStates (execute e t).1.2) = Some JOB_STATE_SEAL_OBJECT_DONE ∧
  releasedBytes (execute e t).1.2 = [640].
Proof. vm_compute. by repeat split. Qed.

(** The environment of the scenarios is one in which the goroutines leave
    each other alone. *)
Example scenario_env_is_undisturbed (pool : nat) (badShard : option (string * nat))
        (storeFails : bool) :
  undisturbed (Scenarios.env pool badShard storeFails) Scenarios.readyTask.
Proof.
  split_and!; try done.
  intros data ec Henc. vm_compute in Henc. injection Henc as <-.
  vm_compute. lia.
Qed.

(** The signer refuses the seal message: [execute] returns after the
    sign-error state, and the 640 bytes are released. *)
Example sign_failure_scenario :
  let e := Scenarios.faultyEnv 6 None false None true false false in
  let t := (init e (Scenarios.task 256 7)).1.2 in
  (execute e t).2 = Returned ∧
  jobStates (execute e t).1.2 =
    [JOB_STATE_REPLICATE_OBJECT_DOING; JOB_STATE_SIGN_OBJECT_DOING;
     JOB_STATE_SIGN_OBJECT_ERROR] ∧
  releasedBytes (execute e t).1.2 = [640].
Proof. vm_compute. by repeat split. Qed.

(** The chain does not confirm the seal: [execute] returns after the
    seal-error state, and the 640 bytes are released. *)
Example seal_failure_scenario :
  let e := Scenarios.faultyEnv 6 None false None false true false in
  let t := (init e (Scenarios.task 256 7)).1.2 in
  (execute e t).2 = Returned ∧
  jobStates (execute e t).1.2 =
    [JOB_STATE_REPLICATE_OBJECT_DOING; JOB_STATE_SIGN_OBJECT_DOING;
     JOB_STATE_SEAL_OBJECT_DOING; JOB_STATE_SEAL_OBJECT_ERROR] ∧
  releasedBytes (execute e t).1.2 = [640].
Proof. vm_compute. by repeat split. Qed.

(** Scenario 1 again, but the runtime finds the map write of the second
    goroutine that succeeds under way together with another: the process
    ends inside the first round, [execute] never returns and the 640 bytes
    are not released. *)
Example racing_map_writes_scenario :
  let e := Scenarios.faultyEnv 6 None false None false false true in
  let t := (init e (Scenarios.task 256 7)).1.2 in
  reservedBytes (init e (Scenarios.task 256 7)).2 = [640] ∧
  (execute e t).2 = Panicked ∧
  jobStates (execute e t).1.2 = [JOB_STATE_REPLICATE_OBJECT_DOING] ∧
  length (filter (λ ev, isReplicateCall ev = true) (execute e t).1.2) = 4%nat ∧
  releasedBytes (execute e t).1.2 = [].
Proof. vm_compute. by repeat split. Qed.

(** Seven providers, and no gateway client can be made for the third.  The
    goroutine that is handed it (the one of shard 5) returns without a read
    on its pipe; the producer, having written the pieces of shards 4 and 2,
    stays in the write on pipe 5 and closes nothing; the five other
    goroutines wait in their gateway calls for pipes that are never closed,
    and [wg.Wait()] with them.  [execute] never returns and the 640 bytes
    are not released. *)
Example unread_pipe_scenario :
  let e := Scenarios.faultyEnv 7 None false (Some "c") false false false in
  let t := (init e (Scenarios.task 256 7)).1.2 in
  reservedBytes (init e (Scenarios.task 256 7)).2 = [640] ∧
  (execute e t).1.2 !! 1%nat =
    Some (EvProduce [PGetPiece 0; PPublishPieceSize 64;
                     PWrite 4 (repeat Byte.x00 64); PWrite 2 (repeat Byte.x00 64);
                     PBlocked 5]) ∧
  (execute e t).2 = Hung ∧
  gatewayClients (execute e t).1.2 = ["a"; "b"; "c"; "d"; "e"; "f"] ∧
  jobStates (execute e t).1.2 = [JOB_STATE_REPLICATE_OBJECT_DOING] ∧
  releasedBytes (execute e t).1.2 = [].
Proof. vm_compute. by repeat split. Qed.

End TaskNodeFacts.

(* ===================================================================== *)
(** ** More about the task queue                                          *)
(* ===================================================================== *)

Module TaskQueueCoverage.
Import TaskQueue TaskQueueFacts.

Section Coverage.

Context {Task Limit : Type}.
Variable Key : Task → string.
Variable EstimateLimit : Task → Limit.
Variable NotLess : Limit → Limit → bool.

Implicit Types (t : GfSpTQueueWithLimit Task) (task : Task).

Local Abbreviation reachableQ := (reachable Key EstimateLimit NotLess).
Local Abbreviation PopLimit := (PopByLimit Key EstimateLimit NotLess).
Local Abbreviation TopLimit := (TopByLimit EstimateLimit NotLess).
Local Abbreviation eligibleQ := (eligible EstimateLimit NotLess).

(** X1.  On every queue a client can build (new, then pushes, pops by key or
    by limit and strategy changes in any order) the slice and the indexer
    have the same number of entries. *)
Theorem reachable_lengths_agree t :
  reachable Key EstimateLimit NotLess t → lengths_agree t.
Proof.
  induction 1 as [name cap|t task _ IH|t key _ IH|t limit _ IH|t f _ IH|t f _ IH].
  - done.
  - by apply (Push_lengths_agree Key).
  - by apply (PopByKey_lengths_agree Key).
  - by apply (PopByLimit_lengths_agree Key EstimateLimit NotLess).
  - done.
  - done.
Qed.

Lemma absent_of_not_Has t key :
  Has t key = false → indexer t !! key = None.
Proof.
  unfold Has. intros H%bool_decide_eq_false.
  destruct (indexer t !! key) eqn:E; [|done]. exfalso. apply H. eauto.
Qed.

Lemma Push_closed_form t task :
  Push Key t task =
  if Has t (Key task) then (t, Some RepeatedTask)
  else if exceed t then
         match gcFunc t with
         | Some gc => if existsb gc (tasks t) then (add Key t task, None)
                      else (t, Some QueueExceed)
         | None => (t, Some QueueExceed)
         end
       else (add Key t task, None).
Proof.
  destruct (Has t (Key task)) eqn:Hhas.
  - unfold Push. unfold Has in Hhas. by rewrite Hhas.
  - pose proof (absent_of_not_Has _ _ Hhas) as Habs.
    destruct (exceed t) eqn:Hfull.
    + destruct (gcFunc t) as [gc|] eqn:Hgc.
      * by apply Push_full_retire.
      * unfold Push. unfold Has in Hhas. by rewrite Hhas, Hfull, Hgc.
    + unfold Push. unfold Has in Hhas. by rewrite Hhas, Hfull.
Qed.

(** X2.  [Push] never removes a task, with or without a retire strategy: the
    slice afterwards is the old slice, or the old slice with the new task
    appended, and it is the old slice exactly when an error is returned.
    The push is refused for a key already indexed, and on a full queue when
    there is no retire strategy or the strategy retires none of the present
    tasks. *)
Theorem Push_never_removes t task :
  (tasks (Push Key t task).1 = tasks t ∨
   tasks (Push Key t task).1 = tasks t ++ [task]) ∧
  ((Push Key t task).2 = None ↔ tasks (Push Key t task).1 = tasks t ++ [task]) ∧
  ((Push Key t task).2 = Some RepeatedTask ↔ Has t (Key task) = true) ∧
  ((Push Key t task).2 = Some QueueExceed ↔
   Has t (Key task) = false ∧ exceed t = true ∧
   from_option (λ gc, existsb gc (tasks t)) false (gcFunc t) = false).
Proof.
  rewrite Push_closed_form.
  assert (tasks t ≠ tasks t ++ [task]) as Hne.
  { intros Heq. apply (f_equal length) in Heq. rewrite length_app in Heq. simpl in Heq. lia. }
  destruct (Has t (Key task)); [|destruct (exceed t);
    [destruct (gcFunc t) as [gc|]; [simpl; destruct (existsb gc (tasks t))|]|]];
    simpl; split_and!; try (by left); try (by right); split; try done;
    try (intros (? & ? & ?); done); try (intros [? ?]; done);
    try (intros H; by symmetry in H).
Qed.

(** The invariant behind the capacity bound: no retire strategy, and the
    length within the capacity. *)
Lemma step_within_cap t (op : Op Task Limit) :
  gcFunc t = None → Z.of_nat (length (tasks t)) ≤ Z.max 0 (cap t) →
  gcFunc (step Key EstimateLimit NotLess t op) = None ∧
  cap (step Key EstimateLimit NotLess t op) = cap t ∧
  Z.of_nat (length (tasks (step Key EstimateLimit NotLess t op))) ≤ Z.max 0 (cap t).
Proof.
  intros Hgc Hlen.
  assert (∀ tk, gcFunc (delete Key t tk) = None ∧ cap (delete Key t tk) = cap t ∧
                Z.of_nat (length (tasks (delete Key t tk))) ≤ Z.max 0 (cap t)) as Hdel.
  { intros tk. unfold delete. destruct (indexer t !! Key tk) as [idx|]; [|done].
    case_bool_decide; [done|]. simpl. split_and!; [done|done|].
    rewrite length_app, length_take, length_drop. lia. }
  destruct op as [task|key|limit]; simpl.
  - rewrite Push_closed_form, Hgc.
    destruct (Has t (Key task)); [done|].
    destruct (exceed t) eqn:Hfull; [done|]. simpl.
    unfold exceed in Hfull. apply bool_decide_eq_false in Hfull.
    rewrite length_app. simpl. split_and!; [done|done|lia].
  - unfold PopByKey. destruct (indexer t !! key); [|done].
    destruct (tasks t !! n); [|done]. apply Hdel.
  - unfold PopByLimit.
    destruct (if bool_decide _ then _ else _) as [ret [tk|]]; [|done]. apply Hdel.
Qed.

(** X3.  A queue that never gets a retire strategy stays within its capacity:
    after any sequence of pushes and pops on a new queue, with or without a
    filter, the length is at most the capacity (and zero when the capacity
    is not positive). *)
Theorem run_within_cap (ops : list (Op Task Limit)) (name : string) (c : Z)
        (filter : option (Task → bool)) :
  Z.of_nat (Len (run Key EstimateLimit NotLess ops (mkQueue name [] ∅ c None filter)))
  ≤ Z.max 0 c.
Proof.
  assert (∀ ops t, gcFunc t = None → Z.of_nat (length (tasks t)) ≤ Z.max 0 (cap t) →
                   Z.of_nat (length (tasks (run Key EstimateLimit NotLess ops t)))
                   ≤ Z.max 0 (cap t)) as Hrun.
  { clear. induction ops as [|op ops IH]; intros t Hgc Hlen; [done|].
    simpl. destruct (step_within_cap t op Hgc Hlen) as (Hgc' & Hcap' & Hlen').
    rewrite <- Hcap'. apply IH; [done|by rewrite Hcap']. }
  apply (Hrun ops (mkQueue name [] ∅ c None filter)); simpl; [done|lia].
Qed.

Lemma topScan_spec t limit n :
  (n ≤ length (tasks t))%nat →
  match topScan EstimateLimit NotLess t limit n with
  | Some task =>
      ∃ i, (i < n)%nat ∧ tasks t !! i = Some task ∧ eligibleQ t limit task = true ∧
           ∀ j task', (i < j < n)%nat → tasks t !! j = Some task' →
                      eligibleQ t limit task' = false
  | None =>
      ∀ j task', (j < n)%nat → tasks t !! j = Some task' → eligibleQ t limit task' = false
  end.
Proof.
  induction n as [|n IH]; intros Hn; simpl.
  - intros j task' Hj. lia.
  - destruct (tasks t !! n) as [tk|] eqn:Hl.
    2:{ apply lookup_ge_None in Hl. lia. }
    destruct (eligibleQ t limit tk) eqn:Hel.
    + exists n. split_and!; [lia|done|done|]. intros j task' Hj. lia.
    + specialize (IH ltac:(lia)).
      destruct (topScan EstimateLimit NotLess t limit n) as [task|].
      * destruct IH as (i & Hi & Hli & Heli & Hnewer).
        exists i. split_and!; [lia|done|done|].
        intros j task' Hj Hlj. destruct (decide (j = n)) as [->|Hne].
        -- congruence.
        -- apply (Hnewer j task'); [lia|done].
      * intros j task' Hj Hlj. destruct (decide (j = n)) as [->|Hne].
        -- congruence.
        -- apply (IH j task'); [lia|done].
Qed.

Lemma TopByLimit_spec t limit :
  match TopLimit t limit with
  | Some task =>
      ∃ i, tasks t !! i = Some task ∧ eligibleQ t limit task = true ∧
           ∀ j task', (i < j)%nat → tasks t !! j = Some task' →
                      eligibleQ t limit task' = false
  | None => Forall (λ task, eligibleQ t limit task = false) (tasks t)
  end.
Proof.
  unfold TopByLimit. case_bool_decide as Hempty.
  - apply length_zero_iff_nil in Hempty. rewrite Hempty. constructor.
  - pose proof (topScan_spec t limit (length (tasks t)) ltac:(lia)) as Hspec.
    destruct (topScan EstimateLimit NotLess t limit (length (tasks t))) as [task|].
    + destruct Hspec as (i & Hi & Hli & Heli & Hnewer).
      exists i. split_and!; [done|done|].
      intros j task' Hj Hlj. apply (Hnewer j task'); [|done].
      apply lookup_lt_Some in Hlj. lia.
    + apply Forall_forall. intros task (j & Hlj)%list_elem_of_lookup.
      apply (Hspec j task); [|done]. by apply lookup_lt_Some in Hlj.
Qed.

(** X4.  [TopByLimit] answers the newest eligible task: the task it returns
    stands in the queue, is within the limit and passes the filter (when one
    is set), and every task behind it in the slice is not eligible; it
    answers nil exactly when no task of the queue is eligible. *)
Theorem TopByLimit_newest_eligible t limit :
  match TopLimit t limit with
  | Some task =>
      ∃ i, tasks t !! i = Some task ∧ eligibleQ t limit task = true ∧
           ∀ j task', (i < j)%nat → tasks t !! j = Some task' →
                      eligibleQ t limit task' = false
  | None => Forall (λ task, eligibleQ t limit task = false) (tasks t)
  end.
Proof. exact (TopByLimit_spec t limit). Qed.

(** X5.  [PopByLimit] returns what [TopByLimit] would return on the same
    queue and limit. *)
Theorem PopByLimit_returns_TopByLimit t limit :
  (PopByLimit Key EstimateLimit NotLess t limit).2 = TopByLimit EstimateLimit NotLess t limit.
Proof.
  unfold PopByLimit, TopByLimit. case_bool_decide; [done|].
  pose proof (popScan_topScan EstimateLimit NotLess t limit (length (tasks t)) None) as Hsel.
  destruct (popScan _ _ _ _ _ _) as [ret var]. exact Hsel.
Qed.

(** [add] of a fresh key keeps the slice and the indexer describing each
    other. *)
Lemma add_exactIndex t task :
  indexer t !! Key task = None → exactIndex Key t → exactIndex Key (add Key t task).
Proof.
  intros Habs [[Hlen Hsound] Hback]. split; [split|].
  - by apply add_lengths_agree.
  - intros k i Hk. unfold add in *. simpl in *.
    rewrite length_app in Hk. simpl in Hk.
    replace (length (tasks t) + 1 - 1)%nat with (length (tasks t)) in Hk by lia.
    destruct (decide (Key task = k)) as [<-|Hne].
    + rewrite lookup_insert_eq in Hk. injection Hk as <-.
      exists task. split; [|done]. by rewrite lookup_app_r, Nat.sub_diag.
    + rewrite lookup_insert_ne in Hk by done.
      destruct (Hsound k i Hk) as (tk & Hl & Hkey).
      exists tk. split; [|done]. rewrite lookup_app_l; [done|].
      by apply lookup_lt_Some in Hl.
  - intros i tk Hl. unfold add in *. simpl in *.
    rewrite length_app. simpl.
    replace (length (tasks t) + 1 - 1)%nat with (length (tasks t)) by lia.
    destruct (decide (i < length (tasks t))%nat) as [Hlt|Hge].
    + rewrite lookup_app_l in Hl by done.
      pose proof (Hback i tk Hl) as Hix.
      rewrite lookup_insert_ne; [done|]. intros Heq. congruence.
    + rewrite lookup_app_r in Hl by lia.
      destruct (i - length (tasks t))%nat eqn:Hd; simpl in Hl; [|done].
      injection Hl as <-. rewrite lookup_insert_eq. f_equal. lia.
Qed.

Lemma Push_exactIndex t task :
  exactIndex Key t → exactIndex Key (Push Key t task).1.
Proof.
  intros Hex. rewrite Push_closed_form.
  destruct (Has t (Key task)) eqn:Hhas; [done|].
  pose proof (absent_of_not_Has _ _ Hhas) as Habs.
  destruct (exceed t); [|by apply add_exactIndex].
  destruct (gcFunc t) as [gc|]; [|done].
  destruct (existsb gc (tasks t)); [by apply add_exactIndex|done].
Qed.

(** X6.  [Push] keeps the slice and the indexer describing each other: on a
    queue where I3 holds and every task is indexed at its position, the same
    is true after a push, whether it succeeds or is refused. *)
Theorem Push_keeps_exactIndex t task :
  exactIndex Key t → exactIndex Key (Push Key t task).1.
Proof. apply Push_exactIndex. Qed.

(** X20.  A queue that has only been pushed into satisfies I3, whatever its
    capacity and strategies: after any sequence of pushes on a new queue the
    lengths agree, every indexed key points at the task with that key, and
    every task is indexed at its position. *)
Theorem pushes_keep_I3 (pushed : list Task) (name : string) (c : Z)
        (retire filter : option (Task → bool)) :
  let t := run Key EstimateLimit NotLess (map OpPush pushed)
               (mkQueue name [] ∅ c retire filter) in
  I3 Key t ∧ exactIndex Key t.
Proof.
  cbv zeta.
  assert (∀ ops t, exactIndex Key t →
                   exactIndex Key (run Key EstimateLimit NotLess (map OpPush ops) t)) as Hrun.
  { clear. induction ops as [|task ops IH]; intros t Hex; [done|].
    simpl. apply IH. by apply Push_exactIndex. }
  assert (exactIndex Key (mkQueue name [] ∅ c retire filter)) as Hnew.
  { split; [split|]; [done| |].
    - intros k i Hk. simpl in Hk. by rewrite lookup_empty in Hk.
    - intros i task Hl. simpl in Hl. by rewrite lookup_nil in Hl. }
  pose proof (Hrun pushed _ Hnew) as Hex. split; [apply Hex|exact Hex].
Qed.

(** X7.  [PopByKey] of a key that is not indexed returns nil and leaves the
    queue as it is, whatever the state of the queue; so does [PopByKey] of a
    key whose index entry points past the end of the slice.  On a queue
    whose index points at tasks with the right keys, [PopByKey] of an
    indexed key returns the task with that key, the slice loses exactly the
    element at the indexed position, [Len] drops by one and the key is no
    longer in the queue. *)
Theorem PopByKey_removes_indexed t key :
  (Has t key = false → PopByKey Key t key = (t, None)) ∧
  (∀ i, indexer t !! key = Some i → (length (tasks t) ≤ i)%nat →
        PopByKey Key t key = (t, None)) ∧
  (index_sound Key t →
   ∀ i, indexer t !! key = Some i →
        ∃ task, (PopByKey Key t key).2 = Some task ∧ Key task = key ∧
                tasks t !! i = Some task ∧
                tasks (PopByKey Key t key).1 = take i (tasks t) ++ drop (S i) (tasks t) ∧
                Len (PopByKey Key t key).1 = (Len t - 1)%nat ∧
                Has (PopByKey Key t key).1 key = false).
Proof.
  split_and!.
  - intros Hhas%absent_of_not_Has. unfold PopByKey. by rewrite Hhas.
  - intros i Hi Hout. unfold PopByKey. rewrite Hi.
    by rewrite (proj2 (lookup_ge_None (tasks t) i) Hout).
  - intros Hsound i Hi. destruct (Hsound key i Hi) as (task & Hl & Hkey).
    exists task. unfold PopByKey. rewrite Hi, Hl. simpl.
    unfold delete. rewrite Hkey, Hi.
    pose proof (lookup_lt_Some _ _ _ Hl) as Hlt.
    rewrite bool_decide_eq_false_2 by lia. simpl.
    split_and!; try done.
    + unfold Len. simpl. rewrite length_app, length_take, length_drop. lia.
    + unfold Has. simpl. rewrite lookup_delete_eq.
      apply bool_decide_eq_false_2. by intros [? ?].
Qed.

(** X8.  Pushing a task with a fresh key into a queue that is not full and
    popping it again by its key gives back the task and the queue as it was
    before the push. *)
Theorem Push_PopByKey_round_trip t task :
  Has t (Key task) = false → exceed t = false →
  (Push Key t task).2 = None ∧
  PopByKey Key (Push Key t task).1 (Key task) = (t, Some task).
Proof.
  intros Hhas Hroom. rewrite Push_closed_form, Hhas, Hroom. simpl.
  split; [done|].
  pose proof (absent_of_not_Has _ _ Hhas) as Habs.
  unfold PopByKey, add. simpl.
  rewrite lookup_insert_eq, length_app. simpl.
  replace (length (tasks t) + 1 - 1)%nat with (length (tasks t)) by lia.
  rewrite lookup_app_r, Nat.sub_diag by lia. simpl.
  unfold delete. simpl. rewrite lookup_insert_eq.
  rewrite bool_decide_eq_false_2 by (rewrite length_app; simpl; lia).
  unfold set_tasks. simpl.
  rewrite take_app_length.
  rewrite drop_ge by (rewrite length_app; simpl; lia).
  rewrite app_nil_r, delete_insert_id by done.
  by destruct t.
Qed.

Lemma popScan_found t limit n (var : option Task) task :
  (popScan EstimateLimit NotLess t limit n var).1 = Some task →
  (popScan EstimateLimit NotLess t limit n var).2 = Some task.
Proof.
  revert var. induction n as [|n IH]; intros var; simpl; [done|].
  destruct (tasks t !! n) as [tk|]; [|done].
  destruct (eligibleQ t limit tk); [by intros [= <-]|]. apply IH.
Qed.

(** X21.  On a queue whose slice and indexer describe each other, a
    [PopByLimit] that finds an eligible task returns the task [TopByLimit]
    selects and removes that task and no other: the slice loses exactly the
    position the task stood at, the queue is one shorter and no longer has
    the key. *)
Theorem PopByLimit_removes_selected t limit task :
  exactIndex Key t → TopLimit t limit = Some task →
  PopLimit t limit = (delete Key t task, Some task) ∧
  ∃ i, tasks t !! i = Some task ∧
       tasks (PopLimit t limit).1 = take i (tasks t) ++ drop (S i) (tasks t) ∧
       Len (PopLimit t limit).1 = (Len t - 1)%nat ∧
       Has (PopLimit t limit).1 (Key task) = false.
Proof.
  intros [_ Hback] Htop.
  pose proof (TopByLimit_spec t limit) as Hspec. rewrite Htop in Hspec.
  destruct Hspec as (i & Hl & _ & _).
  assert (PopLimit t limit = (delete Key t task, Some task)) as Hpop.
  { unfold TopByLimit in Htop. unfold PopByLimit.
    destruct (bool_decide (length (tasks t) = 0%nat)); [done|].
    pose proof (popScan_topScan EstimateLimit NotLess t limit (length (tasks t)) None)
      as Hsel.
    pose proof (popScan_found t limit (length (tasks t)) None task) as Hvar.
    destruct (popScan _ _ _ _ _ _) as [ret var]. simpl in *.
    rewrite Hsel, Htop in *. by rewrite (Hvar eq_refl). }
  split; [exact Hpop|]. exists i. rewrite Hpop. simpl.
  unfold delete. rewrite (Hback i task Hl).
  pose proof (lookup_lt_Some _ _ _ Hl) as Hlt.
  rewrite bool_decide_eq_false_2 by lia. simpl. split_and!; try done.
  - unfold Len. simpl. rewrite length_app, length_take, length_drop. lia.
  - unfold Has. simpl. rewrite lookup_delete_eq.
    apply bool_decide_eq_false_2. by intros [? ?].
Qed.

(** X9.  A [PopByLimit] that finds no eligible task on a non-empty queue
    returns nil, yet deletes the oldest task: its deferred function deletes
    the last task the scan looked at. *)
Theorem PopByLimit_without_match_deletes_oldest t limit a l :
  tasks t = a :: l →
  Forall (λ task, eligibleQ t limit task = false) (tasks t) →
  PopLimit t limit = (delete Key t a, None).
Proof.
  intros Ht Hnone. apply (PopByLimit_none_deletes_head Key EstimateLimit NotLess t limit a l Ht).
  pose proof (TopByLimit_spec t limit) as Hspec.
  destruct (TopLimit t limit) as [task|]; [|done].
  destruct Hspec as (i & Hl & Hel & _).
  assert (eligibleQ t limit task = false) as Hno.
  { eapply Forall_lookup_1 in Hnone; [exact Hnone|exact Hl]. }
  congruence.
Qed.

End Coverage.

Lemma reachable_lengths_agree_witness :
  reachable tkey tcost simpleNotLess afterPopA ∧ lengths_agree afterPopA.
Proof.
  assert (reachable tkey tcost simpleNotLess afterPopA) as Hreach.
  { apply (reach_PopByKey tkey tcost simpleNotLess _ "A").
    apply (reach_Push tkey tcost simpleNotLess _ taskB).
    apply (reach_Push tkey tcost simpleNotLess _ taskA).
    apply reach_new. }
  split; [exact Hreach|].
  apply (reachable_lengths_agree tkey tcost simpleNotLess afterPopA Hreach).
Defined.

Lemma exactIndex_new (name : string) (c : Z) :
  exactIndex tkey (NewGfSpTQueueWithLimit (Task:=SimpleTask) name c).
Proof.
  split; [split|]; [done| |].
  - intros k i Hk. simpl in Hk. by rewrite lookup_empty in Hk.
  - intros i task Hl. simpl in Hl. by rewrite lookup_nil in Hl.
Qed.

Lemma Push_keeps_exactIndex_witness :
  exactIndex tkey (emptyQ 2) ∧ exactIndex tkey (Push tkey (emptyQ 2) taskA).1.
Proof.
  split; [apply exactIndex_new|].
  apply (Push_keeps_exactIndex tkey (emptyQ 2) taskA). apply exactIndex_new.
Defined.

Lemma index_sound_onlyA : index_sound tkey onlyA.
Proof.
  apply (Push_exactIndex tkey (emptyQ 2) taskA). apply exactIndex_new.
Qed.

Lemma PopByKey_removes_indexed_witness :
  (Has afterPopA "A" = false ∧ PopByKey tkey afterPopA "A" = (afterPopA, None)) ∧
  (indexer afterPopA !! "B" = Some 1%nat ∧ (length (tasks afterPopA) ≤ 1)%nat ∧
   PopByKey tkey afterPopA "B" = (afterPopA, None)) ∧
  (index_sound tkey onlyA ∧ indexer onlyA !! "A" = Some O ∧
   ∃ task, (PopByKey tkey onlyA "A").2 = Some task ∧ tkey task = "A" ∧
           tasks onlyA !! O = Some task ∧
           tasks (PopByKey tkey onlyA "A").1 =
             take O (tasks onlyA) ++ drop 1 (tasks onlyA) ∧
           Len (PopByKey tkey onlyA "A").1 = (Len onlyA - 1)%nat ∧
           Has (PopByKey tkey onlyA "A").1 "A" = false).
Proof.
  split_and!.
  - vm_compute; reflexivity.
  - apply (proj1 (PopByKey_removes_indexed tkey afterPopA "A")). vm_compute; reflexivity.
  - vm_compute; reflexivity.
  - vm_compute; lia.
  - apply (proj1 (proj2 (PopByKey_removes_indexed tkey afterPopA "B")) 1%nat);
      [vm_compute; reflexivity|vm_compute; lia].
  - apply index_sound_onlyA.
  - vm_compute; reflexivity.
  - apply (proj2 (proj2 (PopByKey_removes_indexed tkey onlyA "A")) index_sound_onlyA O).
    vm_compute; reflexivity.
Defined.

Lemma PopByLimit_removes_selected_witness :
  exactIndex tkey onlyA ∧ TopByLimit tcost simpleNotLess onlyA 1 = Some taskA ∧
  PopByLimit tkey tcost simpleNotLess onlyA 1 = (delete tkey onlyA taskA, Some taskA) ∧
  ∃ i, tasks onlyA !! i = Some taskA ∧
       tasks (PopByLimit tkey tcost simpleNotLess onlyA 1).1 =
         take i (tasks onlyA) ++ drop (S i) (tasks onlyA) ∧
       Len (PopByLimit tkey tcost simpleNotLess onlyA 1).1 = (Len onlyA - 1)%nat ∧
       Has (PopByLimit tkey tcost simpleNotLess onlyA 1).1 (tkey taskA) = false.
Proof.
  assert (exactIndex tkey onlyA) as Hex.
  { apply (Push_exactIndex tkey (emptyQ 2) taskA). apply exactIndex_new. }
  split; [exact Hex|]. split; [vm_compute; reflexivity|].
  apply (PopByLimit_removes_selected tkey tcost simpleNotLess onlyA 1 taskA Hex).
  vm_compute; reflexivity.
Defined.

Lemma Push_PopByKey_round_trip_witness :
  Has onlyA (tkey taskB) = false ∧ exceed onlyA = false ∧
  (Push tkey onlyA taskB).2 = None ∧
  PopByKey tkey (Push tkey onlyA taskB).1 (tkey taskB) = (onlyA, Some taskB).
Proof.
  split; [vm_compute; reflexivity|]. split; [vm_compute; reflexivity|].
  apply (Push_PopByKey_round_trip tkey onlyA taskB); vm_compute; reflexivity.
Defined.

Lemma PopByLimit_without_match_deletes_oldest_witness :
  tasks fullAB = taskA :: [taskB] ∧
  Forall (λ task, eligible tcost simpleNotLess fullAB 0 task = false) (tasks fullAB) ∧
  PopByLimit tkey tcost simpleNotLess fullAB 0 = (delete tkey fullAB taskA, None).
Proof.
  assert (Forall (λ task, eligible tcost simpleNotLess fullAB 0 task = false) (tasks fullAB))
    as Hnone by (repeat constructor).
  split; [reflexivity|]. split; [exact Hnone|].
  apply (PopByLimit_without_match_deletes_oldest tkey tcost simpleNotLess fullAB 0
           taskA [taskB]); [reflexivity|exact Hnone].
Defined.

End TaskQueueCoverage.

(* ===================================================================== *)
(** ** More about the replicate-object task                               *)
(* ===================================================================== *)

Module TaskNodeCoverage.
Import TaskNode TaskNodeFacts.

(** *** The producer *)

(** X10.  The producer goroutine ends in one of three ways, and what it has
    closed by then goes with the way it ends.  When it returns, it has
    closed every pipe of its group exactly once, no pipe twice (without an
    error when every segment was fetched and encoded, all with the error as
    soon as one was not), and the piece-size channel once, as its last act.
    When it stays in a [Write] on a pipe whose reader does not take the
    piece, it has closed no pipe and not the channel.  When it panics on a
    missing shard, it has closed no pipe, and the deferred close has closed
    the channel. *)
Theorem producer_closes_all_pipes_or_none
        (e : Env) (round : nat) (t : replicateObjectTask) (sg : streamReaderGroup) :
  let trace := producerTrace e round t sg in
  let produced := leadingProduced e round t (seq 0 (segmentPieceNumber t)) in
  NoDup (groupIndices sg) ∧
  match producerEnds trace with
  | ProducerReturned =>
      closedPipes trace = groupIndices sg ∧
      cleanlyClosedPipes trace =
        (if bool_decide (produced = segmentPieceNumber t) then groupIndices sg else []) ∧
      channelCloses trace = 1%nat ∧ last trace = Some PCloseChannel
  | ProducerBlocked idx =>
      idx ∈ groupIndices sg ∧
      (∃ seg, (seg < segmentPieceNumber t)%nat ∧
              writeReturns e round t sg seg idx = false) ∧
      closedPipes trace = [] ∧ channelCloses trace = O ∧
      last trace = Some (PBlocked idx)
  | ProducerPanicked idx =>
      closedPipes trace = [] ∧ channelCloses trace = 1%nat ∧
      last trace = Some PCloseChannel
  end.
Proof.
  intros trace produced. subst trace produced. unfold producerTrace.
  split; [apply groupIndices_NoDup|].
  destruct (produceLoop_read e round t sg (seq 0 (segmentPieceNumber t)) false)
    as (_ & _ & Hend).
  rewrite length_seq in Hend.
  destruct (producerEnds _).
  - destruct Hend as (C1 & C2 & C3 & C4 & _). done.
  - destruct Hend as (C1 & (seg & Hseg%elem_of_seq & Hret) & C3 & C4 & C5).
    split_and!; try done. exists seg. split; [lia|done].
  - done.
Qed.

(** X11.  The producer writes at most one piece per produced segment into
    the pipe of an active shard: the number of its writes into that pipe
    never exceeds the number of segments it got through before the first one
    it could not fetch or encode, nor the segment count; and when the
    goroutine returns, the two numbers are equal, so that a run that returns
    with every segment produced has written every segment into every
    pipe. *)
Theorem producer_writes_one_piece_per_segment
        (e : Env) (round : nat) (t : replicateObjectTask) (sg : streamReaderGroup)
        (idx : nat) :
  idx ∈ groupIndices sg →
  let trace := producerTrace e round t sg in
  let produced := leadingProduced e round t (seq 0 (segmentPieceNumber t)) in
  (length (writesTo idx trace) ≤ produced)%nat ∧
  (produced ≤ segmentPieceNumber t)%nat ∧
  (producerEnds trace = ProducerReturned → length (writesTo idx trace) = produced) ∧
  (producerEnds trace = ProducerReturned →
   forallb (segmentProduced e round t) (seq 0 (segmentPieceNumber t)) = true →
   length (writesTo idx trace) = segmentPieceNumber t).
Proof.
  intros Hin trace produced. subst trace produced. unfold producerTrace.
  destruct (produceLoop_read e round t sg (seq 0 (segmentPieceNumber t)) false)
    as (Hle & Hwrites & Hend).
  rewrite length_seq in Hle.
  assert (producerEnds (produceLoop e round t sg (seq 0 (segmentPieceNumber t)) false) =
            ProducerReturned →
          length (writesTo idx (produceLoop e round t sg (seq 0 (segmentPieceNumber t)) false))
          = leadingProduced e round t (seq 0 (segmentPieceNumber t))) as Heq.
  { intros Hret. rewrite Hret in Hend. destruct Hend as (_ & _ & _ & _ & Hall).
    by apply Hall. }
  split_and!; [by apply Hwrites|done|done|].
  intros Hret Hall. rewrite (Heq Hret).
  assert (∀ segs, forallb (segmentProduced e round t) segs = true →
                  leadingProduced e round t segs = length segs) as Hfull.
  { clear. induction segs as [|seg segs IH]; [done|]. simpl.
    intros [Hseg Hall]%andb_true_iff. rewrite Hseg. f_equal. by apply IH. }
  by rewrite (Hfull _ Hall), length_seq.
Qed.

(** *** The stream reader group *)

Lemma groupInner_dom (ex : gmap nat bool) (l : list nat) (acc : groupAcc) :
  let acc' := foldl (groupInner ex) acc l in
  (∀ i, is_Some (acc'.1.1 !! i) ↔ is_Some (acc.1.1 !! i) ∨ (i ∈ l ∧ included ex i)) ∧
  (acc'.1.2 = true ↔ acc.1.2 = true ∨ ∃ i, i ∈ l ∧ included ex i).
Proof.
  cbv zeta. revert acc. induction l as [|idx l IH]; intros acc.
  - simpl. split.
    + intros i. split; [by left|]. intros [?|[Hin _]]; [done|by apply elem_of_nil in Hin].
    + split; [by left|]. intros [?|(i & Hin & _)]; [done|by apply elem_of_nil in Hin].
  - simpl. destruct (IH (groupInner ex acc idx)) as [Hdom Hflag].
    destruct acc as [[m b] made]. unfold groupInner in *. unfold included in *.
    destruct (default false (ex !! idx)) eqn:Hex; simpl in *.
    + split.
      * intros i. rewrite Hdom. split.
        -- intros [?|[Hin Hi]]; [by left|right; split; [by right|done]].
        -- intros [?|[Hin Hi]]; [by left|].
           apply elem_of_cons in Hin as [->|Hin]; [congruence|by right].
      * rewrite Hflag. split.
        -- intros [?|(i & Hin & Hi)]; [by left|right; exists i; split; [by right|done]].
        -- intros [?|(i & Hin & Hi)]; [by left|].
           apply elem_of_cons in Hin as [->|Hin]; [congruence|right; eauto].
    + split.
      * intros i. rewrite Hdom. split.
        -- intros [Hm|[Hin Hi]].
           ++ destruct (decide (idx = i)) as [->|Hne].
              ** right. split; [by left|done].
              ** rewrite lookup_insert_ne in Hm by done. by left.
           ++ right. split; [by right|done].
        -- intros [Hm|[Hin Hi]].
           ++ left. destruct (decide (idx = i)) as [->|Hne].
              ** rewrite lookup_insert_eq. eauto.
              ** by rewrite lookup_insert_ne.
           ++ apply elem_of_cons in Hin as [->|Hin].
              ** left. rewrite lookup_insert_eq. eauto.
              ** by right.
      * rewrite Hflag. split; [|intros _; by left].
        intros _. right. exists idx. split; [by left|done].
Qed.

Lemma groupOuter_dom (t : replicateObjectTask) (ex : gmap nat bool) (segs : list nat)
      (acc : groupAcc) :
  let acc' := foldl (groupOuter t ex) acc segs in
  let fresh i := segs ≠ [] ∧ (i < redundancyNumber t)%nat ∧ included ex i in
  (∀ i, is_Some (acc'.1.1 !! i) ↔ is_Some (acc.1.1 !! i) ∨ fresh i) ∧
  (acc'.1.2 = true ↔ acc.1.2 = true ∨ ∃ i, fresh i).
Proof.
  cbv zeta. revert acc. induction segs as [|seg segs IH]; intros acc.
  - simpl. split.
    + intros i. split; [by left|]. intros [?|[? _]]; done.
    + split; [by left|]. intros [?|(i & ? & _)]; done.
  - simpl. destruct (IH (groupOuter t ex acc seg)) as [Hdom Hflag].
    unfold groupOuter in *.
    destruct (groupInner_dom ex (seq 0 (redundancyNumber t)) acc) as [Hd1 Hf1].
    split.
    + intros i. rewrite Hdom, Hd1. rewrite elem_of_seq. split.
      * intros [[?|[Hi Hin]]|(_ & Hi & Hin)]; [by left|right..]; split_and!; try done; lia.
      * intros [?|(_ & Hi & Hin)]; [left; by left|]. left. right. split; [lia|done].
    + rewrite Hflag, Hf1. split.
      * intros [[?|(i & Hi & Hin)]|(i & _ & Hi & Hin)]; [by left|right; exists i..].
        -- apply elem_of_seq in Hi. split_and!; try done; lia.
        -- split_and!; done.
      * intros [?|(i & _ & Hi & Hin)]; [left; by left|].
        left. right. exists i. rewrite elem_of_seq. split; [lia|done].
Qed.

Lemma newStreamReaderGroup_dom (t : replicateObjectTask) (ex : gmap nat bool) :
  (0 < segmentPieceNumber t)%nat →
  match newStreamReaderGroup t ex with
  | inl sg =>
      pieceSize sg = 0 ∧
      ∀ i, is_Some (streamReaderMap sg !! i) ↔
           (i < redundancyNumber t)%nat ∧ default false (ex !! i) = false
  | inr err =>
      err = ErrInvalidParams ∧
      ∀ i, (i < redundancyNumber t)%nat → default false (ex !! i) = true
  end.
Proof.
  intros Hseg. unfold newStreamReaderGroup.
  destruct (groupOuter_dom t ex (seq 0 (segmentPieceNumber t)) (∅, false, O)) as [Hdom Hflag].
  assert (seq 0 (segmentPieceNumber t) ≠ []) as Hne.
  { destruct (segmentPieceNumber t); [lia|done]. }
  destruct (foldl _ _ _) as [[m b] made]. simpl in *.
  destruct b.
  - split; [done|]. intros i. rewrite Hdom. unfold included. split.
    + intros [[x Hx]|(_ & ? & ?)]; [by rewrite lookup_empty in Hx|done].
    + intros [? ?]. right. done.
  - split; [done|]. intros i Hi.
    destruct (default false (ex !! i)) eqn:Hex; [done|].
    assert (false = true) as Habs; [|done].
    apply Hflag. right. exists i. done.
Qed.

(** X12.  For a task with at least one segment, [newStreamReaderGroup]
    builds a group with one stream reader for exactly the shard indices
    below the redundancy number that the exclusion map does not mark, and
    with its piece size still zero; it fails, with [ErrInvalidParams], only
    when every index below the redundancy number is excluded. *)
Theorem newStreamReaderGroup_covers_unexcluded
        (t : replicateObjectTask) (excludeIndexMap : gmap nat bool) :
  (0 < segmentPieceNumber t)%nat →
  match newStreamReaderGroup t excludeIndexMap with
  | inl sg =>
      pieceSize sg = 0 ∧
      ∀ i, is_Some (streamReaderMap sg !! i) ↔
           (i < redundancyNumber t)%nat ∧ default false (excludeIndexMap !! i) = false
  | inr err =>
      err = ErrInvalidParams ∧
      ∀ i, (i < redundancyNumber t)%nat → default false (excludeIndexMap !! i) = true
  end.
Proof. apply newStreamReaderGroup_dom. Qed.

Lemma isAllSucceed_false (t : replicateObjectTask) (m : gmap nat bool) :
  isAllSucceed t m = false →
  ∃ i, (i < redundancyNumber t)%nat ∧ default false (m !! i) = false.
Proof.
  unfold isAllSucceed. intros Hall.
  assert (∀ l : list nat, forallb (λ i, default false (m !! i)) l = false →
                          ∃ i, i ∈ l ∧ default false (m !! i) = false) as Hex.
  { clear. induction l as [|x l IH]; [done|]. simpl.
    destruct (default false (m !! x)) eqn:Hx; simpl.
    - intros (i & Hin & Hi)%IH. exists i. split; [by right|done].
    - intros _. exists x. split; [by left|done]. }
  destruct (Hex _ Hall) as (i & Hin%elem_of_seq & Hi). exists i. split; [lia|done].
Qed.

Lemma isAllSucceed_true (t : replicateObjectTask) (m : gmap nat bool) :
  isAllSucceed t m = true →
  ∀ i, (i < redundancyNumber t)%nat → m !! i = Some true.
Proof.
  unfold isAllSucceed. intros Hall i Hi.
  rewrite forallb_forall in Hall.
  specialize (Hall i). rewrite <- list_elem_of_In, elem_of_seq in Hall.
  specialize (Hall ltac:(lia)).
  destruct (m !! i) as [[|]|]; done.
Qed.

(** X13.  In the retry loop the construction of the stream reader group can
    only fail for a task without segments: when some shard has not succeeded
    yet and the task has a segment, [newStreamReaderGroup] called with the
    success map returns a group, with a reader for each shard that has not
    succeeded and for none that has. *)
Theorem unfinished_task_gets_a_group
        (t : replicateObjectTask) (succeeded : gmap nat bool) :
  isAllSucceed t succeeded = false → (0 < segmentPieceNumber t)%nat →
  ∃ sg, newStreamReaderGroup t succeeded = inl sg ∧
        (0 < size (streamReaderMap sg))%nat ∧
        ∀ i, is_Some (streamReaderMap sg !! i) ↔
             (i < redundancyNumber t)%nat ∧ succeeded !! i ≠ Some true.
Proof.
  intros Hall Hseg. pose proof (newStreamReaderGroup_dom t succeeded Hseg) as Hdom.
  destruct (isAllSucceed_false _ _ Hall) as (i0 & Hi0 & Hex0).
  destruct (newStreamReaderGroup t succeeded) as [sg|err] eqn:Hsg.
  - exists sg. destruct Hdom as [_ Hdom]. split_and!; [done| |].
    + by apply newStreamReaderGroup_ok in Hsg as (_ & ? & _).
    + intros i. rewrite Hdom. split; intros [Hi Hm]; (split; [done|]).
      * intros Heq. by rewrite Heq in Hm.
      * destruct (succeeded !! i) as [[|]|]; done.
  - destruct Hdom as [_ Hdom]. rewrite (Hdom i0 Hi0) in Hex0. done.
Qed.

(** *** init and execute *)

(** X14.  Whatever the collaborators answer, the job states one [execute]
    writes follow one of four courses: replicate-doing alone (the loop
    returned early); then sign-doing and sign-error; then sign-doing,
    seal-doing and seal-error; or sign-doing, seal-doing and seal-done.  No
    state is written twice and none after an error state. *)
Theorem execute_job_state_course (e : Env) (t : replicateObjectTask) :
  jobStates (execute e t).1.2 ∈ jobStateCourses.
Proof.
  unfold execute.
  set (st0 := mkLoop _ _ _ _). set (fuel := S _).
  pose proof (replicateLoop_frame e fuel 0 st0) as (_ & Hevs & Hbreak).
  destruct (replicateLoop e fuel 0 st0) as [[st evs] ex]. cbn [fst snd] in *.
  apply fanOut_events_quiet in Hevs as (_ & _ & Hjobs & _).
  assert (∀ id, jobStates (EvUpdateJobState id JOB_STATE_REPLICATE_OBJECT_DOING :: evs)
                = [JOB_STATE_REPLICATE_OBJECT_DOING]) as Hhead.
  { intros id. change (JOB_STATE_REPLICATE_OBJECT_DOING :: jobStates evs =
                       [JOB_STATE_REPLICATE_OBJECT_DOING]). by rewrite Hjobs. }
  unfold jobStateCourses.
  destruct ex; cbn [fst snd]; rewrite ?jobStates_app, Hhead.
  - unfold sealInfo. rewrite (Hbreak eq_refl).
    destruct (SealObjectOnChain e _); [|destruct (ListenObjectSeal e _ _ _)]; cbn.
    + rewrite !elem_of_cons. right. by left.
    + rewrite !elem_of_cons. right. right. by left.
    + rewrite !elem_of_cons. right. right. right. by left.
  - cbn. rewrite !elem_of_cons. by left.
  - rewrite !elem_of_cons. by left.
  - rewrite !elem_of_cons. by left.
  - rewrite !elem_of_cons. by left.
Qed.

(** X15.  An [init] that fails holds no memory: whichever step failed (the
    read of the storage parameters, the checksum count, the approvals or
    the reservation itself), no reservation was granted and nothing was
    released; and the approvals were asked for at most once. *)
Theorem failed_init_reserves_nothing
        (e : Env) (t t' : replicateObjectTask) (err : Error) (evs : list Event) :
  init e t = (Some err, t', evs) →
  reservedBytes evs = [] ∧ releasedBytes evs = [] ∧
  (length (List.filter isApprovalRequest evs) ≤ 1)%nat ∧
  objectInfo t' = objectInfo t.
Proof.
  unfold init. destruct (GetStorageParams e) as [p [err0|]]; simpl.
  { intros [= <- <- <-]. split_and!; try done; cbn; lia. }
  case_bool_decide.
  { intros [= <- <- <-]. split_and!; try done; cbn; lia. }
  destruct (getApproval _ _ _ _ _) as [[sps aps] [err1|]]; simpl.
  { intros [= <- <- <-]. split_and!; try done; cbn; lia. }
  case_bool_decide; simpl; destruct (ReserveMemory e _); intros [= <- <- <-];
    (split_and!; try done; cbn; lia).
Qed.

(** *** The candidate pool *)

Lemma poolShrinks_refl (t : replicateObjectTask) : poolShrinks t t.
Proof. by split_and!. Qed.

Lemma poolShrinks_trans (t1 t2 t3 : replicateObjectTask) :
  poolShrinks t1 t2 → poolShrinks t2 t3 → poolShrinks t1 t3.
Proof.
  intros (S1 & A1 & P1) (S2 & A2 & P2). split_and!.
  - by etrans.
  - by etrans.
  - by etrans.
Qed.

Lemma pickSp_shrinks (t t' : replicateObjectTask) sp approval :
  pickSp t = PickOk sp approval t' → poolShrinks t t'.
Proof.
  unfold pickSp. case_bool_decide; [done|].
  destruct (sortedSpEndpoints t) as [|endpoint rest] eqn:Heps; [done|].
  intros [= <- <- <-]. unfold poolShrinks. simpl. rewrite Heps. split_and!.
  - by apply suffix_cons_r.
  - apply delete_subseteq.
  - apply delete_subseteq.
Qed.

Lemma replicator_shrinks (e : Env) (round : nat) (ptrace : list ProducerEvent)
      (sg : streamReaderGroup) (st : loopState) (rIdx : nat) (wrote : bool) :
  poolShrinks (lTask st) (lTask (replicator e round ptrace sg st rIdx wrote).1.1).
Proof.
  unfold replicator.
  destruct (pickSp (lTask st)) as [sp approval t| |] eqn:Hpick; simpl;
    try apply poolShrinks_refl.
  apply pickSp_shrinks in Hpick.
  destruct (newReplicator t sg rIdx sp approval) as [r|]; simpl; [|done].
  destruct (streamBlocks e round ptrace rIdx sp); simpl; [done|].
  destruct (replicate e t r) as [[[ih sig]|err] evs]; simpl; [|done].
  by destruct (wrote && mapWriteRace e round rIdx).
Qed.

Lemma fanOut_shrinks (e : Env) (round : nat) (ptrace : list ProducerEvent)
      (sg : streamReaderGroup) (order : list nat) (st : loopState) (wrote : bool) :
  poolShrinks (lTask st) (lTask (fanOut e round ptrace sg order st wrote).1.1).
Proof.
  revert st wrote. induction order as [|rIdx order IH]; intros st wrote; simpl.
  - apply poolShrinks_refl.
  - pose proof (replicator_shrinks e round ptrace sg st rIdx wrote) as H1.
    destruct (replicator e round ptrace sg st rIdx wrote) as [[st1 evs1] g]. simpl in *.
    destruct g; try done;
      match goal with
      | |- context [fanOut e round ptrace sg order st1 ?w] =>
          specialize (IH st1 w);
          destruct (fanOut e round ptrace sg order st1 w) as [[st2 evs2] r]
      end; simpl in *; by eapply poolShrinks_trans.
Qed.

Lemma replicateRound_shrinks (e : Env) (round : nat) (st : loopState)
      (sg : streamReaderGroup) :
  poolShrinks (lTask st) (lTask (replicateRound e round st sg).1.1).
Proof.
  unfold replicateRound, produceStreamPieceData.
  set (ptrace := producerTrace _ _ _ _). set (sg' := mkGroup _ _).
  set (order := pickOrder _ _ _ _).
  pose proof (fanOut_shrinks e round ptrace sg' order st false) as H1.
  destruct (fanOut e round ptrace sg' order st false) as [[st1 evs1] r]. simpl in *.
  destruct (producerEnds ptrace); simpl; done || apply poolShrinks_refl.
Qed.

Lemma replicateLoop_shrinks (e : Env) (fuel round : nat) (st : loopState) :
  poolShrinks (lTask st) (lTask (replicateLoop e fuel round st).1.1).
Proof.
  revert round st. induction fuel as [|fuel IH]; intros round st; cbn [replicateLoop].
  { apply poolShrinks_refl. }
  destruct (isAllSucceed _ _); [apply poolShrinks_refl|].
  destruct (newStreamReaderGroup _ _) as [sg|err]; [|apply poolShrinks_refl].
  case_bool_decide; [apply poolShrinks_refl|].
  pose proof (replicateRound_shrinks e round st sg) as H1.
  destruct (replicateRound e round st sg) as [[st1 evs1] r]. simpl in *.
  destruct r; try done.
  specialize (IH (S round) st1).
  destruct (replicateLoop e fuel (S round) st1) as [[st2 evs2] ex]. simpl in *.
  by eapply poolShrinks_trans.
Qed.

(** X16.  [execute] only ever consumes the candidate pool from the head: the
    endpoint list it leaves is a suffix of the one it started with, and the
    provider and approval maps have lost entries only.  A candidate once
    picked is never offered again. *)
Theorem execute_consumes_pool_from_head (e : Env) (t : replicateObjectTask) :
  sortedSpEndpoints (execute e t).1.1 `suffix_of` sortedSpEndpoints t ∧
  approvalResponseMap (execute e t).1.1 ⊆ approvalResponseMap t ∧
  spMap (execute e t).1.1 ⊆ spMap t.
Proof.
  unfold execute.
  set (t1 := set_object t _). set (st0 := mkLoop t1 _ _ _).
  pose proof (replicateLoop_shrinks e (S (length (sortedSpEndpoints t1))) 0 st0) as Hshr.
  destruct (replicateLoop e _ 0 st0) as [[st evs] ex]. cbn [fst snd] in *.
  destruct ex; exact Hshr.
Qed.

(** *** One gateway client per candidate consumed *)

Lemma gatewayClients_app (l1 l2 : list Event) :
  gatewayClients (l1 ++ l2) = gatewayClients l1 ++ gatewayClients l2.
Proof. apply omap_app. Qed.

Lemma replicate_one_client (e : Env) (t : replicateObjectTask)
      (r : streamPieceDataReplicator) :
  gatewayClients (replicate e t r).2 = [GetEndpoint (rSp r)].
Proof.
  unfold replicate. destruct (NewGatewayClient e _); [done|].
  destruct (ReplicateObjectPieceStream e _ _ _ _ _) as [[ih sig]|err]; [|done].
  destruct (negb _); [done|].
  destruct (AccAddressFromHexUnsafe e _); [|done].
  by destruct (VerifySignature e _ _ _).
Qed.

Lemma replicator_one_client (e : Env) (round : nat) (ptrace : list ProducerEvent)
      (sg : streamReaderGroup) (st : loopState) (rIdx : nat) (wrote : bool) :
  poolOk (lTask st) → checksumsOk (lTask st) →
  sortedSpEndpoints (lTask st) ≠ [] → (rIdx < redundancyNumber (lTask st))%nat →
  length (gatewayClients (replicator e round ptrace sg st rIdx wrote).1.2) = 1%nat.
Proof.
  intros Hpool Hsums Hne Hidx.
  destruct (pickSp_ok _ Hpool Hne) as (sp & approval & t' & Hpick & _ & _).
  pose proof (pickSp_frame _ _ _ _ Hpick) as [(_ & Hred & _ & Hcs & _) _].
  unfold replicator. rewrite Hpick. unfold newReplicator.
  destruct (Checksums (objectInfo t') !! (rIdx + 1)%nat) as [expected|] eqn:Hexp.
  2:{ apply lookup_ge_None in Hexp. unfold checksumsOk in Hsums.
      rewrite Hcs, <- Hsums in Hexp. lia. }
  set (r := mkReplicator _ _ _ _ _ _).
  pose proof (replicate_one_client e t' r) as Hone.
  destruct (streamBlocks e round ptrace rIdx sp); simpl; [by rewrite Hone|].
  destruct (replicate e t' r) as [[[ih sig]|err] evs]; simpl in *.
  - destruct (wrote && mapWriteRace e round rIdx); simpl.
    + by rewrite Hone.
    + rewrite gatewayClients_app, Hone. done.
  - by rewrite Hone.
Qed.

Lemma fanOut_clients (e : Env) (round : nat) (ptrace : list ProducerEvent)
      (sg : streamReaderGroup) (order : list nat) (st : loopState) (wrote : bool) :
  poolOk (lTask st) → checksumsOk (lTask st) →
  Forall (λ i, (i < redundancyNumber (lTask st))%nat) order →
  (length order ≤ length (sortedSpEndpoints (lTask st)))%nat →
  (length (gatewayClients (fanOut e round ptrace sg order st wrote).1.2) +
   length (sortedSpEndpoints (lTask (fanOut e round ptrace sg order st wrote).1.1)))%nat =
  length (sortedSpEndpoints (lTask st)).
Proof.
  revert st wrote.
  induction order as [|rIdx order IH]; intros st wrote Hpool Hsums Hidx Hlen; simpl.
  { done. }
  apply Forall_cons in Hidx as [Hidx Hrest]. simpl in Hlen.
  assert (sortedSpEndpoints (lTask st) ≠ []) as Hne.
  { destruct (sortedSpEndpoints (lTask st)); [simpl in Hlen; lia|done]. }
  pose proof (replicator_ok e round ptrace sg st rIdx wrote Hpool Hsums Hne Hidx)
    as (Hpool1 & Hlen1 & _).
  pose proof (replicator_one_client e round ptrace sg st rIdx wrote Hpool Hsums Hne Hidx)
    as Hone.
  pose proof (replicator_frame e round ptrace sg st rIdx wrote)
    as [(_ & Hred & _ & Hcs & _) _].
  destruct (replicator e round ptrace sg st rIdx wrote) as [[st1 evs1] g]. simpl in *.
  assert (checksumsOk (lTask st1)) as Hsums1.
  { unfold checksumsOk in *. congruence. }
  assert (Forall (λ i, (i < redundancyNumber (lTask st1))%nat) order) as Hrest1
      by (by rewrite Hred).
  assert (length order ≤ length (sortedSpEndpoints (lTask st1)))%nat as Hlen' by lia.
  destruct g;
    try match goal with
    | |- context [fanOut e round ptrace sg order st1 ?w] =>
        specialize (IH st1 w Hpool1 Hsums1 Hrest1 Hlen');
        destruct (fanOut e round ptrace sg order st1 w) as [[st2 evs2] r]
    end; simpl in *; rewrite ?gatewayClients_app, ?length_app; lia.
Qed.

Lemma replicateRound_clients (e : Env) (round : nat) (st : loopState)
      (sg : streamReaderGroup) :
  poolOk (lTask st) → checksumsOk (lTask st) →
  Forall (λ i, (i < redundancyNumber (lTask st))%nat) (groupIndices sg) →
  (length (groupIndices sg) ≤ length (sortedSpEndpoints (lTask st)))%nat →
  (length (gatewayClients (replicateRound e round st sg).1.2) +
   length (sortedSpEndpoints (lTask (replicateRound e round st sg).1.1)))%nat =
  length (sortedSpEndpoints (lTask st)).
Proof.
  intros Hpool Hsums Hidx Hlen.
  unfold replicateRound, produceStreamPieceData.
  set (ptrace := producerTrace _ _ _ _). set (sg' := mkGroup _ _).
  assert (groupIndices sg' = groupIndices sg) as Hsame by done.
  rewrite Hsame.
  set (order := pickOrder _ _ _ _).
  assert (length order = length (groupIndices sg)) as Hord
      by (by apply pickOrder_length).
  assert (Forall (λ i, (i < redundancyNumber (lTask st))%nat) order) as Hbound
      by (by apply pickOrder_Forall).
  assert (length order ≤ length (sortedSpEndpoints (lTask st)))%nat as Hfits by lia.
  pose proof (fanOut_clients e round ptrace sg' order st false Hpool Hsums Hbound Hfits)
    as Hcl1.
  destruct (fanOut e round ptrace sg' order st false) as [[st1 evs1] r]. simpl in *.
  destruct (producerEnds ptrace); simpl;
    change (gatewayClients (EvProduce ?p :: ?l)) with (gatewayClients l); done.
Qed.

Lemma replicateLoop_clients (e : Env) (fuel : nat) :
  ∀ round st,
    poolOk (lTask st) → checksumsOk (lTask st) →
    (length (gatewayClients (replicateLoop e fuel round st).1.2) +
     length (sortedSpEndpoints (lTask (replicateLoop e fuel round st).1.1)))%nat =
    length (sortedSpEndpoints (lTask st)).
Proof.
  induction fuel as [|fuel IH]; intros round st Hpool Hsums; [done|].
  cbn [replicateLoop]. destruct (isAllSucceed _ _); [done|].
  destruct (newStreamReaderGroup (lTask st) (succeedIndexMap st)) as [sg|err] eqn:Hsg;
    [|done].
  apply newStreamReaderGroup_ok in Hsg as (Hidx & Hpos & Hlen).
  case_bool_decide as Hroom; [done|].
  assert (length (groupIndices sg) ≤ length (sortedSpEndpoints (lTask st)))%nat
    as Hfits by lia.
  assert (0 < length (groupIndices sg) ≤ length (sortedSpEndpoints (lTask st)))%nat
    as Hfits' by lia.
  pose proof (replicateRound_ok e round st sg Hpool Hsums Hidx Hfits') as (Hpool1 & _).
  pose proof (replicateRound_clients e round st sg Hpool Hsums Hidx Hfits) as Hcl1.
  pose proof (replicateRound_frame e round st sg) as [(_ & Hred & _ & Hcs & _) _].
  destruct (replicateRound e round st sg) as [[st1 evs1] r]. simpl in *.
  destruct r; try done.
  assert (checksumsOk (lTask st1)) as Hsums1.
  { unfold checksumsOk in *. congruence. }
  specialize (IH (S round) st1 Hpool1 Hsums1).
  destruct (replicateLoop e fuel (S round) st1) as [[st2 evs2] ex]. simpl in *.
  rewrite gatewayClients_app, length_app. lia.
Qed.

(** X17.  After a successful [init], [execute] creates exactly one gateway
    client for every candidate it takes from the pool, and none otherwise:
    the number of clients created is the number of endpoints consumed. *)
Theorem execute_one_client_per_candidate
        (e : Env) (t0 t : replicateObjectTask) (evs0 : list Event) :
  init e t0 = (None, t, evs0) →
  (length (gatewayClients (execute e t).1.2) +
   length (sortedSpEndpoints (execute e t).1.1))%nat = length (sortedSpEndpoints t).
Proof.
  intros Hinit. apply init_establishes in Hinit as (Hpool & Hsums & _ & _).
  unfold execute.
  set (t1 := set_object t _). set (st0 := mkLoop t1 _ _ _).
  assert (poolOk (lTask st0) ∧ checksumsOk (lTask st0)) as [Hpool0 Hsums0] by done.
  pose proof (replicateLoop_clients e (S (length (sortedSpEndpoints t1))) 0 st0 Hpool0 Hsums0)
    as Hcount.
  pose proof (replicateLoop_frame e (S (length (sortedSpEndpoints t1))) 0 st0)
    as (_ & Hevs & _).
  destruct (replicateLoop e _ 0 st0) as [[st evs] ex]. cbn [fst snd] in *.
  assert (∀ l, Forall (λ ev, isFanOutEvent ev = false) l → gatewayClients l = []) as Hquiet.
  { clear. induction 1 as [|ev l Hev _ IH]; [done|]. destruct ev; try done. }
  pose proof (sealInfo_quiet e st) as (_ & _ & Hseal).
  change (sortedSpEndpoints (lTask st0)) with (sortedSpEndpoints t) in Hcount.
  destruct ex; cbn [fst snd];
    change (gatewayClients (EvUpdateJobState ?i ?s :: ?l)) with (gatewayClients l);
    rewrite ?gatewayClients_app, ?(Hquiet _ Hseal), ?length_app; simpl; lia.
Qed.

(** *** What the loop records *)

Lemma replicator_succeeded_stay (e : Env) (round : nat) (ptrace : list ProducerEvent)
      (sg : streamReaderGroup) (st : loopState) (rIdx : nat) (wrote : bool) (i : nat) :
  succeedIndexMap st !! i = Some true →
  succeedIndexMap (replicator e round ptrace sg st rIdx wrote).1.1 !! i = Some true.
Proof.
  intros Hi. unfold replicator.
  destruct (pickSp (lTask st)) as [sp approval t| |]; simpl; try done.
  destruct (newReplicator t sg rIdx sp approval) as [r|]; simpl; [|done].
  destruct (streamBlocks e round ptrace rIdx sp); simpl; [done|].
  destruct (replicate e t r) as [[[ih sig]|err] evs]; simpl; [|done].
  destruct (wrote && mapWriteRace e round rIdx); simpl; [done|].
  destruct (decide (rIdx = i)) as [->|Hne].
  - by rewrite lookup_insert_eq.
  - by rewrite lookup_insert_ne.
Qed.

Lemma fanOut_succeeded_stay (e : Env) (round : nat) (ptrace : list ProducerEvent)
      (sg : streamReaderGroup) (order : list nat) (st : loopState) (wrote : bool) (i : nat) :
  succeedIndexMap st !! i = Some true →
  succeedIndexMap (fanOut e round ptrace sg order st wrote).1.1 !! i = Some true.
Proof.
  revert st wrote. induction order as [|rIdx order IH]; intros st wrote Hi; simpl; [done|].
  pose proof (replicator_succeeded_stay e round ptrace sg st rIdx wrote i Hi) as H1.
  destruct (replicator e round ptrace sg st rIdx wrote) as [[st1 evs1] g]. simpl in *.
  destruct g; try done;
    match goal with
    | |- context [fanOut e round ptrace sg order st1 ?w] =>
        specialize (IH st1 w H1);
        by destruct (fanOut e round ptrace sg order st1 w) as [[st2 evs2] r]
    end.
Qed.

Lemma replicateRound_succeeded_stay (e : Env) (round : nat) (st : loopState)
      (sg : streamReaderGroup) (i : nat) :
  succeedIndexMap st !! i = Some true →
  succeedIndexMap (replicateRound e round st sg).1.1 !! i = Some true.
Proof.
  intros Hi. unfold replicateRound, produceStreamPieceData.
  set (ptrace := producerTrace _ _ _ _). set (sg' := mkGroup _ _).
  set (order := pickOrder _ _ _ _).
  pose proof (fanOut_succeeded_stay e round ptrace sg' order st false i Hi) as H1.
  destruct (fanOut e round ptrace sg' order st false) as [[st1 evs1] r]. simpl in *.
  by destruct (producerEnds ptrace).
Qed.

(** X18.  Invariant I2 of the retry loop: a shard index marked as succeeded
    stays marked through every later round, whatever the later rounds do. *)
Theorem succeeded_shards_stay_succeeded
        (e : Env) (fuel round : nat) (st : loopState) (i : nat) :
  succeedIndexMap st !! i = Some true →
  succeedIndexMap (replicateLoop e fuel round st).1.1 !! i = Some true.
Proof.
  revert round st. induction fuel as [|fuel IH]; intros round st Hi; cbn [replicateLoop];
    [done|].
  destruct (isAllSucceed _ _); [done|].
  destruct (newStreamReaderGroup _ _) as [sg|err]; [|done].
  case_bool_decide; [done|].
  pose proof (replicateRound_succeeded_stay e round st sg i Hi) as H1.
  destruct (replicateRound e round st sg) as [[st1 evs1] r]. simpl in *.
  destruct r; try done.
  specialize (IH (S round) st1 H1).
  by destruct (replicateLoop e fuel (S round) st1) as [[st2 evs2] ex].
Qed.

(** What a successful [replicate] has checked. *)
Lemma replicate_success (e : Env) (t : replicateObjectTask) (r : streamPieceDataReplicator)
      (integrityHash signature : bytes) (evs : list Event) :
  replicate e t r = (inl (integrityHash, signature), evs) →
  integrityHash = expectedIntegrityHash r ∧
  ∃ approvalAddr,
    AccAddressFromHexUnsafe e (GetApprovalAddress (rSp r)) = inl approvalAddr ∧
    VerifySignature e approvalAddr
      (Keccak256 e (SecondarySpSignBytes e (GetOperator (rSp r)) (Id (objectInfo t))
                                         integrityHash))
      signature = None.
Proof.
  unfold replicate. destruct (NewGatewayClient e _); [done|].
  destruct (ReplicateObjectPieceStream e _ _ _ _ _) as [[ih sig]|err]; [|done].
  unfold bytesEqual. case_bool_decide as Heq; simpl; [|done].
  destruct (AccAddressFromHexUnsafe e _) as [addr|] eqn:Haddr; [|done].
  destruct (VerifySignature e addr _ sig) eqn:Hsig; [done|].
  intros [= <- <- <-]. split; [done|]. by exists addr.
Qed.

(** Whatever [pickSp] hands out comes from the pool the task started with. *)
Lemma pickSp_candidate (t0 t t' : replicateObjectTask) sp approval :
  poolShrinks t0 t → pickSp t = PickOk sp approval t' → candidate t0 sp.
Proof.
  intros (Hsuffix & _ & Hsub). unfold pickSp. case_bool_decide; [done|].
  destruct (sortedSpEndpoints t) as [|endpoint rest] eqn:Heps; [done|].
  intros [= <- _ _]. exists endpoint. split.
  - destruct Hsuffix as [front ->]. apply elem_of_app. right. by left.
  - destruct (spMap t !! endpoint) as [x|] eqn:Hx; [right|by left].
    symmetry. by eapply lookup_weaken.
Qed.

Lemma replicator_sealMsgOk (e : Env) (t0 : replicateObjectTask) (round : nat)
      (ptrace : list ProducerEvent) (sg : streamReaderGroup) (st : loopState)
      (rIdx : nat) (wrote : bool) :
  sameFrame t0 (lTask st) → poolShrinks t0 (lTask st) → sealMsgOk e t0 st →
  (rIdx < redundancyNumber t0)%nat →
  sealMsgOk e t0 (replicator e round ptrace sg st rIdx wrote).1.1.
Proof.
  intros Hframe Hshr Hok Hidx. unfold replicator.
  destruct (pickSp (lTask st)) as [sp approval t| |] eqn:Hpick; simpl; try done.
  pose proof (pickSp_candidate _ _ _ _ _ Hshr Hpick) as Hcand.
  apply pickSp_frame in Hpick as [Hpf _].
  pose proof (sameFrame_trans _ _ _ Hframe Hpf) as (_ & _ & _ & Hcs & Hid & _).
  destruct (newReplicator t sg rIdx sp approval) as [r|] eqn:Hnew; simpl; [|done].
  destruct (streamBlocks e round ptrace rIdx sp); simpl; [done|].
  destruct (replicate e t r) as [[[ih sig]|err] evs] eqn:Hrep; simpl; [|done].
  destruct (wrote && mapWriteRace e round rIdx); simpl; [done|].
  apply replicate_success in Hrep as (Hih & addr & Haddr & Hsig).
  unfold newReplicator in Hnew.
  destruct (Checksums (objectInfo t) !! (rIdx + 1)%nat) as [expected|] eqn:Hexp; [|done].
  injection Hnew as <-. simpl in *. subst ih.
  destruct Hok as (Hla & Hls & Hop & Hbk & Hob & Hver).
  unfold sealMsgOk. simpl. rewrite !length_insert.
  split_and!; try done.
  intros i Hi. destruct (decide (rIdx = i)) as [<-|Hne].
  - exists sp. split; [done|]. unfold verifiedSlot. simpl. split.
    + apply list_lookup_insert_eq. lia.
    + exists expected, addr, sig. rewrite <- Hcs, <- Hid.
      split_and!; try done. apply list_lookup_insert_eq. lia.
  - rewrite lookup_insert_ne in Hi by done.
    destruct (Hver i Hi) as (sp' & Hcand' & Haddr' & expected' & addr' & sig' & V1 & V2 & V3 & V4).
    exists sp'. split; [done|]. unfold verifiedSlot. simpl. split.
    + by rewrite list_lookup_insert_ne.
    + exists expected', addr', sig'. split_and!; try done.
      by rewrite list_lookup_insert_ne.
Qed.

Lemma fanOut_sealMsgOk (e : Env) (t0 : replicateObjectTask) (round : nat)
      (ptrace : list ProducerEvent) (sg : streamReaderGroup) (order : list nat)
      (st : loopState) (wrote : bool) :
  sameFrame t0 (lTask st) → poolShrinks t0 (lTask st) → sealMsgOk e t0 st →
  Forall (λ i, (i < redundancyNumber t0)%nat) order →
  sealMsgOk e t0 (fanOut e round ptrace sg order st wrote).1.1.
Proof.
  revert st wrote.
  induction order as [|rIdx order IH]; intros st wrote Hframe Hshr Hok Hidx; simpl; [done|].
  apply Forall_cons in Hidx as [Hidx Hrest].
  pose proof (replicator_sealMsgOk e t0 round ptrace sg st rIdx wrote Hframe Hshr Hok Hidx)
    as H1.
  pose proof (replicator_frame e round ptrace sg st rIdx wrote) as [Hf1 _].
  pose proof (replicator_shrinks e round ptrace sg st rIdx wrote) as Hs1.
  destruct (replicator e round ptrace sg st rIdx wrote) as [[st1 evs1] g]. simpl in *.
  destruct g; try done;
    match goal with
    | |- context [fanOut e round ptrace sg order st1 ?w] =>
        specialize (IH st1 w (sameFrame_trans _ _ _ Hframe Hf1)
                       (poolShrinks_trans _ _ _ Hshr Hs1) H1 Hrest);
        by destruct (fanOut e round ptrace sg order st1 w) as [[st2 evs2] r]
    end.
Qed.

Lemma replicateRound_sealMsgOk (e : Env) (t0 : replicateObjectTask) (round : nat)
      (st : loopState) (sg : streamReaderGroup) :
  sameFrame t0 (lTask st) → poolShrinks t0 (lTask st) → sealMsgOk e t0 st →
  Forall (λ i, (i < redundancyNumber t0)%nat) (groupIndices sg) →
  sealMsgOk e t0 (replicateRound e round st sg).1.1.
Proof.
  intros Hframe Hshr Hok Hidx. unfold replicateRound, produceStreamPieceData.
  set (ptrace := producerTrace _ _ _ _). set (sg' := mkGroup _ _).
  assert (groupIndices sg' = groupIndices sg) as Hsame by done.
  rewrite Hsame.
  set (order := pickOrder _ _ _ _).
  assert (Forall (λ i, (i < redundancyNumber t0)%nat) order) as Hbound
      by (by apply pickOrder_Forall).
  pose proof (fanOut_sealMsgOk e t0 round ptrace sg' order st false Hframe Hshr Hok Hbound)
    as H1.
  destruct (fanOut e round ptrace sg' order st false) as [[st1 evs1] r]. simpl in *.
  by destruct (producerEnds ptrace).
Qed.

Lemma replicateLoop_sealMsgOk (e : Env) (t0 : replicateObjectTask) (fuel : nat) :
  ∀ round st,
    sameFrame t0 (lTask st) → poolShrinks t0 (lTask st) → sealMsgOk e t0 st →
    sealMsgOk e t0 (replicateLoop e fuel round st).1.1.
Proof.
  induction fuel as [|fuel IH]; intros round st Hframe Hshr Hok; cbn [replicateLoop];
    [done|].
  destruct (isAllSucceed _ _); [done|].
  destruct (newStreamReaderGroup (lTask st) (succeedIndexMap st)) as [sg|err] eqn:Hsg;
    [|done].
  apply newStreamReaderGroup_ok in Hsg as (Hidx & _ & _).
  case_bool_decide; [done|].
  assert (Forall (λ i, (i < redundancyNumber t0)%nat) (groupIndices sg)) as Hbound.
  { destruct Hframe as (_ & Hred & _). by rewrite <- Hred. }
  pose proof (replicateRound_sealMsgOk e t0 round st sg Hframe Hshr Hok Hbound) as H1.
  pose proof (replicateRound_frame e round st sg) as [Hf1 _].
  pose proof (replicateRound_shrinks e round st sg) as Hs1.
  destruct (replicateRound e round st sg) as [[st1 evs1] r]. simpl in *.
  destruct r; try done.
  specialize (IH (S round) st1 (sameFrame_trans _ _ _ Hframe Hf1)
                 (poolShrinks_trans _ _ _ Hshr Hs1) H1).
  by destruct (replicateLoop e fuel (S round) st1) as [[st2 evs2] ex].
Qed.

(** X19.  Every seal message [execute] hands to the signer is complete and
    checked, slot by slot, against one provider of the pool: it names the
    configured operator and the object's bucket and name, has one address
    slot and one signature slot per shard, and for every shard there is a
    provider that [pickSp] took from the candidate pool of the task such
    that the address slot of the shard holds that provider's operator
    address and the signature slot holds a signature that [VerifySignature]
    accepted, for the address parsed from that provider's approval address,
    over the Keccak-256 digest of the sign document built from that
    provider's operator, the object id and the expected checksum of the
    shard (the checksum at index shard + 1). *)
Theorem sealed_signatures_are_verified
        (e : Env) (t : replicateObjectTask) (k : nat) (msg : MsgSealObject) :
  (execute e t).1.2 !! k = Some (EvSealObjectOnChain msg) →
  SealOperator msg = SpOperatorAddress e ∧
  SealBucketName msg = BucketName (objectInfo t) ∧
  SealObjectName msg = ObjectName (objectInfo t) ∧
  length (SealSecondarySpAddresses msg) = redundancyNumber t ∧
  length (SealSecondarySpSignatures msg) = redundancyNumber t ∧
  ∀ i, (i < redundancyNumber t)%nat →
       ∃ sp, candidate t sp ∧ verifiedSlot e t msg i sp.
Proof.
  intros Hk. apply list_elem_of_lookup_2 in Hk. revert Hk. unfold execute.
  set (t1 := set_object t _). set (st0 := mkLoop t1 _ _ _).
  assert (sameFrame t (lTask st0)) as Hframe0 by (by repeat split).
  assert (poolShrinks t (lTask st0)) as Hshr0 by (by split_and!).
  assert (sealMsgOk e t st0) as Hok0.
  { unfold sealMsgOk. simpl. rewrite !repeat_length. by split_and!. }
  pose proof (replicateLoop_sealMsgOk e t (S (length (sortedSpEndpoints t1))) 0 st0
                Hframe0 Hshr0 Hok0) as Hok.
  pose proof (replicateLoop_frame e (S (length (sortedSpEndpoints t1))) 0 st0)
    as ((_ & Hred & _) & Hevs & Hbreak).
  destruct (replicateLoop e _ 0 st0) as [[st evs] ex]. cbn [fst snd] in *.
  apply fanOut_events_quiet in Hevs as (_ & _ & _ & Hnoseal).
  assert (EvSealObjectOnChain msg ∉ evs) as Hnotin.
  { intros Hin. eapply Forall_forall in Hnoseal; [|exact Hin]. done. }
  assert (EvSealObjectOnChain msg ∈ sealInfo e st → msg = sealMsg st ∧
          isAllSucceed (lTask st) (succeedIndexMap st) = true) as Hseal.
  { unfold sealInfo. destruct (isAllSucceed _ _).
    - intros Hin. split; [|done].
      apply elem_of_cons in Hin as [?|Hin]; [done|].
      apply elem_of_cons in Hin as [Heq|Hin]; [by injection Heq|].
      destruct (SealObjectOnChain e _); [|destruct (ListenObjectSeal e _ _ _)];
        repeat (apply elem_of_cons in Hin as [?|Hin]; [done|]);
        by apply elem_of_nil in Hin.
    - intros Hin. apply elem_of_cons in Hin as [?|Hin]; [done|].
      by apply elem_of_nil in Hin. }
  assert (msg = sealMsg st ∧ isAllSucceed (lTask st) (succeedIndexMap st) = true →
          SealOperator msg = SpOperatorAddress e ∧
          SealBucketName msg = BucketName (objectInfo t) ∧
          SealObjectName msg = ObjectName (objectInfo t) ∧
          length (SealSecondarySpAddresses msg) = redundancyNumber t ∧
          length (SealSecondarySpSignatures msg) = redundancyNumber t ∧
          ∀ i, (i < redundancyNumber t)%nat →
               ∃ sp, candidate t sp ∧ verifiedSlot e t msg i sp) as Hfinish.
  { intros [-> Hall]. destruct Hok as (Hla & Hls & Hop & Hbk & Hob & Hver).
    split_and!; try done. intros i Hi. apply Hver.
    apply (isAllSucceed_true _ _ Hall). simpl in Hred. by rewrite Hred. }
  destruct ex; cbn [fst snd]; intros Hin.
  - apply elem_of_cons in Hin as [?|Hin]; [done|].
    apply elem_of_app in Hin as [Hin|Hin]; [done|].
    apply elem_of_app in Hin as [Hin|Hin]; [by apply Hfinish, Hseal|].
    apply elem_of_cons in Hin as [?|Hin]; [done|]. by apply elem_of_nil in Hin.
  - apply elem_of_cons in Hin as [?|Hin]; [done|].
    apply elem_of_app in Hin as [Hin|Hin]; [done|].
    apply elem_of_cons in Hin as [?|Hin]; [done|]. by apply elem_of_nil in Hin.
  - apply elem_of_cons in Hin as [?|Hin]; done.
  - apply elem_of_cons in Hin as [?|Hin]; done.
  - apply elem_of_cons in Hin as [?|Hin]; done.
Qed.

(** *** The theorems above at the scenarios *)

Lemma producer_writes_one_piece_per_segment_witness :
  let e := Scenarios.env 6 None false in
  let t := Scenarios.readyTask in
  let sg := Scenarios.readyGroup in
  let trace := producerTrace e 0 t sg in
  let produced := leadingProduced e 0 t (seq 0 (segmentPieceNumber t)) in
  3%nat ∈ groupIndices sg ∧
  (length (writesTo 3 trace) ≤ produced)%nat ∧
  (produced ≤ segmentPieceNumber t)%nat ∧
  (producerEnds trace = ProducerReturned → length (writesTo 3 trace) = produced) ∧
  (producerEnds trace = ProducerReturned →
   forallb (segmentProduced e 0 t) (seq 0 (segmentPieceNumber t)) = true →
   length (writesTo 3 trace) = segmentPieceNumber t).
Proof.
  intros e t sg.
  assert (3%nat ∈ groupIndices sg) as Hin.
  { apply list_elem_of_In. vm_compute. do 3 right. left. reflexivity. }
  split; [exact Hin|].
  apply (producer_writes_one_piece_per_segment e 0 t sg 3 Hin).
Defined.

Lemma newStreamReaderGroup_covers_unexcluded_witness :
  let t := Scenarios.readyTask in
  (0 < segmentPieceNumber t)%nat ∧
  match newStreamReaderGroup t ∅ with
  | inl sg =>
      pieceSize sg = 0 ∧
      ∀ i, is_Some (streamReaderMap sg !! i) ↔
           (i < redundancyNumber t)%nat ∧ default false ((∅ : gmap nat bool) !! i) = false
  | inr err =>
      err = ErrInvalidParams ∧
      ∀ i, (i < redundancyNumber t)%nat → default false ((∅ : gmap nat bool) !! i) = true
  end.
Proof.
  intros t. split; [vm_compute; lia|].
  apply (newStreamReaderGroup_covers_unexcluded t ∅). vm_compute; lia.
Defined.

Lemma unfinished_task_gets_a_group_witness :
  let t := Scenarios.readyTask in
  let succeeded : gmap nat bool := {[ 3%nat := true ]} in
  isAllSucceed t succeeded = false ∧ (0 < segmentPieceNumber t)%nat ∧
  ∃ sg, newStreamReaderGroup t succeeded = inl sg ∧
        (0 < size (streamReaderMap sg))%nat ∧
        ∀ i, is_Some (streamReaderMap sg !! i) ↔
             (i < redundancyNumber t)%nat ∧ succeeded !! i ≠ Some true.
Proof.
  intros t succeeded. split; [vm_compute; reflexivity|]. split; [vm_compute; lia|].
  apply (unfinished_task_gets_a_group t succeeded); [vm_compute; reflexivity|vm_compute; lia].
Defined.

Lemma failed_init_reserves_nothing_witness :
  let e := Scenarios.env 6 None false in
  let t := Scenarios.task 256 6 in
  let t' := (init e t).1.2 in
  let evs := (init e t).2 in
  init e t = (Some ErrInvalidParams, t', evs) ∧
  reservedBytes evs = [] ∧ releasedBytes evs = [] ∧
  (length (List.filter isApprovalRequest evs) ≤ 1)%nat ∧
  objectInfo t' = objectInfo t.
Proof.
  intros e t t' evs. split; [vm_compute; reflexivity|].
  apply (failed_init_reserves_nothing e t t' ErrInvalidParams evs). vm_compute; reflexivity.
Defined.

Lemma execute_one_client_per_candidate_witness :
  let e := Scenarios.env 7 (Some ("d", 3%nat)) false in
  let t0 := Scenarios.task 256 7 in
  let t := (init e t0).1.2 in
  let evs0 := (init e t0).2 in
  init e t0 = (None, t, evs0) ∧
  (length (gatewayClients (execute e t).1.2) +
   length (sortedSpEndpoints (execute e t).1.1))%nat = length (sortedSpEndpoints t).
Proof.
  intros e t0 t evs0. split; [vm_compute; reflexivity|].
  apply (execute_one_client_per_candidate e t0 t evs0). vm_compute; reflexivity.
Defined.

Lemma succeeded_shards_stay_succeeded_witness :
  let e := Scenarios.env 6 None false in
  succeedIndexMap Scenarios.resumedLoop !! O = Some true ∧
  succeedIndexMap (replicateLoop e 3 0 Scenarios.resumedLoop).1.1 !! O = Some true.
Proof.
  intros e. split; [vm_compute; reflexivity|].
  apply (succeeded_shards_stay_succeeded e 3 0 Scenarios.resumedLoop O).
  vm_compute; reflexivity.
Defined.

Lemma sealed_signatures_are_verified_witness :
  let e := Scenarios.env 6 None false in
  let t := Scenarios.readyTask in
  let msg := Scenarios.sealedMsg in
  (execute e t).1.2 !! 27%nat = Some (EvSealObjectOnChain msg) ∧
  SealOperator msg = SpOperatorAddress e ∧
  SealBucketName msg = BucketName (objectInfo t) ∧
  SealObjectName msg = ObjectName (objectInfo t) ∧
  length (SealSecondarySpAddresses msg) = redundancyNumber t ∧
  length (SealSecondarySpSignatures msg) = redundancyNumber t ∧
  ∀ i, (i < redundancyNumber t)%nat →
       ∃ sp, candidate t sp ∧ verifiedSlot e t msg i sp.
Proof.
  intros e t msg. split; [vm_compute; reflexivity|].
  apply (sealed_signatures_are_verified e t 27 msg). vm_compute; reflexivity.
Defined.

End TaskNodeCoverage.
